(** * vocaaudio: the vocabulary parsers of [pdf_parser.py]

    A shallow embedding of the text parsers, the merge step and the
    orientation corrector of [pdf_parser.py], and the properties the
    specification states about them.

    Python strings are sequences of Unicode code points: a character is its
    code point (a [Z]), a string is a list of characters.  Python integers
    are unbounded: entry numbers are [Z].  The regular expressions of the
    source are kept as syntax trees and run by a backtracking matcher with
    the priorities of Python's [re] (leftmost, greedy first). *)

From Stdlib Require Import ZArith NArith QArith Lia Bool String Ascii List.
From stdpp Require Import gmap sorting.
Import ListNotations.

Local Open Scope Z_scope.

(** ** Characters and strings *)

Definition char := Z.
Definition str := list char.

Definition in_range (lo hi c : char) : bool := (lo <=? c) && (c <=? hi).

(** String literals of this file are UTF-8; [lit] decodes one into code
    points, the way Python reads its own source text. *)
Fixpoint bytes_of (s : string) : list Z :=
  match s with
  | EmptyString => []
  | String a s' => Z.of_N (N_of_ascii a) :: bytes_of s'
  end.

Fixpoint utf8 (bs : list Z) : str :=
  match bs with
  | [] => []
  | b0 :: t0 =>
    if b0 <? 128 then b0 :: utf8 t0
    else match t0 with
    | [] => []
    | b1 :: t1 =>
      if b0 <? 224 then ((b0 - 192) * 64 + (b1 - 128)) :: utf8 t1
      else match t1 with
      | [] => []
      | b2 :: t2 =>
        if b0 <? 240
        then (((b0 - 224) * 64 + (b1 - 128)) * 64 + (b2 - 128)) :: utf8 t2
        else match t2 with
        | [] => []
        | b3 :: t3 =>
          ((((b0 - 240) * 64 + (b1 - 128)) * 64 + (b2 - 128)) * 64
           + (b3 - 128)) :: utf8 t3
        end
      end
    end
  end.

Definition lit (s : string) : str := utf8 (bytes_of s).

Definition NL : char := 10.
Definition SP : char := 32.
Definition COMMA : char := 44.
Definition DOT : char := 46.
Definition HASH : char := 35.

(** [str.isspace] on one character, which is also the class [\s] of [re]
    on text patterns: the code points of bidirectional type WS, B or S and
    of category Zs. *)
Definition isspace (c : char) : bool :=
  in_range 9 13 c || in_range 28 32 c || (c =? 133) || (c =? 160)
  || (c =? 5760) || in_range 8192 8202 c || (c =? 8232) || (c =? 8233)
  || (c =? 8239) || (c =? 8287) || (c =? 12288).

(** [[가-힣]]: the Hangul syllables U+AC00 .. U+D7A3. *)
Definition is_hangul (c : char) : bool := in_range 44032 55203 c.

(** [[a-zA-Z]] and [[a-zA-Z\-]]. *)
Definition is_letter (c : char) : bool := in_range 97 122 c || in_range 65 90 c.
Definition is_word_tail (c : char) : bool := is_letter c || (c =? 45).

(** [[avn]]. *)
Definition is_pos_tag (c : char) : bool := (c =? 97) || (c =? 118) || (c =? 110).

Definition is_dot (c : char) : bool := c =? DOT.
Definition is_newline (c : char) : bool := c =? NL.
(** [.] without DOTALL and [[^\n]]; [.] with DOTALL; [[^)]]. *)
Definition not_newline (c : char) : bool := negb (c =? NL).
Definition any_char (c : char) : bool := true.
Definition not_rparen (c : char) : bool := negb (c =? 41).
Definition is_lparen (c : char) : bool := c =? 40.
Definition is_rparen (c : char) : bool := c =? 41.
Definition is_d (c : char) : bool := c =? 100.

(** The three checkbox classes of the source: [[O□☐\[\]oO]] (OCR parser),
    [[□☐\[\]]] (table parser) and [[□☐\[\]O]] (simple parser).
    □ is U+25A1, ☐ is U+2610. *)
Definition is_box (c : char) : bool :=
  (c =? 9633) || (c =? 9744) || (c =? 91) || (c =? 93).
Definition is_box_ocr (c : char) : bool := is_box c || (c =? 79) || (c =? 111).
Definition is_box_simple (c : char) : bool := is_box c || (c =? 79).

(** The Unicode character database is not part of the repository.  What the
    parsers need of it outside the ranges written out below is an
    interface: the value of a decimal digit (category Nd, what [\d] and
    [int] accept) and [str.isalnum] (which, with the underscore, is [\w]). *)
Class UnicodeData := {
  uni_decimal : char -> option Z;
  uni_alnum : char -> bool;
  (** a blank is no digit *)
  uni_decimal_space : forall c, isspace c = true -> uni_decimal c = None
}.

Section Unicode.
Context `{UnicodeData}.

(** The value of a decimal digit.  ASCII digits apart, no code point
    below U+0660 is one, nor is a Hangul syllable or a code point of the
    punctuation and symbol blocks U+2000 .. U+2BFF. *)
Definition decimal_value (c : char) : option Z :=
  if in_range 48 57 c then Some (c - 48)
  else if c <? 1632 then None
  else if is_hangul c then None
  else if in_range 8192 11263 c then None
  else uni_decimal c.

Definition is_decimal (c : char) : bool :=
  match decimal_value c with Some _ => true | None => false end.

(** [\w]: ASCII letters, digits and the underscore; no other code point
    below U+00AA; every Hangul syllable; none of the box-drawing,
    geometric and miscellaneous symbols U+2500 .. U+26FF. *)
Definition is_word (c : char) : bool :=
  if c <? 128 then is_letter c || in_range 48 57 c || (c =? 95)
  else if c <? 170 then false
  else if is_hangul c then true
  else if in_range 9472 9983 c then false
  else uni_alnum c.
End Unicode.

(** ** Regular expressions

    The constructs the patterns of the source use.  A repetition applies to
    a character class ([\s*], [\d+], [.*?], [[a-zA-Z]{2,}]); an optional
    part to any expression. *)
Inductive regex :=
| Eps
| Cls (p : char -> bool)
| Rep (greedy : bool) (lo : nat) (p : char -> bool)
| Opt (r : regex)
| Cat (r1 r2 : regex)
| Alt (r1 r2 : regex)
| Grp (i : nat) (r : regex)
| Bol
| Eol (multiline : bool)
| Bnd (w : char -> bool)
| Ahead (r : regex).

(** The matcher's position: the character before it ([None] at the start
    of the text), the text from it on, and the groups captured so far. *)
Record mstate := MState {
  ms_prev : option char;
  ms_rest : str;
  ms_caps : list (nat * str)
}.

(** The text between two positions, the second a suffix of the first. *)
Definition taken (s0 s1 : str) : str :=
  firstn (length s0 - length s1)%nat s0.

(** [$]: at the end, or before a final newline; with MULTILINE before any
    newline. *)
Definition at_eol (multiline : bool) (s : str) : bool :=
  match s with
  | [] => true
  | c :: s' =>
    (c =? NL) && (multiline || match s' with [] => true | _ => false end)
  end.

Definition wordp (w : char -> bool) (oc : option char) : bool :=
  match oc with Some c => w c | None => false end.

(** Greedy repetition of a class, at least [lo] times: as many characters
    as possible, then one fewer, ... *)
Fixpoint rep_greedy (p : char -> bool) (k : mstate -> option mstate)
    (caps : list (nat * str)) (lo : nat) (prev : option char) (s : str)
    : option mstate :=
  let stop := match lo with O => k (MState prev s caps) | S _ => None end in
  match s with
  | c :: s' =>
    if p c then
      match rep_greedy p k caps (Nat.pred lo) (Some c) s' with
      | Some st => Some st
      | None => stop
      end
    else stop
  | [] => stop
  end.

(** Lazy repetition: as few characters as possible, then one more, ... *)
Fixpoint rep_lazy (p : char -> bool) (k : mstate -> option mstate)
    (caps : list (nat * str)) (lo : nat) (prev : option char) (s : str)
    : option mstate :=
  let more :=
    match s with
    | c :: s' =>
      if p c then rep_lazy p k caps (Nat.pred lo) (Some c) s' else None
    | [] => None
    end in
  match lo with
  | O => match k (MState prev s caps) with Some st => Some st | None => more end
  | S _ => more
  end.

(** [run r k st]: match [r] at [st], then the rest of the pattern [k];
    the first success in priority order. *)
Fixpoint run (r : regex) (k : mstate -> option mstate) (st : mstate)
    : option mstate :=
  match r with
  | Eps => k st
  | Cls p =>
    match ms_rest st with
    | c :: s' => if p c then k (MState (Some c) s' (ms_caps st)) else None
    | [] => None
    end
  | Rep true lo p => rep_greedy p k (ms_caps st) lo (ms_prev st) (ms_rest st)
  | Rep false lo p => rep_lazy p k (ms_caps st) lo (ms_prev st) (ms_rest st)
  | Opt r1 => match run r1 k st with Some st' => Some st' | None => k st end
  | Cat r1 r2 => run r1 (run r2 k) st
  | Alt r1 r2 =>
    match run r1 k st with Some st' => Some st' | None => run r2 k st end
  | Grp i r1 =>
    run r1 (fun st' =>
              k (MState (ms_prev st') (ms_rest st')
                   ((i, taken (ms_rest st) (ms_rest st')) :: ms_caps st'))) st
  | Bol => match ms_prev st with None => k st | Some _ => None end
  | Eol ml => if at_eol ml (ms_rest st) then k st else None
  | Bnd w =>
    if xorb (wordp w (ms_prev st)) (wordp w (head (ms_rest st)))
    then k st else None
  | Ahead r1 => match run r1 Some st with Some _ => k st | None => None end
  end.

(** One match attempt at a position. *)
Definition match_at (r : regex) (prev : option char) (s : str)
    : option mstate :=
  run r Some (MState prev s []).

(** The text of group [i] of a match ([''] when the group took no part). *)
Fixpoint group (i : nat) (caps : list (nat * str)) : str :=
  match caps with
  | [] => []
  | (j, g) :: caps' => if Nat.eqb i j then g else group i caps'
  end.

(** A piece of a scanned text: a character no match covers, or a match
    with its text and its groups. *)
Inductive piece :=
| Lit (c : char)
| Hit (whole : str) (caps : list (nat * str)).

(** The scan shared by [re.sub], [re.findall] and [re.search]: the text cut
    into pieces, each attempt starting where the last match ended; [skip]
    counts the characters of the last match still to pass.  No pattern of
    the source matches the empty string ([patterns_consuming],
    [pieces_hit_nonempty]); an empty match would be recorded and the scan
    moved one character on. *)

Fixpoint pieces (r : regex) (skip : nat) (prev : option char) (s : str)
    : list piece :=
  match skip with
  | S n => match s with c :: s' => pieces r n (Some c) s' | [] => [] end
  | O =>
    match match_at r prev s with
    | Some st =>
      let whole := taken s (ms_rest st) in
      Hit whole (ms_caps st) ::
        match s with
        | c :: s' =>
          match whole with
          | [] => Lit c :: pieces r 0 (Some c) s'
          | _ :: w => pieces r (length w) (Some c) s'
          end
        | [] => []
        end
    | None =>
      match s with
      | c :: s' => Lit c :: pieces r 0 (Some c) s'
      | [] => []
      end
    end
  end.

(** [re.match(r, s)]. *)
Definition re_match (r : regex) (s : str) : option mstate := match_at r None s.

(** [re.search(r, s)], as a truth value: the scan has a match. *)
Definition has_hit (ps : list piece) : bool :=
  existsb (fun p => match p with Hit _ _ => true | Lit _ => false end) ps.

Definition re_search (r : regex) (s : str) : bool :=
  has_hit (pieces r 0 None s).

(** [re.sub(r, repl, s)] for a replacement without group references: the
    text rebuilt from the pieces, the replacement in place of each match. *)
Definition rebuild (repl : str) (ps : list piece) : str :=
  flat_map (fun p => match p with Lit c => [c] | Hit _ _ => repl end) ps.

Definition re_sub (r : regex) (repl : str) (s : str) : str :=
  rebuild repl (pieces r 0 None s).

(** [re.findall(r, s)] for a pattern without groups, and for one with three. *)
Definition re_findall (r : regex) (s : str) : list str :=
  flat_map (fun p => match p with Lit _ => [] | Hit w _ => [w] end)
    (pieces r 0 None s).

Definition re_findall3 (r : regex) (s : str) : list (str * str * str) :=
  flat_map (fun p => match p with
                     | Lit _ => []
                     | Hit _ caps => [(group 1 caps, group 2 caps, group 3 caps)]
                     end)
    (pieces r 0 None s).

Declare Scope regex_scope.
Delimit Scope regex_scope with regex.
Infix ">>" := Cat (at level 60, right associativity) : regex_scope.
Local Open Scope regex_scope.

Definition star (p : char -> bool) : regex := Rep true 0 p.
Definition plus (p : char -> bool) : regex := Rep true 1 p.

(** ** String methods *)

(** [s.split(d)] for a one-character separator. *)
Fixpoint split_on (d : char) (s : str) : list str :=
  match s with
  | [] => [[]]
  | c :: s' =>
    if c =? d then [] :: split_on d s'
    else match split_on d s' with
         | w :: ws => (c :: w) :: ws
         | [] => [[c]]
         end
  end.

(** [s.split(d, n)]: at most [n] cuts. *)
Fixpoint split_max (d : char) (n : nat) (s : str) : list str :=
  match n with
  | O => [s]
  | S n' =>
    match s with
    | [] => [[]]
    | c :: s' =>
      if c =? d then [] :: split_max d n' s'
      else match split_max d n s' with
           | w :: ws => (c :: w) :: ws
           | [] => [[c]]
           end
    end
  end.

(** [s.strip()]. *)
Fixpoint lstrip (s : str) : str :=
  match s with
  | c :: s' => if isspace c then lstrip s' else s
  | [] => []
  end.

Definition rstrip (s : str) : str := rev (lstrip (rev s)).
Definition strip (s : str) : str := rstrip (lstrip s).

Definition cons_word (c : char) (ws : list str) : list str :=
  match ws with
  | w :: ws' => (c :: w) :: ws'
  | [] => [[c]]
  end.

(** [s.split()]: the maximal runs of characters that are not whitespace. *)
Fixpoint split_ws (s : str) : list str :=
  match s with
  | [] => []
  | c :: s' =>
    if isspace c then split_ws s'
    else match s' with
         | c' :: _ =>
           if isspace c' then [c] :: split_ws s'
           else cons_word c (split_ws s')
         | [] => [[c]]
         end
  end.

(** [sep.join(ws)]. *)
Fixpoint join (sep : str) (ws : list str) : str :=
  match ws with
  | [] => []
  | w :: ws' =>
    match ws' with
    | [] => w
    | _ :: _ => w ++ sep ++ join sep ws'
    end
  end.

Definition startswith (c : char) (s : str) : bool :=
  match s with
  | c' :: _ => c' =? c
  | [] => false
  end.

(** Truth value of a string or a list: not empty. *)
Definition nonempty {A} (l : list A) : bool :=
  match l with [] => false | _ :: _ => true end.

(** ** Entries *)

Record VocabItem := mkVocabItem {
  number : Z;
  word : str;
  meaning : str;
  pos : option str
}.

(** [VocabItem(number=.., word=.., meaning=..)]: [pos] keeps its default. *)
Definition VocabItem3 (n : Z) (w m : str) : VocabItem := mkVocabItem n w m None.

(** [sorted(l, key=...)]: Python's sort is stable; an insertion sort that
    puts an element before the first one whose key is not smaller. *)
Section Sorted.
Context {A : Type} (key : A -> Z).

Fixpoint insert_sorted (x : A) (l : list A) : list A :=
  match l with
  | [] => [x]
  | y :: l' =>
    if key x <=? key y then x :: l else y :: insert_sorted x l'
  end.

Fixpoint sorted (l : list A) : list A :=
  match l with
  | [] => []
  | x :: l' => insert_sorted x (sorted l')
  end.
End Sorted.

(** [int(s)]: blanks around, an optional sign, decimal digits with single
    underscores between them.  The blanks of [int] are those of
    [str.isspace] but U+001C .. U+001F.  Integers are unbounded; the bound
    that a setting of recent interpreters puts on the number of digits of
    a conversion is left out. *)
Section PyInt.
Context `{UnicodeData}.

Definition int_space (c : char) : bool := isspace c && negb (in_range 28 31 c).

Fixpoint lstrip_int (s : str) : str :=
  match s with
  | c :: s' => if int_space c then lstrip_int s' else s
  | [] => []
  end.

(** The digits after the first one: [acc] is the value so far, [us]
    tells that the last character was an underscore. *)
Fixpoint int_digits (acc : Z) (us : bool) (s : str) : option Z :=
  match s with
  | [] => if us then None else Some acc
  | c :: s' =>
    match decimal_value c with
    | Some d => int_digits (acc * 10 + d) false s'
    | None =>
      if (c =? 95) && negb us then int_digits acc true s' else None
    end
  end.

Definition int_unsigned (s : str) : option Z :=
  match s with
  | c :: s' =>
    match decimal_value c with
    | Some d => int_digits d false s'
    | None => None
    end
  | [] => None
  end.

Definition py_int (s : str) : option Z :=
  match rev (lstrip_int (rev (lstrip_int s))) with
  | c :: s' =>
    if c =? 45 then Z.opp <$> int_unsigned s'
    else if c =? 43 then int_unsigned s'
    else int_unsigned (c :: s')
  | [] => None
  end.

(** [int(g)] for a group [g] that matched [\d+]: the value of its
    digits.  [int] does not fail on such a group and gives this value
    ([py_int_digits], [parser_numbers_convert]). *)
Definition int_of_digits (s : str) : Z :=
  fold_left (fun acc c => acc * 10 + default 0 (decimal_value c)) s 0.
End PyInt.

(** ** The parsers *)

Section Parsers.
Context `{UnicodeData}.

(** [\d+] *)
Definition digits : regex := plus is_decimal.

(** [[가-힣]] *)
Definition re_hangul : regex := Cls is_hangul.

(** [^ [avn] \. \s*] *)
Definition re_lead_pos : regex :=
  Bol >> Cls is_pos_tag >> Cls is_dot >> star isspace.

(** [\s+ [avn] \. \s*] *)
Definition re_mid_pos : regex :=
  plus isspace >> Cls is_pos_tag >> Cls is_dot >> star isspace.

(** *** [parse_ocr_vocab_text] *)

(** [^ (\d+) \s* [O□☐\[\]oO]? \s* ( [a-zA-Z] [a-zA-Z\-]* )]; here and below a pattern is written with blanks between its parts. *)
Definition re_ocr_head : regex :=
  Bol >> Grp 1 digits >> star isspace >> Opt (Cls is_box_ocr)
  >> star isspace >> Grp 2 (Cls is_letter >> star is_word_tail).

(** The three statements that clean a meaning: the leading tag goes, a
    tag after blanks becomes a comma and a space, blanks are collapsed. *)
Definition ocr_meaning (raw : str) : str :=
  let meaning := re_sub re_lead_pos [] raw in
  let meaning := re_sub re_mid_pos [COMMA; SP] meaning in
  join [SP] (split_ws meaning).

(** [if word and len(word) > 1 and meaning: vocab_list.append(...)] *)
Definition ocr_emit (n : Z) (w m : str) : list VocabItem :=
  if nonempty w && (1 <? length w)%nat && nonempty m
  then [VocabItem3 n w m] else [].

(** One turn of the loop at line [lines[i]], [next] being [lines[i + 1]]
    when there is one: the entries appended, and whether the turn took
    the next line too ([i += 1] inside the turn). *)
Definition ocr_step (raw : str) (next : option str)
    : list VocabItem * bool :=
  let line := strip raw in
  match re_match re_ocr_head line with
  | Some st =>
    let n := int_of_digits (group 1 (ms_caps st)) in
    let w := strip (group 2 (ms_caps st)) in
    let '(m, took) :=
      match next with
      | Some raw_next =>
        let next_line := strip raw_next in
        if re_search re_hangul next_line
        then (ocr_meaning next_line, true)
        else ([], false)
      | None => ([], false)
      end in
    let m :=
      if nonempty m then m
      else
        let rest := strip (ms_rest st) in
        if re_search re_hangul rest then ocr_meaning rest else m in
    (ocr_emit n w m, took)
  | None => ([], false)
  end.

Fixpoint ocr_loop (lines : list str) : list VocabItem :=
  match lines with
  | [] => []
  | line :: rest =>
    match rest with
    | [] => fst (ocr_step line None)
    | next :: rest' =>
      let '(items, took) := ocr_step line (Some next) in
      items ++ (if took then ocr_loop rest' else ocr_loop rest)
    end
  end.

Definition parse_ocr_vocab_text (text : str) : list VocabItem :=
  ocr_loop (split_on NL text).

(** *** [parse_vocab_table] *)

(** [(\d+) \s* [□☐\[\]] \s* ([a-zA-Z\-]+) \s+ (.+?)
    (?= \d+ \s* [□☐\[\]] | $ )], with DOTALL *)
Definition re_table : regex :=
  Grp 1 digits >> star isspace >> Cls is_box >> star isspace
  >> Grp 2 (plus is_word_tail) >> plus isspace
  >> Grp 3 (Rep false 1 any_char)
  >> Ahead (Alt (digits >> star isspace >> Cls is_box) (Eol false)).

(** [\b [avn] (?:d)? \.? \s*] *)
Definition re_table_pos : regex :=
  Bnd is_word >> Cls is_pos_tag >> Opt (Cls is_d) >> Opt (Cls is_dot)
  >> star isspace.

(** [\b ( [avn] (?:d)? ) \. \s*] *)
Definition re_table_pos_find : regex :=
  Bnd is_word >> Grp 1 (Cls is_pos_tag >> Opt (Cls is_d)) >> Cls is_dot
  >> star isspace.

(** [re.findall] for a pattern with one group. *)
Definition re_findall1 (r : regex) (s : str) : list str :=
  flat_map (fun p => match p with
                     | Lit _ => []
                     | Hit _ caps => [group 1 caps]
                     end)
    (pieces r 0 None s).

Definition table_entry (m : str * str * str) : list VocabItem :=
  let '(g1, g2, g3) := m in
  let n := int_of_digits g1 in
  let w := strip g2 in
  let meaning_raw := strip g3 in
  let meaning_clean := re_sub re_table_pos [] meaning_raw in
  let meaning_clean := join [SP] (split_ws meaning_clean) in
  let meaning_clean := strip meaning_clean in
  let pos_matches := re_findall1 re_table_pos_find meaning_raw in
  let p :=
    if nonempty pos_matches then Some (join [COMMA; SP] pos_matches)
    else None in
  if nonempty w && nonempty meaning_clean
  then [mkVocabItem n w meaning_clean p] else [].

Definition parse_vocab_table (text : str) : list VocabItem :=
  flat_map table_entry (re_findall3 re_table text).

(** *** [parse_vocab_simple] *)

(** [(\d+) \s* [□☐\[\]O]? \s*
     ( [a-zA-Z] [a-zA-Z\-]* (?: \s* \( [^)]+ \) )? )
     \s* \n \s* ( [avn] \.? \s* [가-힣] .*? ) (?= \n \d+ | \n* $ )],
    with MULTILINE *)
Definition re_two_line : regex :=
  Grp 1 digits >> star isspace >> Opt (Cls is_box_simple) >> star isspace
  >> Grp 2 (Cls is_letter >> star is_word_tail
            >> Opt (star isspace >> Cls is_lparen >> plus not_rparen
                    >> Cls is_rparen))
  >> star isspace >> Cls is_newline >> star isspace
  >> Grp 3 (Cls is_pos_tag >> Opt (Cls is_dot) >> star isspace
            >> Cls is_hangul >> Rep false 0 not_newline)
  >> Ahead (Alt (Cls is_newline >> digits) (star is_newline >> Eol true)).

(** [(\d+) \s* [□☐\[\]O]? \s*
     ( [a-zA-Z] [a-zA-Z\-]* (?: \s* \( [^)]+ \) )? )
     \s+ ( [avn] \. \s* [가-힣] [^\n]* )] *)
Definition re_one_line : regex :=
  Grp 1 digits >> star isspace >> Opt (Cls is_box_simple) >> star isspace
  >> Grp 2 (Cls is_letter >> star is_word_tail
            >> Opt (star isspace >> Cls is_lparen >> plus not_rparen
                    >> Cls is_rparen))
  >> plus isspace
  >> Grp 3 (Cls is_pos_tag >> Cls is_dot >> star isspace
            >> Cls is_hangul >> star not_newline).

(** [^ (\d+) \s* [□☐\[\]O]? \s* ( [a-zA-Z] [a-zA-Z\-]* ) \s+ (.+) $] *)
Definition re_full : regex :=
  Bol >> Grp 1 digits >> star isspace >> Opt (Cls is_box_simple)
  >> star isspace >> Grp 2 (Cls is_letter >> star is_word_tail)
  >> plus isspace >> Grp 3 (plus not_newline) >> Eol false.

(** [^ (\d+) \s* [□☐\[\]O]? \s* ( [a-zA-Z] [a-zA-Z\-]* ) $] *)
Definition re_num_word : regex :=
  Bol >> Grp 1 digits >> star isspace >> Opt (Cls is_box_simple)
  >> star isspace >> Grp 2 (Cls is_letter >> star is_word_tail)
  >> Eol false.

(** [^ [a-zA-Z] [a-zA-Z\-]* $] *)
Definition re_bare_word : regex :=
  Bol >> Cls is_letter >> star is_word_tail >> Eol false.

(** The body of the loops over the matches of the first two patterns. *)
Definition simple_entry (m : str * str * str) : list VocabItem :=
  let '(g1, g2, g3) := m in
  let n := int_of_digits g1 in
  let w := strip g2 in
  let meaning := strip g3 in
  let meaning := re_sub re_lead_pos [] meaning in
  if nonempty w && nonempty meaning then [VocabItem3 n w meaning] else [].

(** The placeholder of an entry without a meaning. *)
Definition PLACEHOLDER : str :=
  Eval vm_compute in lit "[뜻 입력 필요]".

(** [save_item], on the list it appends to. *)
Definition save_item (vocab_list : list VocabItem) (n : option Z)
    (w m : str) : list VocabItem :=
  let n :=
    match n with
    | None => Z.of_nat (length vocab_list) + 1
    | Some n => n
    end in
  let m := if nonempty m then m else PLACEHOLDER in
  vocab_list ++ [VocabItem3 n w m].

(** The variables the scanning loop updates. *)
Record scan_state := ScanState {
  current_number : option Z;
  current_word : option str;
  vocab_list : list VocabItem
}.

(** [if current_word:] *)
Definition pending (st : scan_state) : option str :=
  match current_word st with
  | Some w => if nonempty w then Some w else None
  | None => None
  end.

(** [if current_word: save_item(current_number, current_word, "")] *)
Definition flush (st : scan_state) : list VocabItem :=
  match pending st with
  | Some w => save_item (vocab_list st) (current_number st) w []
  | None => vocab_list st
  end.

(** The branch of a line that is a number and a word only, and after it
    the branches of a meaning line and of a bare word. *)
Definition scan_rest (st : scan_state) (line : str) : scan_state :=
  match re_match re_num_word line with
  | Some mt =>
    ScanState (Some (int_of_digits (group 1 (ms_caps mt))))
      (Some (strip (group 2 (ms_caps mt)))) (flush st)
  | None =>
    match (if re_search re_hangul line then pending st else None) with
    | Some w =>
      let meaning := re_sub re_lead_pos [] line in
      let meaning := join [SP] (split_ws meaning) in
      ScanState None None
        (save_item (vocab_list st) (current_number st) w meaning)
    | None =>
      match re_match re_bare_word line with
      | Some _ =>
        ScanState (current_number st) (Some (strip line)) (flush st)
      | None => st
      end
    end
  end.

(** One turn of the loop over the lines. *)
Definition scan_line (st : scan_state) (line : str) : scan_state :=
  match re_match re_full line with
  | Some mt =>
    let n := int_of_digits (group 1 (ms_caps mt)) in
    let w := strip (group 2 (ms_caps mt)) in
    let meaning := strip (group 3 (ms_caps mt)) in
    let meaning := re_sub re_lead_pos [] meaning in
    if re_search re_hangul meaning
    then ScanState None None (save_item (vocab_list st) (Some n) w meaning)
    else scan_rest st line
  | None => scan_rest st line
  end.

(** [[line.strip() for line in text.split('\n') if line.strip()]] *)
Definition scan_lines (text : str) : list str :=
  flat_map (fun line => if nonempty (strip line) then [strip line] else [])
    (split_on NL text).

(** The third method: the loop and the last flush. *)
Definition scan (vocab_list0 : list VocabItem) (text : str)
    : list VocabItem :=
  flush (fold_left scan_line (scan_lines text)
           (ScanState None None vocab_list0)).

(** The methods, in the order of the source. *)
Inductive strategy := TwoLine | OneLine | Scanner.

(** [parse_vocab_simple], with the methods it went through. *)
Definition parse_vocab_simple_run (text : str)
    : list strategy * list VocabItem :=
  let vocab_list := [] in
  let pattern_two_line := re_findall3 re_two_line text in
  let vocab_list :=
    if nonempty pattern_two_line
    then vocab_list ++ flat_map simple_entry pattern_two_line
    else vocab_list in
  if nonempty pattern_two_line && nonempty vocab_list
  then ([TwoLine], sorted number vocab_list)
  else
    let pattern_one_line := re_findall3 re_one_line text in
    let vocab_list :=
      if nonempty pattern_one_line
      then vocab_list ++ flat_map simple_entry pattern_one_line
      else vocab_list in
    if nonempty pattern_one_line && nonempty vocab_list
    then ([TwoLine; OneLine], sorted number vocab_list)
    else ([TwoLine; OneLine; Scanner], scan vocab_list text).

Definition parse_vocab_simple (text : str) : list VocabItem :=
  snd (parse_vocab_simple_run text).

(** *** [load_vocab_from_text], on the text of the file *)

(** [if word and meaning: vocab_list.append(...)] *)
Definition csv_emit (n : Z) (w m : str) : list VocabItem :=
  if nonempty w && nonempty m then [VocabItem3 n w m] else [].

(** One turn of the loop, for the line of index [i] (from 0): the entries
    it appends. *)
Definition csv_line (i : nat) (raw : str) : list VocabItem :=
  let line := strip raw in
  if negb (nonempty line) || startswith HASH line then []
  else
    match split_max COMMA 2 line with
    | p0 :: p1 :: p2 :: _ =>
      let n :=
        match py_int p0 with
        | Some n => n
        | None => Z.of_nat i + 1
        end in
      csv_emit n (strip p1) (strip p2)
    | [p0; p1] => csv_emit (Z.of_nat i + 1) (strip p0) (strip p1)
    | _ => []
    end.

(** [for i, line in enumerate(lines)], from index [i] on. *)
Fixpoint csv_loop (i : nat) (lines : list str) (vocab_list : list VocabItem)
    : list VocabItem :=
  match lines with
  | [] => vocab_list
  | line :: rest => csv_loop (S i) rest (vocab_list ++ csv_line i line)
  end.

(** The second part of the loader, which runs when the first found
    nothing. *)
Definition csv_fallback (text : str) : list VocabItem :=
  csv_loop 0 (split_on NL text) [].

Definition load_vocab_from_text (text : str) : list VocabItem :=
  let vocab_list := parse_vocab_simple text in
  if nonempty vocab_list then vocab_list else csv_fallback text.
End Parsers.

(** ** The merge of [extract_vocab_with_ocr_table]

    The lists of the pages and halves are appended in call order
    ([vocab_list.extend(items)]), the whole is sorted by number, and an
    entry is kept when its number was not seen before. *)
Definition dedup_step (acc : gset Z * list VocabItem) (item : VocabItem)
    : gset Z * list VocabItem :=
  let '(seen, unique_list) := acc in
  if decide (number item ∈ seen) then acc
  else (seen ∪ {[number item]}, unique_list ++ [item]).

Definition merge (lists : list (list VocabItem)) : list VocabItem :=
  let vocab_list := concat lists in
  let vocab_list := sorted number vocab_list in
  snd (fold_left dedup_step vocab_list (∅, [])).

(** ** Orientation

    The recognition engine and the image library are outside the
    repository: an interface.  A call that raises returns [None]. *)
Class OcrEngine := {
  Image : Type;
  (** the flag [HAS_OCR], set when the module is loaded *)
  HAS_OCR : bool;
  (** [img.rotate(angle, expand=e)] *)
  rotate : Z -> bool -> Image -> Image;
  (** [img.copy()] followed by [thumbnail((800, 800))] *)
  thumbnail : Image -> Image;
  (** [pytesseract.image_to_osd]: the entry ['rotate'] of the dictionary it
      returns, when there is one *)
  image_to_osd : Image -> option (option Z);
  (** [pytesseract.image_to_string(img, lang='eng', config='--psm 6')] *)
  image_to_string : Image -> option str
}.

Section Orientation.
Context {U : UnicodeData} {E : OcrEngine}.

(** The calls to the engine, in order. *)
Inductive call :=
| CallOsd (img : Image)
| CallOcr (img : Image).

(** [\b [a-zA-Z]{2,} \b] *)
Definition re_english : regex :=
  Bnd is_word >> Rep true 2 is_letter >> Bnd is_word.

Definition english_words (text : str) : nat :=
  length (re_findall re_english text).

(** [english_words_rotated > english_words_original * 1.5], on rational
    numbers: the product by the float 1.5 is exact for a count below
    2^52, and Python compares an integer and a float exactly. *)
Definition exceeds_by_half (rotated original : nat) : bool :=
  negb (Qle_bool (inject_Z (Z.of_nat rotated))
          (inject_Z (Z.of_nat original) * (3 # 2))).

Definition detect_and_fix_orientation (img : Image) : list call * Image :=
  if negb HAS_OCR then ([], img)
  else
    match image_to_osd img with
    | Some osd =>
      let rotation := default 0 osd in
      ([CallOsd img],
       if negb (rotation =? 0) then rotate (- rotation) true img else img)
    | None =>
      let test_img := thumbnail img in
      match image_to_string test_img with
      | Some text_original =>
        let english_words_original := english_words text_original in
        let test_rotated := rotate 180 false test_img in
        match image_to_string test_rotated with
        | Some text_rotated =>
          let english_words_rotated := english_words text_rotated in
          ([CallOsd img; CallOcr test_img; CallOcr test_rotated],
           if exceeds_by_half english_words_rotated english_words_original
           then rotate 180 false img else img)
        | None => ([CallOsd img; CallOcr test_img; CallOcr test_rotated], img)
        end
      | None => ([CallOsd img; CallOcr test_img], img)
      end
    end.

(** The rotation of a page in [extract_vocab_with_ocr_table], whose
    parameter [rotate] is [rot]. *)
Definition rotate_page (rot : Z) (img : Image) : list call * Image :=
  if negb (rot =? 0) then ([], rotate (- rot) true img)
  else detect_and_fix_orientation img.
End Orientation.

(** ** Sample inputs *)

(** A database with nothing beyond the ranges written out. *)
#[local] Instance plain_unicode : UnicodeData :=
  {| uni_decimal := fun _ => None;
     uni_alnum := fun _ => false;
     uni_decimal_space := fun _ _ => eq_refl |}.

(** The lines ["51 □ empty"] and ["a. 비어 있는"]. *)
Definition sample_two_line : str :=
  join [NL] [lit "51 □ empty"; lit "a. 비어 있는"].

(** The sample of the docstring of [parse_vocab_table]. *)
Definition sample_senses : str := lit "51 □ empty a. 비어 있는 v. 비우다".

(** A bare word, then a complete record. *)
Definition sample_dropped : str :=
  join [NL] [lit "apple"; lit "12 banana 바나나"].

(** A record on one line, then a record on two: both of the first two
    patterns match, with different results. *)
Definition sample_conflict : str :=
  join [NL] [lit "1 cat n. 고양이"; lit "2 dog"; lit "n. 개"].

(** ** The cascade, as the specification words it *)

Section Cascade.
Context `{UnicodeData}.

Definition two_line_matcher (text : str) : list VocabItem :=
  sorted number (flat_map simple_entry (re_findall3 re_two_line text)).

Definition one_line_matcher (text : str) : list VocabItem :=
  sorted number (flat_map simple_entry (re_findall3 re_one_line text)).

Definition line_scanner (text : str) : list VocabItem := scan [] text.

(** The first strategy with a non-empty result, and the strategies tried
    up to it. *)
Definition cascade (text : str) : list strategy * list VocabItem :=
  if nonempty (two_line_matcher text)
  then ([TwoLine], two_line_matcher text)
  else if nonempty (one_line_matcher text)
  then ([TwoLine; OneLine], one_line_matcher text)
  else ([TwoLine; OneLine; Scanner], line_scanner text).
End Cascade.

(** ** Notions for the statements *)

(** A page is its angle to the upright position; the engine reads words on
    an upright page only, and has no orientation detection. *)
Definition angle_engine : OcrEngine :=
  {| Image := Z;
     HAS_OCR := true;
     rotate := fun a _ img => (img + a) mod 360;
     thumbnail := fun img => img;
     image_to_osd := fun _ => None;
     image_to_string := fun img =>
       Some (if img =? 0 then lit "one two three" else lit "! ~ ;") |}.

(** The same pages, with an engine whose orientation detection works. *)
Definition osd_engine : OcrEngine :=
  {| Image := Z;
     HAS_OCR := true;
     rotate := fun a _ img => (img + a) mod 360;
     thumbnail := fun img => img;
     image_to_osd := fun img => Some (Some img);
     image_to_string := fun _ => None |}.

(** A file of four lines: a number that is no integer, a comment, an empty
    line, a line of two fields. *)
Definition sample_csv : str :=
  join [NL] [lit "x,apple,사과"; lit "# fruit"; lit ""; lit "banana,바나나"].

(** The order of a list sorted by a key. *)
Definition key_le {A} (key : A -> Z) (x y : A) : Prop := key x <= key y.

(** The entries the loop of the merge keeps, from a set of numbers seen. *)
Fixpoint keep_first (seen : gset Z) (l : list VocabItem) : list VocabItem :=
  match l with
  | [] => []
  | item :: l' =>
    if decide (number item ∈ seen) then keep_first seen l'
    else item :: keep_first (seen ∪ {[number item]}) l'
  end.

(** The character before a position that follows the text [w]. *)
Definition last_char (prev : option char) (w : str) : option char :=
  match last w with
  | Some c => Some c
  | None => prev
  end.

(** The text does not start with a character of the class [p]. *)
Definition starts_without (p : char -> bool) (s : str) : Prop :=
  match s with
  | c :: _ => p c = false
  | [] => True
  end.

(** A word of [split]: not empty, without whitespace. *)
Definition word_token (w : str) : Prop :=
  w <> [] /\ Forall (fun c => isspace c = false) w.

(** What follows the blanks in [re_mid_pos]: the tag, the dot, blanks. *)
Definition after_blanks : mstate -> option mstate :=
  run (Cls is_pos_tag) (run (Cls is_dot) (run (star isspace) Some)).

(** A text without the letters of the tags that does not end with a
    blank. *)
Definition tagless (u : str) : Prop :=
  Forall (fun c => is_pos_tag c = false) u
  /\ match last u with Some c => isspace c = false | None => True end.

(** The groups a pattern can set. *)
Fixpoint captures (r : regex) : list nat :=
  match r with
  | Opt r1 | Ahead r1 => captures r1
  | Cat r1 r2 | Alt r1 r2 => captures r1 ++ captures r2
  | Grp i r1 => i :: captures r1
  | _ => []
  end.

(** A pattern each match of which takes a character at least. *)
Fixpoint consuming (r : regex) : bool :=
  match r with
  | Cls _ => true
  | Rep _ lo _ => negb (Nat.eqb lo 0)
  | Cat r1 r2 => consuming r1 || consuming r2
  | Alt r1 r2 => consuming r1 && consuming r2
  | Grp _ r1 => consuming r1
  | _ => false
  end.

(** A string of decimal digits that is not empty. *)
Definition digit_string `{UnicodeData} (g : str) : Prop :=
  g <> [] /\ Forall (fun c => is_decimal c = true) g.

(** ** The callers of the parsers *)

(** *** [parse_text_to_vocab] of [streamlit_app.py] *)

Section TextToVocab.
Context `{UnicodeData}.

(** One turn of the second loop: the list after the line [raw].  A
    number that is absent or no integer is the place the entry takes in
    the list. *)
Definition text_csv_step (vocab_list : list VocabItem) (raw : str)
    : list VocabItem :=
  let line := strip raw in
  if negb (nonempty line) || startswith HASH line then vocab_list
  else
    match split_max COMMA 2 line with
    | p0 :: p1 :: p2 :: _ =>
      let n :=
        match py_int (strip p0) with
        | Some n => n
        | None => Z.of_nat (length vocab_list) + 1
        end in
      vocab_list ++ csv_emit n (strip p1) (strip p2)
    | [p0; p1] =>
      vocab_list
      ++ csv_emit (Z.of_nat (length vocab_list) + 1) (strip p0) (strip p1)
    | _ => vocab_list
    end.

Definition text_csv_fallback (text : str) : list VocabItem :=
  fold_left text_csv_step (split_on NL text) [].

Definition parse_text_to_vocab (text : str) : list VocabItem :=
  let vocab_list := parse_vocab_simple text in
  if nonempty vocab_list then vocab_list else text_csv_fallback text.
End TextToVocab.

(** *** [extract_vocab_with_ocr_table]

    The document and the image library are outside the repository: the
    function is given the images of the pages, as [page.get_pixmap] and
    [Image.open] render them, and an interface for what it does to them.
    The recognition of a text can raise, and then returns [None].  The
    function is taken without a progress callback. *)
Class PageTools (E : OcrEngine) := {
  (** [convert('L')], the threshold at 180 and [convert('L')] *)
  binarize : Image -> Image;
  (** [img.size]: the width and the height *)
  size : Image -> Z * Z;
  (** [img.crop((left, upper, right, lower))] *)
  crop : Z * Z * Z * Z -> Image -> Image;
  (** [pytesseract.image_to_string(img, lang='eng+kor', config='--psm 6')] *)
  image_to_string_kor : Image -> option str
}.

(** What the function raises. *)
Inductive failure :=
| ImportError
| EngineError.

Section OcrTable.
Context {U : UnicodeData} {E : OcrEngine} {T : PageTools E}.

(** [[(0, width//2), (width//2, width)]] *)
Definition halves (width : Z) : list (Z * Z) :=
  [(0, width / 2); (width / 2, width)].

(** The inner loop: the list after the halves [hs] of the page [img]. *)
Fixpoint ocr_halves (img : Image) (height : Z) (hs : list (Z * Z))
    (vocab_list : list VocabItem) : option (list VocabItem) :=
  match hs with
  | [] => Some vocab_list
  | (left_, right_) :: rest =>
    let half_img := crop (left_, 0, right_, height) img in
    match image_to_string_kor half_img with
    | Some text =>
      let items := parse_ocr_vocab_text text in
      ocr_halves img height rest (vocab_list ++ items)
    | None => None
    end
  end.

(** The outer loop: the list after the pages [pages]. *)
Fixpoint ocr_pages (rot : Z) (pages : list Image)
    (vocab_list : list VocabItem) : option (list VocabItem) :=
  match pages with
  | [] => Some vocab_list
  | img :: rest =>
    let img := snd (rotate_page rot img) in
    let img := binarize img in
    let '(width, height) := size img in
    match ocr_halves img height (halves width) vocab_list with
    | Some vocab_list => ocr_pages rot rest vocab_list
    | None => None
    end
  end.

Definition extract_vocab_with_ocr_table (pages : list Image) (rot : Z)
    : failure + list VocabItem :=
  if negb HAS_OCR then inl ImportError
  else
    match ocr_pages rot pages [] with
    | Some vocab_list => inr (merge [vocab_list])
    | None => inl EngineError
    end.
End OcrTable.

(** Pages of two columns, given by the text of each column; the engine
    reads a column as it is. *)
Definition column_engine : OcrEngine :=
  {| Image := str * str;
     HAS_OCR := true;
     rotate := fun _ _ img => img;
     thumbnail := fun img => img;
     image_to_osd := fun _ => Some None;
     image_to_string := fun img => Some (fst img) |}.

Definition column_tools : PageTools column_engine :=
  {| binarize := fun img => img;
     size := fun _ => (2, 1);
     crop := fun '(left_, _, _, _) (img : @Image column_engine) =>
       if left_ =? 0 then (fst img, []) else (snd img, []);
     image_to_string_kor := fun img => Some (fst img) |}.

(** Two pages: the entries 2 and 1, then the entry 2 once more. *)
Definition sample_pages : list (@Image column_engine) :=
  [(join [NL] [lit "2 pear"; lit "배"], join [NL] [lit "1 apple"; lit "사과"]);
   (join [NL] [lit "2 peach"; lit "복숭아"], [])].

(** ** The audio of a list: [tts_generator.py]

    The speech service, the audio library and the file system are outside
    the repository: an interface.  A file is what a path holds.  A call
    that writes a file gives the file it leaves at the path, if it leaves
    one, and whether it returned ([true]) or raised; another call that
    raises returns [None]. *)
Class AudioTools := {
  (** the flags [HAS_EDGE_TTS] and [HAS_PYDUB], set when the module is
      loaded *)
  HAS_EDGE_TTS : bool;
  HAS_PYDUB : bool;
  AudioSegment : Type;
  File : Type;
  (** [os.path.join] *)
  path_join : str -> str -> str;
  (** [edge_tts.Communicate(text, voice).save] *)
  communicate : str -> str -> option File * bool;
  (** [AudioSegment.silent(duration=int(duration * 1000))], from the value
      of the float [duration] *)
  silent : Q -> option AudioSegment;
  (** [AudioSegment.empty()] and [+] *)
  audio_empty : AudioSegment;
  audio_add : AudioSegment -> AudioSegment -> AudioSegment;
  (** [AudioSegment.from_mp3], on the file of a path *)
  from_mp3 : File -> option AudioSegment;
  (** [export(path, format="mp3")] *)
  export : AudioSegment -> option File * bool
}.

Record TTSConfig := mkTTSConfig {
  english_voice : str;
  korean_voice : str;
  english_repeat : Z;
  meaning_repeat : Z;
  pause_between_words : Q;
  pause_between_repeat : Q;
  include_pos : bool
}.

(** [TTSConfig()] *)
Definition default_config : TTSConfig :=
  {| english_voice := lit "en-US-AriaNeural";
     korean_voice := lit "ko-KR-SunHiNeural";
     english_repeat := 2;
     meaning_repeat := 1;
     pause_between_words := 2;
     pause_between_repeat := 1 # 2;
     include_pos := false |}.

(** The decimal digits of [n], the last one last. *)
Fixpoint decimal (fuel n : nat) : str :=
  match fuel with
  | O => []
  | S fuel =>
    (if (n <? 10)%nat then [] else decimal fuel (n / 10))
    ++ [48 + Z.of_nat (n mod 10)]
  end.

(** [f"{i:04d}"], for an index: the digits, with zeros before them up to
    four characters. *)
Definition format_04d (i : nat) : str :=
  let s := decimal (S i) i in
  repeat 48 (4 - length s) ++ s.

Definition eng_name (i : nat) : str := format_04d i ++ lit "_eng.mp3".
Definition kor_name (i : nat) : str := format_04d i ++ lit "_kor.mp3".

(** The text read for the meaning of [item]. *)
Definition meaning_text (config : TTSConfig) (item : VocabItem) : str :=
  match pos item with
  | Some p =>
    if include_pos config && nonempty p then p ++ lit ". " ++ meaning item
    else meaning item
  | None => meaning item
  end.

Section Audio.
Context {A : AudioTools}.

(** The files, by path. *)
Definition files : Type := gmap str File.

(** The files after a call that leaves [f] at the path [output_path]. *)
Definition written (fs : files) (output_path : str) (f : option File)
    : files :=
  match f with
  | Some f => <[output_path := f]> fs
  | None => fs
  end.

Definition generate_speech_edge (fs : files) (text voice output_path : str)
    : files * bool :=
  let '(f, ok) := communicate text voice in
  (written fs output_path f, ok).

Definition generate_silence (fs : files) (duration : Q) (output_path : str)
    : files * bool :=
  if negb HAS_PYDUB then (fs, false)
  else
    match silent duration with
    | Some silence =>
      let '(f, ok) := export silence in
      (written fs output_path f, ok)
    | None => (fs, false)
    end.

(** The loop of [concatenate_audio_files]: a path that holds no file is
    skipped. *)
Fixpoint combine_files (fs : files) (file_list : list str)
    (combined : AudioSegment) : option AudioSegment :=
  match file_list with
  | [] => Some combined
  | audio_file :: rest =>
    match fs !! audio_file with
    | Some f =>
      match from_mp3 f with
      | Some segment => combine_files fs rest (audio_add combined segment)
      | None => None
      end
    | None => combine_files fs rest combined
    end
  end.

Definition concatenate_audio_files (fs : files) (file_list : list str)
    (output_path : str) : files * bool :=
  if negb (nonempty file_list) then (fs, false)
  else if negb HAS_PYDUB then (fs, false)
  else
    match combine_files fs file_list audio_empty with
    | Some combined =>
      let '(f, ok) := export combined in
      (written fs output_path f, ok)
    | None => (fs, false)
    end.

(** One turn of the loop of [generate_vocab_audio_async], for the item of
    index [i]; the results of the two calls are not looked at. *)
Definition item_step (temp_dir : str) (config : TTSConfig)
    (silence_between_words silence_between_repeat : str)
    (st : files * list str) (i : nat) (item : VocabItem)
    : files * list str :=
  let '(fs, audio_segments) := st in
  let eng_file := path_join temp_dir (eng_name i) in
  let fs :=
    fst (generate_speech_edge fs (word item) (english_voice config)
           eng_file) in
  let kor_file := path_join temp_dir (kor_name i) in
  let fs :=
    fst (generate_speech_edge fs (meaning_text config item)
           (korean_voice config) kor_file) in
  let audio_segments :=
    audio_segments
    ++ concat (repeat [eng_file; silence_between_repeat]
                 (Z.to_nat (english_repeat config))) in
  let audio_segments :=
    audio_segments
    ++ concat (repeat [kor_file; silence_between_repeat]
                 (Z.to_nat (meaning_repeat config))) in
  (fs, audio_segments ++ [silence_between_words]).

(** [for i, item in enumerate(vocab_list)], from index [i] on. *)
Fixpoint vocab_loop (temp_dir : str) (config : TTSConfig)
    (silence_between_words silence_between_repeat : str)
    (i : nat) (items : list VocabItem) (st : files * list str)
    : files * list str :=
  match items with
  | [] => st
  | item :: rest =>
    vocab_loop temp_dir config silence_between_words silence_between_repeat
      (S i) rest
      (item_step temp_dir config silence_between_words
         silence_between_repeat st i item)
  end.

(** The function up to the concatenation: the files it has written in the
    directory [temp_dir] and the list of the segments. *)
Definition synthesize (fs : files) (temp_dir : str)
    (vocab_list : list VocabItem) (config : TTSConfig)
    : files * list str :=
  let silence_between_words :=
    path_join temp_dir (lit "silence_words.mp3") in
  let silence_between_repeat :=
    path_join temp_dir (lit "silence_repeat.mp3") in
  let fs :=
    fst (generate_silence fs (pause_between_words config)
           silence_between_words) in
  let fs :=
    fst (generate_silence fs (pause_between_repeat config)
           silence_between_repeat) in
  vocab_loop temp_dir config silence_between_words silence_between_repeat
    0 vocab_list (fs, []).

(** [generate_vocab_audio_async], without a progress callback: the files
    before the directory [temp_dir] (of [tempfile.mkdtemp]) is removed,
    and the result. *)
Definition generate_vocab_audio_async (fs : files) (temp_dir : str)
    (vocab_list : list VocabItem) (output_path : str)
    (config : option TTSConfig) : files * bool :=
  if negb HAS_EDGE_TTS then (fs, false)
  else
    let config := default default_config config in
    let '(fs, audio_segments) := synthesize fs temp_dir vocab_list config in
    concatenate_audio_files fs audio_segments output_path.
End Audio.

(** A speech service that is down, with an audio library that works: an
    audio is its length, a file holds an audio. *)
Definition silent_tools : AudioTools :=
  {| HAS_EDGE_TTS := true;
     HAS_PYDUB := true;
     AudioSegment := Z;
     File := Z;
     path_join := fun d n => d ++ lit "/" ++ n;
     communicate := fun _ _ => (None, false);
     silent := fun d => Some (Qnum d * 1000 / Z.pos (Qden d))%Z;
     audio_empty := 0;
     audio_add := Z.add;
     from_mp3 := Some;
     export := fun a => (Some a, true) |}.

(** A speech service that works: a file holds the text it reads. *)
Definition text_tools : AudioTools :=
  {| HAS_EDGE_TTS := true;
     HAS_PYDUB := true;
     AudioSegment := list str;
     File := list str;
     path_join := fun d n => d ++ lit "/" ++ n;
     communicate := fun text _ => (Some [text], true);
     silent := fun _ => Some [];
     audio_empty := [];
     audio_add := @app str;
     from_mp3 := Some;
     export := fun a => (Some a, true) |}.

(** ** The answer of a vision model

    [extract_vocab_with_gemini_vision] and
    [extract_vocab_with_claude_vision] take the JSON text out of the
    answer by the same four lines. *)

(** [s.startswith(sep)] *)
Fixpoint starts_with (sep s : str) : bool :=
  match sep, s with
  | [], _ => true
  | a :: sep', c :: s' => (a =? c) && starts_with sep' s'
  | _ :: _, [] => false
  end.

(** [sep in s] *)
Fixpoint contains (sep s : str) : bool :=
  match s with
  | [] => starts_with sep []
  | _ :: s' => starts_with sep s || contains sep s'
  end.

(** [s.split(sep)] for a separator that is not empty: the occurrences are
    taken from the left and do not overlap; [skip] characters of one are
    still to pass. *)
Fixpoint split_sep (sep : str) (skip : nat) (s : str) : list str :=
  match s with
  | [] => [[]]
  | c :: s' =>
    match skip with
    | S n => split_sep sep n s'
    | O =>
      if starts_with sep s then [] :: split_sep sep (length sep - 1) s'
      else cons_word c (split_sep sep 0 s')
    end
  end.

Definition FENCE : str := Eval vm_compute in lit "```".
Definition FENCE_JSON : str := Eval vm_compute in lit "```json".

(** The text given to [json.loads], before it is stripped; an index out
    of range gives [None]. *)
Definition fenced_text (response_text : str) : option str :=
  if contains FENCE_JSON response_text then
    match split_sep FENCE_JSON 0 response_text !! 1%nat with
    | Some part => split_sep FENCE 0 part !! 0%nat
    | None => None
    end
  else if contains FENCE response_text then
    match split_sep FENCE 0 response_text !! 1%nat with
    | Some part => split_sep FENCE 0 part !! 0%nat
    | None => None
    end
  else Some response_text.

(** ** Notions for the further properties *)

(** The texts a pattern can take: the language of the expression, the
    conditions on the position ([^], [$], [\b], a lookahead) taking
    nothing. *)
Fixpoint lang (r : regex) (w : str) : Prop :=
  match r with
  | Cls p => exists c, w = [c] /\ p c = true
  | Rep _ lo p => Forall (fun c => p c = true) w /\ (lo <= length w)%nat
  | Opt r1 => w = [] \/ lang r1 w
  | Cat r1 r2 => exists w1 w2, w = w1 ++ w2 /\ lang r1 w1 /\ lang r2 w2
  | Alt r1 r2 => lang r1 w \/ lang r2 w
  | Grp _ r1 => lang r1 w
  | _ => w = []
  end.

(** A character of the class [q] occurs in the text. *)
Definition has_char (q : char -> bool) (s : str) : Prop :=
  exists c, In c s /\ q c = true.

(** A word as the patterns take it: a letter, then letters and hyphens. *)
Definition word_shape (w : str) : Prop :=
  exists c t, w = c :: t /\ is_letter c = true
              /\ Forall (fun a => is_word_tail a = true) t.

(** A text that starts with a letter. *)
Definition starts_with_letter (w : str) : Prop :=
  exists c t, w = c :: t /\ is_letter c = true.

(** An entry whose word and meaning are not empty. *)
Definition filled (e : VocabItem) : Prop := word e <> [] /\ meaning e <> [].

(** An entry as the OCR parser and the line scanner make them: a word of
    letters and hyphens, a meaning with a Hangul syllable, no part of
    speech. *)
Definition scan_entry_ok (e : VocabItem) : Prop :=
  word_shape (word e) /\ has_char is_hangul (meaning e) /\ pos e = None.

(** The state of the scanner holds such entries, and such a word. *)
Definition scan_ok (st : scan_state) : Prop :=
  Forall scan_entry_ok (vocab_list st)
  /\ forall w, current_word st = Some w -> word_shape w.

(** The test of the first branch of the scanner: the line is a complete
    record, a number, a word and a meaning with a Hangul syllable. *)
Definition is_record `{UnicodeData} (line : str) : bool :=
  match re_match re_full line with
  | Some mt =>
    re_search re_hangul
      (re_sub re_lead_pos [] (strip (group 3 (ms_caps mt))))
  | None => false
  end.

(** The word and the meaning of an entry. *)
Definition word_meaning (e : VocabItem) : str * str := (word e, meaning e).

(** The line has two fields at most: it gives no number. *)
Definition unnumbered (raw : str) : Prop :=
  (length (split_max COMMA 2 (strip raw)) <= 2)%nat.

(** An entry read from the text of a half of a page. *)
Definition from_half {E : OcrEngine} {T : PageTools E} `{UnicodeData}
    (e : VocabItem) : Prop :=
  exists half_img text,
    image_to_string_kor half_img = Some text
    /\ In e (parse_ocr_vocab_text text).

(** The configuration [config] with the option [include_pos] set to [b]. *)
Definition with_include_pos (b : bool) (config : TTSConfig) : TTSConfig :=
  {| english_voice := english_voice config;
     korean_voice := korean_voice config;
     english_repeat := english_repeat config;
     meaning_repeat := meaning_repeat config;
     pause_between_words := pause_between_words config;
     pause_between_repeat := pause_between_repeat config;
     include_pos := b |}.

(** The segments an item adds to the list: its word and a short silence,
    as often as asked; its meaning and a short silence, as often as asked;
    the long silence. *)
Definition segments_per_item (config : TTSConfig) : nat :=
  2 * Z.to_nat (english_repeat config)
  + 2 * Z.to_nat (meaning_repeat config) + 1.

(** A tag of a part of speech, as the table parser finds them: one of the
    letters a, v and n, with the letter d after it or not. *)
Definition tag_shape (t : str) : Prop :=
  exists c, is_pos_tag c = true /\ (t = [c] \/ t = [c; 100]).

(** A text whose blanks are collapsed: words without whitespace, with one
    space between two of them. *)
Definition collapsed (m : str) : Prop :=
  exists ws, Forall word_token ws /\ m = join [SP] ws.

(** ** Theorems *)

(** *** Facts on the matcher *)

Lemma last_char_cons prev c w :
  last_char prev (c :: w) = last_char (Some c) w.
Proof.
  unfold last_char. destruct w as [|c' w]; [reflexivity|].
  rewrite last_cons. destruct (last (c' :: w)); reflexivity.
Qed.

Lemma taken_app (a b : str) : taken (a ++ b) b = a.
Proof.
  unfold taken. rewrite length_app.
  replace (length a + length b - length b)%nat with (length a) by lia.
  apply take_app_length.
Qed.

(** A repetition of one or more does not look at the character before. *)
Lemma rep_greedy_prev p k caps n prev prev' s :
  rep_greedy p k caps (S n) prev s = rep_greedy p k caps (S n) prev' s.
Proof. destruct s; reflexivity. Qed.

(** A greedy repetition over a run of the class, when what follows the
    repetition in the pattern fails on every character of the class: the
    run is taken whole. *)
Lemma rep_greedy_run p k caps lo prev ws rest :
  Forall (fun c => p c = true) ws ->
  starts_without p rest ->
  (forall prev' c s', p c = true -> k (MState prev' (c :: s') caps) = None) ->
  rep_greedy p k caps lo prev (ws ++ rest)
  = if (lo <=? length ws)%nat
    then k (MState (last_char prev ws) rest caps) else None.
Proof.
  intros Hws Hrest Hk. revert lo prev.
  induction Hws as [|c ws Hc Hws IH]; intros lo prev.
  - cbn [app length]. unfold last_char. cbn [last].
    destruct rest as [|c rest]; cbn in *.
    + destruct lo; reflexivity.
    + rewrite Hrest. destruct lo; reflexivity.
  - cbn [app rep_greedy length]. rewrite Hc, IH, last_char_cons.
    destruct lo as [|lo]; cbn [Nat.pred Nat.leb].
    + destruct (k (MState (last_char (Some c) ws) rest caps));
        [reflexivity|].
      apply Hk, Hc.
    + destruct (lo <=? length ws)%nat; [|reflexivity].
      destruct (k (MState (last_char (Some c) ws) rest caps)); reflexivity.
Qed.

(** The last repetition of a pattern takes the whole run. *)
Lemma rep_greedy_max p caps prev ws rest :
  Forall (fun c => p c = true) ws ->
  starts_without p rest ->
  rep_greedy p Some caps 0 prev (ws ++ rest)
  = Some (MState (last_char prev ws) rest caps).
Proof.
  intros Hws Hrest. revert prev.
  induction Hws as [|c ws Hc Hws IH]; intros prev.
  - cbn [app]. destruct rest as [|c rest]; cbn in *; [reflexivity|].
    rewrite Hrest. reflexivity.
  - cbn [app rep_greedy Nat.pred]. rewrite Hc, IH, last_char_cons.
    reflexivity.
Qed.

(** After a match the scan goes on where the match ended. *)
Lemma pieces_skip r w prev v :
  pieces r (length w) prev (w ++ v) = pieces r 0 (last_char prev w) v.
Proof.
  revert prev. induction w as [|c w IH]; intros prev; [reflexivity|].
  cbn [length app pieces]. rewrite IH, last_char_cons. reflexivity.
Qed.

Lemma rebuild_no_hit r repl prev s :
  has_hit (pieces r 0 prev s) = false ->
  rebuild repl (pieces r 0 prev s) = s.
Proof.
  unfold rebuild, has_hit.
  revert prev. induction s as [|c s IH]; intros prev; cbn [pieces].
  - destruct (match_at r prev []); [discriminate|reflexivity].
  - destruct (match_at r prev (c :: s)); [discriminate|].
    cbn [existsb orb flat_map app]. intros Hs. rewrite (IH _ Hs).
    reflexivity.
Qed.

(** A pattern without a match in a text is left alone by [re.sub]. *)
Lemma re_sub_no_match r repl s :
  re_search r s = false -> re_sub r repl s = s.
Proof. apply rebuild_no_hit. Qed.

(** The pattern of the leading tag matches at the start only. *)
Lemma lead_pos_inside c s : pieces re_lead_pos 0 (Some c) s = map Lit s.
Proof.
  revert c. induction s as [|c' s IH]; intros c; [reflexivity|].
  cbn [pieces map]. change (match_at re_lead_pos (Some c) (c' :: s)) with
    (@None mstate). rewrite IH. reflexivity.
Qed.

Lemma rebuild_lits repl s : rebuild repl (map Lit s) = s.
Proof.
  unfold rebuild. induction s as [|c s IH]; [reflexivity|].
  cbn [map flat_map app]. rewrite IH. reflexivity.
Qed.

Lemma re_sub_lead_no_match repl s :
  re_match re_lead_pos s = None -> re_sub re_lead_pos repl s = s.
Proof.
  intros Hm. change (rebuild repl (pieces re_lead_pos 0 None s) = s).
  destruct s as [|c s]; cbn [pieces]; unfold re_match in Hm; rewrite Hm.
  - reflexivity.
  - rewrite lead_pos_inside.
    change (c :: rebuild repl (map Lit s) = c :: s).
    rewrite rebuild_lits. reflexivity.
Qed.

(** *** The number of a match *)

(** A repetition that succeeds took a run of its class and went on. *)
Lemma rep_greedy_inv p k caps lo prev s res :
  rep_greedy p k caps lo prev s = Some res ->
  exists ws rest prev',
    s = ws ++ rest /\ Forall (fun c => p c = true) ws
    /\ (lo <= length ws)%nat /\ k (MState prev' rest caps) = Some res.
Proof.
  revert lo prev. induction s as [|c s IH]; intros lo prev; cbn [rep_greedy].
  - destruct lo; [|discriminate]. intros Hk.
    exists [], [], prev. repeat split; auto.
  - assert (Hstop : match lo with
                    | O => k (MState prev (c :: s) caps)
                    | S _ => None
                    end = Some res ->
                    exists ws rest prev',
                      c :: s = ws ++ rest /\ Forall (fun c => p c = true) ws
                      /\ (lo <= length ws)%nat
                      /\ k (MState prev' rest caps) = Some res).
    { destruct lo; [|discriminate]. intros Hk.
      exists [], (c :: s), prev. repeat split; auto. }
    destruct (p c) eqn:Hc; [|exact Hstop].
    destruct (rep_greedy p k caps (Nat.pred lo) (Some c) s) as [st|] eqn:Hrec;
      [|exact Hstop].
    intros [= ->].
    destruct (IH _ _ Hrec) as (ws & rest & prev' & -> & Hws & Hlo & Hk).
    exists (c :: ws), rest, prev'. repeat split; auto.
    cbn [length]. lia.
Qed.

Lemma rep_lazy_inv p k caps lo prev s res :
  rep_lazy p k caps lo prev s = Some res ->
  exists ws rest prev',
    s = ws ++ rest /\ Forall (fun c => p c = true) ws
    /\ (lo <= length ws)%nat /\ k (MState prev' rest caps) = Some res.
Proof.
  revert lo prev. induction s as [|c s IH]; intros lo prev; cbn [rep_lazy].
  - destruct lo; [|discriminate].
    destruct (k (MState prev [] caps)) eqn:Hk; [|discriminate].
    intros [= ->]. exists [], [], prev. repeat split; auto.
  - assert (Hmore : (if p c then rep_lazy p k caps (Nat.pred lo) (Some c) s
                     else None) = Some res ->
                    exists ws rest prev',
                      c :: s = ws ++ rest /\ Forall (fun c => p c = true) ws
                      /\ (lo <= length ws)%nat
                      /\ k (MState prev' rest caps) = Some res).
    { destruct (p c) eqn:Hc; [|discriminate]. intros Hrec.
      destruct (IH _ _ Hrec) as (ws & rest & prev' & -> & Hws & Hlo & Hk).
      exists (c :: ws), rest, prev'. repeat split; auto.
      cbn [length]. lia. }
    destruct lo; [|exact Hmore].
    destruct (k (MState prev (c :: s) caps)) eqn:Hk; [|exact Hmore].
    intros [= ->]. exists [], (c :: s), prev. repeat split; auto.
Qed.

(** A match leaves the groups alone that its pattern does not set. *)
Lemma run_frame r k st res :
  run r k st = Some res ->
  exists st', k st' = Some res
              /\ forall i, ~ In i (captures r) ->
                           group i (ms_caps st') = group i (ms_caps st).
Proof.
  revert k st. induction r as [|p|greedy lo p|r1 IH1|r1 IH1 r2 IH2
                               |r1 IH1 r2 IH2|j r1 IH1| |ml|w|r1 IH1];
    intros k st; cbn [run captures].
  - intros Hk. exists st. auto.
  - destruct (ms_rest st) as [|c s]; [discriminate|].
    destruct (p c); [|discriminate]. intros Hk.
    exists (MState (Some c) s (ms_caps st)). auto.
  - destruct greedy; intros Hrep;
      [apply rep_greedy_inv in Hrep|apply rep_lazy_inv in Hrep];
      destruct Hrep as (ws & rest & prev' & _ & _ & _ & Hk);
      exists (MState prev' rest (ms_caps st)); auto.
  - destruct (run r1 k st) as [st1|] eqn:H1.
    + intros [= ->]. apply IH1, H1.
    + intros Hk. exists st. auto.
  - intros H1. apply IH1 in H1 as (st1 & H2 & F1).
    apply IH2 in H2 as (st2 & Hk & F2).
    exists st2. split; [exact Hk|]. intros i Hi.
    rewrite F2, F1; [reflexivity|..]; intros Hin; apply Hi, in_app_iff; auto.
  - destruct (run r1 k st) as [st1|] eqn:H1.
    + intros [= ->]. apply IH1 in H1 as (st' & Hk & F).
      exists st'. split; [exact Hk|]. intros i Hi. apply F.
      intros Hin. apply Hi, in_app_iff. auto.
    + intros H2. apply IH2 in H2 as (st' & Hk & F).
      exists st'. split; [exact Hk|]. intros i Hi. apply F.
      intros Hin. apply Hi, in_app_iff. auto.
  - intros H1. apply IH1 in H1 as (st1 & Hk & F).
    eexists. split; [exact Hk|]. intros i Hi. cbn [ms_caps group].
    destruct (Nat.eqb_spec i j) as [->|_]; [exfalso; apply Hi; left; auto|].
    apply F. intros Hin. apply Hi. right. exact Hin.
  - destruct (ms_prev st); [discriminate|]. intros Hk. exists st. auto.
  - destruct (at_eol ml (ms_rest st)); [|discriminate].
    intros Hk. exists st. auto.
  - destruct (xorb _ _); [|discriminate]. intros Hk. exists st. auto.
  - destruct (run r1 Some st); [|discriminate]. intros Hk. exists st. auto.
Qed.

(** A match moves forward, and takes a character when its pattern is
    [consuming]. *)
Lemma run_advances r k st res :
  run r k st = Some res ->
  exists st', k st' = Some res
              /\ (length (ms_rest st') <= length (ms_rest st))%nat
              /\ (consuming r = true ->
                  (length (ms_rest st') < length (ms_rest st))%nat).
Proof.
  revert k st. induction r as [|p|greedy lo p|r1 IH1|r1 IH1 r2 IH2
                               |r1 IH1 r2 IH2|j r1 IH1| |ml|w|r1 IH1];
    intros k st; cbn [run consuming].
  - intros Hk. exists st. split; [exact Hk|]. split; [lia|discriminate].
  - destruct (ms_rest st) as [|c s]; [discriminate|].
    destruct (p c); [|discriminate]. intros Hk.
    exists (MState (Some c) s (ms_caps st)). cbn [ms_rest length].
    split; [exact Hk|]. split; [lia|]. intros _. lia.
  - destruct greedy; intros Hrep;
      [apply rep_greedy_inv in Hrep|apply rep_lazy_inv in Hrep];
      destruct Hrep as (ws & rest & prev' & Hs & _ & Hlo & Hk);
      exists (MState prev' rest (ms_caps st)); cbn [ms_rest];
      rewrite Hs, length_app;
      (split; [exact Hk|]); (split; [lia|]);
      destruct lo; cbn [Nat.eqb negb]; try discriminate; intros _; lia.
  - destruct (run r1 k st) as [st1|] eqn:H1.
    + intros [= ->]. apply IH1 in H1 as (st' & Hk & Hle & _).
      exists st'. split; [exact Hk|]. split; [exact Hle|discriminate].
    + intros Hk. exists st. split; [exact Hk|]. split; [lia|discriminate].
  - intros H1. apply IH1 in H1 as (st1 & H2 & Hle1 & Hlt1).
    apply IH2 in H2 as (st2 & Hk & Hle2 & Hlt2).
    exists st2. split; [exact Hk|]. split; [lia|].
    rewrite orb_true_iff. intros [Hc|Hc]; [specialize (Hlt1 Hc)
                                           |specialize (Hlt2 Hc)]; lia.
  - destruct (run r1 k st) as [st1|] eqn:H1.
    + intros [= ->]. apply IH1 in H1 as (st' & Hk & Hle & Hlt).
      exists st'. split; [exact Hk|]. split; [exact Hle|].
      rewrite andb_true_iff. intros [Hc _]. exact (Hlt Hc).
    + intros H2. apply IH2 in H2 as (st' & Hk & Hle & Hlt).
      exists st'. split; [exact Hk|]. split; [exact Hle|].
      rewrite andb_true_iff. intros [_ Hc]. exact (Hlt Hc).
  - intros H1. apply IH1 in H1 as (st1 & Hk & Hle & Hlt).
    eexists. split; [exact Hk|]. cbn [ms_rest]. split; assumption.
  - destruct (ms_prev st); [discriminate|]. intros Hk.
    exists st. split; [exact Hk|]. split; [lia|discriminate].
  - destruct (at_eol ml (ms_rest st)); [|discriminate].
    intros Hk. exists st. split; [exact Hk|]. split; [lia|discriminate].
  - destruct (xorb _ _); [|discriminate]. intros Hk.
    exists st. split; [exact Hk|]. split; [lia|discriminate].
  - destruct (run r1 Some st); [|discriminate]. intros Hk.
    exists st. split; [exact Hk|]. split; [lia|discriminate].
Qed.

(** The matches of a scan with a consuming pattern are not empty: the
    scan goes as that of [re], whose treatment of an empty match is not
    needed. *)
Lemma pieces_hit_nonempty r n prev s w caps :
  consuming r = true -> In (Hit w caps) (pieces r n prev s) -> w <> [].
Proof.
  intros Hr. revert n prev.
  assert (Hm : forall prev s st, match_at r prev s = Some st ->
                                 taken s (ms_rest st) <> []).
  { intros prev0 s0 st Hm. unfold match_at in Hm.
    apply run_advances in Hm as (st' & [= ->] & _ & Hlt).
    specialize (Hlt Hr). cbn [ms_rest] in Hlt. unfold taken.
    destruct s0 as [|c s0]; [cbn in Hlt; lia|].
    destruct (length (c :: s0) - length (ms_rest st))%nat eqn:Hd;
      [lia|discriminate]. }
  induction s as [|c s IH]; intros n prev.
  - destruct n as [|n]; cbn [pieces]; [|intros []].
    destruct (match_at r prev []) as [st|] eqn:E; [|intros []].
    intros [[= <- _]|[]]. apply (Hm _ _ _ E).
  - destruct n as [|n]; cbn [pieces]; [|apply IH].
    destruct (match_at r prev (c :: s)) as [st|] eqn:E.
    + intros [[= <- _]|Hin]; [apply (Hm _ _ _ E)|].
      destruct (taken (c :: s) (ms_rest st)) as [|c' w'].
      * destruct Hin as [[=]|Hin]. apply (IH _ _ Hin).
      * apply (IH _ _ Hin).
    + intros [[=]|Hin]. apply (IH _ _ Hin).
Qed.

(** Every pattern the source gives to [re.sub] or [re.findall] is
    consuming. *)
Lemma patterns_consuming `{UnicodeData} :
  forallb consuming
    [re_lead_pos; re_mid_pos; re_table; re_table_pos; re_table_pos_find;
     re_two_line; re_one_line; re_english; re_hangul] = true.
Proof. reflexivity. Qed.

Section NumberFacts.
Context `{UnicodeData}.

(** Group 1 of a match of a pattern that starts with [(\d+)] and sets
    group 1 nowhere else. *)
Lemma number_group r prev s st :
  ~ In 1%nat (captures r) ->
  match_at (Grp 1 digits >> r) prev s = Some st ->
  digit_string (group 1 (ms_caps st)).
Proof.
  intros Hr Hm. unfold match_at, digits, plus in Hm.
  cbn [run ms_rest ms_caps ms_prev] in Hm.
  apply rep_greedy_inv in Hm as (ws & rest & prev' & -> & Hws & Hlo & Hk).
  cbn [ms_rest ms_prev ms_caps] in Hk. rewrite taken_app in Hk.
  apply run_frame in Hk as (st' & [= ->] & F).
  rewrite (F 1%nat Hr). cbn [ms_caps group Nat.eqb].
  split; [|exact Hws]. destruct ws; [cbn in Hlo; lia|discriminate].
Qed.

Lemma number_group_bol r s st :
  ~ In 1%nat (captures r) ->
  re_match (Bol >> Grp 1 digits >> r) s = Some st ->
  digit_string (group 1 (ms_caps st)).
Proof. intros Hr Hm. apply (number_group r None s st Hr Hm). Qed.

(** The matches of a scan are matches at some position. *)
Lemma pieces_hits r n prev s w caps :
  In (Hit w caps) (pieces r n prev s) ->
  exists prev' s' st, match_at r prev' s' = Some st /\ caps = ms_caps st.
Proof.
  revert n prev. induction s as [|c s IH]; intros n prev.
  - destruct n as [|n]; cbn [pieces]; [|intros []].
    destruct (match_at r prev []) as [st|] eqn:Hm; [|intros []].
    intros [[= _ <-]|[]]. eauto.
  - destruct n as [|n]; cbn [pieces]; [|apply IH].
    destruct (match_at r prev (c :: s)) as [st|] eqn:Hm.
    + intros [[= _ <-]|Hin]; [eauto|].
      destruct (taken (c :: s) (ms_rest st)) as [|c' w'].
      * destruct Hin as [[=]|Hin]. apply (IH _ _ Hin).
      * apply (IH _ _ Hin).
    + intros [[=]|Hin]. apply (IH _ _ Hin).
Qed.

Lemma findall3_number r text g1 g2 g3 :
  ~ In 1%nat (captures r) ->
  In (g1, g2, g3) (re_findall3 (Grp 1 digits >> r) text) ->
  digit_string g1.
Proof.
  intros Hr. unfold re_findall3. rewrite in_flat_map.
  intros [[c|w caps] [Hp Hin]]; [destruct Hin|].
  destruct Hin as [[= <- _ _]|[]].
  apply pieces_hits in Hp as (prev' & s' & st & Hm & ->).
  apply (number_group r prev' s' st Hr Hm).
Qed.

Lemma space_not_decimal c : isspace c = true -> decimal_value c = None.
Proof.
  intros Hs. unfold decimal_value.
  destruct (in_range 48 57 c) eqn:Hd.
  - exfalso. revert Hs Hd. unfold isspace, in_range.
    rewrite !orb_true_iff, !andb_true_iff, !Z.leb_le, !Z.eqb_eq. lia.
  - destruct (c <? 1632); [reflexivity|].
    destruct (is_hangul c); [reflexivity|].
    destruct (in_range 8192 11263 c); [reflexivity|].
    apply uni_decimal_space, Hs.
Qed.

Lemma decimal_not_int_space c : is_decimal c = true -> int_space c = false.
Proof.
  unfold is_decimal, int_space. intros Hd.
  destruct (isspace c) eqn:Hs; [|reflexivity].
  rewrite (space_not_decimal c Hs) in Hd. discriminate.
Qed.

Lemma decimal_not_sign c :
  is_decimal c = true -> (c =? 45) = false /\ (c =? 43) = false.
Proof.
  unfold is_decimal. intros Hd.
  split; [destruct (Z.eqb_spec c 45) as [->|]
         |destruct (Z.eqb_spec c 43) as [->|]]; auto; discriminate.
Qed.

Lemma int_digits_all acc g :
  Forall (fun c => is_decimal c = true) g ->
  int_digits acc false g
  = Some (fold_left (fun a c => a * 10 + default 0 (decimal_value c)) g acc).
Proof.
  intros Hg. revert acc.
  induction Hg as [|c g Hc Hg IH]; intros acc; [reflexivity|].
  cbn [int_digits fold_left]. unfold is_decimal in Hc.
  destruct (decimal_value c) as [d|]; [|discriminate]. apply IH.
Qed.

(** [int] does not fail on a string of decimal digits, and gives the value
    the parsers take. *)
Lemma py_int_digits g :
  digit_string g -> py_int g = Some (int_of_digits g).
Proof.
  intros [Hne Hg]. unfold py_int.
  assert (Hfront : lstrip_int g = g).
  { destruct Hg as [|c g Hc _]; [congruence|].
    cbn [lstrip_int]. rewrite (decimal_not_int_space c Hc). reflexivity. }
  assert (Hback : lstrip_int (rev g) = rev g).
  { destruct (rev g) as [|c g'] eqn:Hrev; [reflexivity|].
    cbn [lstrip_int]. rewrite decimal_not_int_space; [reflexivity|].
    rewrite List.Forall_forall in Hg. apply Hg, in_rev.
    rewrite Hrev. left. reflexivity. }
  rewrite Hfront, Hback, rev_involutive.
  destruct Hg as [|c g Hc Hg]; [congruence|].
  destruct (decimal_not_sign c Hc) as [-> ->].
  unfold int_unsigned, int_of_digits. cbn [fold_left].
  pose proof Hc as Hc'. unfold is_decimal in Hc'.
  destruct (decimal_value c) as [d|]; [|discriminate].
  rewrite (int_digits_all d g Hg). cbn [default]. do 2 f_equal.
Qed.

(** The conversion of the number cannot fail in any of the parsers: group
    1 of each of their patterns is a string of decimal digits. *)
Lemma parser_numbers_convert :
  (forall s st, re_match re_ocr_head s = Some st ->
                py_int (group 1 (ms_caps st))
                = Some (int_of_digits (group 1 (ms_caps st))))
  /\ (forall s st, re_match re_full s = Some st ->
                   py_int (group 1 (ms_caps st))
                   = Some (int_of_digits (group 1 (ms_caps st))))
  /\ (forall s st, re_match re_num_word s = Some st ->
                   py_int (group 1 (ms_caps st))
                   = Some (int_of_digits (group 1 (ms_caps st))))
  /\ (forall r text g1 g2 g3,
        r = re_table \/ r = re_two_line \/ r = re_one_line ->
        In (g1, g2, g3) (re_findall3 r text) ->
        py_int g1 = Some (int_of_digits g1)).
Proof.
  assert (Hnot : forall l : list nat, forallb (fun i => negb (Nat.eqb 1 i)) l = true ->
                                      ~ In 1%nat l).
  { intros l Hl Hin. rewrite forallb_forall in Hl.
    specialize (Hl _ Hin). discriminate. }
  split; [|split; [|split]].
  - intros s st Hm. apply py_int_digits.
    eapply number_group_bol; [|exact Hm]. apply Hnot. reflexivity.
  - intros s st Hm. apply py_int_digits.
    eapply number_group_bol; [|exact Hm]. apply Hnot. reflexivity.
  - intros s st Hm. apply py_int_digits.
    eapply number_group_bol; [|exact Hm]. apply Hnot. reflexivity.
  - intros r text g1 g2 g3 Hr Hin. apply py_int_digits.
    destruct Hr as [->|[->| ->]];
      (eapply findall3_number; [|exact Hin]); apply Hnot; reflexivity.
Qed.
End NumberFacts.


(** *** The cascade *)

Lemma nonempty_insert_sorted {A} (key : A -> Z) x l :
  nonempty (insert_sorted key x l) = true.
Proof. destruct l as [|y l]; simpl; [reflexivity|]. destruct (key x <=? key y); reflexivity. Qed.

Lemma nonempty_sorted {A} (key : A -> Z) l :
  nonempty (sorted key l) = nonempty l.
Proof. destruct l; simpl; [reflexivity|apply nonempty_insert_sorted]. Qed.

Lemma nonempty_false {A} (l : list A) : nonempty l = false -> l = [].
Proof. destruct l; [reflexivity|discriminate]. Qed.

Section CascadeFacts.
Context `{UnicodeData}.

(** C1. [parse_vocab_simple] tries the two-line pattern, then the one-line
    pattern, then the line scanner, and returns the result of the first
    of them that is not empty, without going on to the later ones; on a
    text where the first two both have a result, it returns that of the
    two-line pattern. *)
Theorem parse_vocab_simple_cascade (text : str) :
  parse_vocab_simple_run text = cascade text
  /\ (two_line_matcher text <> [] -> one_line_matcher text <> [] ->
      parse_vocab_simple_run text = ([TwoLine], two_line_matcher text)).
Proof.
  assert (Hrun : parse_vocab_simple_run text = cascade text).
  { unfold parse_vocab_simple_run, cascade, two_line_matcher,
      one_line_matcher, line_scanner.
    cbv zeta. rewrite !nonempty_sorted.
    set (p2 := re_findall3 re_two_line text).
    set (p1 := re_findall3 re_one_line text).
    assert (K : forall p, nonempty p = false ->
                          flat_map simple_entry p = []).
    { intros [|m ms] Hp; [reflexivity|discriminate]. }
    assert (Second :
      (if nonempty p1 && nonempty (if nonempty p1
                                   then [] ++ flat_map simple_entry p1
                                   else [])
       then ([TwoLine; OneLine],
             sorted number (if nonempty p1
                            then [] ++ flat_map simple_entry p1 else []))
       else ([TwoLine; OneLine; Scanner],
             scan (if nonempty p1
                   then [] ++ flat_map simple_entry p1 else []) text))
      = (if nonempty (flat_map simple_entry p1)
         then ([TwoLine; OneLine], sorted number (flat_map simple_entry p1))
         else ([TwoLine; OneLine; Scanner], scan [] text))).
    { pose proof (K p1) as K1.
      destruct (nonempty p1); rewrite ?app_nil_l; cbn [andb nonempty].
      - destruct (nonempty (flat_map simple_entry p1)) eqn:N1;
          [reflexivity|].
        apply nonempty_false in N1. rewrite N1. reflexivity.
      - rewrite K1 by reflexivity. reflexivity. }
    pose proof (K p2) as K2.
    destruct (nonempty p2); rewrite ?app_nil_l; cbn [andb nonempty].
    - destruct (nonempty (flat_map simple_entry p2)) eqn:N2;
        [reflexivity|].
      apply nonempty_false in N2. rewrite N2. exact Second.
    - rewrite K2 by reflexivity. exact Second. }
  split; [exact Hrun|].
  intros H2 _. rewrite Hrun. unfold cascade.
  destruct (two_line_matcher text); [congruence|reflexivity].
Qed.
End CascadeFacts.

(** On the conflicting sample the two-line pattern sees the second record
    only, the one-line pattern both; the cascade returns the first result. *)
Lemma parse_vocab_simple_cascade_witness :
  two_line_matcher sample_conflict <> []
  /\ one_line_matcher sample_conflict <> []
  /\ one_line_matcher sample_conflict <> two_line_matcher sample_conflict
  /\ parse_vocab_simple_run sample_conflict
     = ([TwoLine], [VocabItem3 2 (lit "dog") (lit "개")]).
Proof.
  split; [vm_compute; discriminate|].
  split; [vm_compute; discriminate|].
  split; [vm_compute; discriminate|].
  rewrite (proj2 (parse_vocab_simple_cascade sample_conflict));
    [vm_compute; reflexivity | vm_compute; discriminate
    | vm_compute; discriminate].
Defined.

(** *** The two-line sample *)

Section SampleFacts.
Context `{UnicodeData}.

(** C3, as amended.  On the lines ["51 □ empty"] and ["a. 비어 있는"] the
    two-line parse, by [parse_ocr_vocab_text] and by the first pattern of
    [parse_vocab_simple] alike, gives the one entry of number 51, word
    "empty" and meaning "비어 있는", whose part of speech is left unset:
    the tag is removed from the meaning and not kept. *)
Theorem two_line_sample_entry :
  parse_ocr_vocab_text sample_two_line
  = [mkVocabItem 51 (lit "empty") (lit "비어 있는") None]
  /\ parse_vocab_simple_run sample_two_line
     = ([TwoLine], [mkVocabItem 51 (lit "empty") (lit "비어 있는") None]).
Proof. split; vm_compute; reflexivity. Qed.

(** C8, at the failing input.  The line ["apple"] is a bare word among
    the lines of the scanner, which runs on this text; the record on the
    next line resets the pending word without saving it, and no entry of
    the result has the word "apple". *)
Theorem scanner_drops_pending_word :
  In (lit "apple") (scan_lines sample_dropped)
  /\ re_match re_bare_word (lit "apple") <> None
  /\ parse_vocab_simple_run sample_dropped
     = ([TwoLine; OneLine; Scanner],
        [VocabItem3 12 (lit "banana") (lit "바나나")])
  /\ ~ (exists e, In e (scan [] sample_dropped) /\ word e = lit "apple").
Proof.
  split; [vm_compute; auto|].
  split; [vm_compute; discriminate|].
  split; [vm_compute; reflexivity|].
  intros [e [He Hw]]. vm_compute in He.
  destruct He as [He|[]]. subst e. vm_compute in Hw. discriminate.
Qed.
End SampleFacts.

(** C3, as stated: the entry of the sample has no part of speech "a". *)
Lemma two_line_sample_pos_not_a :
  parse_ocr_vocab_text sample_two_line
  <> [mkVocabItem 51 (lit "empty") (lit "비어 있는") (Some (lit "a"))]
  /\ parse_vocab_simple sample_two_line
     <> [mkVocabItem 51 (lit "empty") (lit "비어 있는") (Some (lit "a"))].
Proof. split; vm_compute; discriminate. Qed.

(** *** Words of one letter *)

Section OcrFacts.
Context `{UnicodeData}.

Lemma ocr_emit_length n w m e :
  In e (ocr_emit n w m) -> (2 <= length (word e))%nat.
Proof.
  unfold ocr_emit.
  destruct (nonempty w); cbn [andb]; [|intros []].
  destruct (Nat.ltb_spec 1 (length w)); cbn [andb]; [|intros []].
  destruct (nonempty m); [|intros []].
  intros [<-|[]]. cbn. lia.
Qed.

Lemma ocr_step_length line next e :
  In e (fst (ocr_step line next)) -> (2 <= length (word e))%nat.
Proof.
  unfold ocr_step.
  destruct (re_match re_ocr_head (strip line)) as [st|]; [|intros []].
  destruct next as [raw_next|].
  - destruct (re_search re_hangul (strip raw_next));
      cbn [fst]; apply ocr_emit_length.
  - cbn [fst]. apply ocr_emit_length.
Qed.

Lemma ocr_loop_length lines e :
  In e (ocr_loop lines) -> (2 <= length (word e))%nat.
Proof.
  remember (length lines) as n eqn:Hn.
  revert lines Hn. induction n as [n IH] using lt_wf_ind.
  intros [|line [|next rest]] Hn; cbn [ocr_loop].
  - intros [].
  - apply ocr_step_length.
  - pose proof (ocr_step_length line (Some next) e) as Hs.
    destruct (ocr_step line (Some next)) as [items took].
    cbn [fst] in Hs. rewrite in_app_iff. intros [Hi|Hi]; [auto|].
    cbn [length] in Hn.
    destruct took;
      [apply (IH (length rest)) with (lines := rest)
      |apply (IH (length (next :: rest))) with (lines := next :: rest)];
      cbn [length]; auto; lia.
Qed.

(** C10. Every entry of [parse_ocr_vocab_text] has a word of two
    characters at least: a record whose word is one character is not
    kept, whatever its meaning; so for the lines ["5 a"] and ["가"]. *)
Theorem parse_ocr_word_length (text : str) :
  Forall (fun e => (2 <= length (word e))%nat) (parse_ocr_vocab_text text)
  /\ (forall n c m, ocr_emit n [c] m = [])
  /\ parse_ocr_vocab_text (join [NL] [lit "5 a"; lit "가"]) = []
  /\ parse_ocr_vocab_text (join [NL] [lit "5 ab"; lit "가"])
     = [VocabItem3 5 (lit "ab") (lit "가")].
Proof.
  split; [|split; [|split]].
  - apply List.Forall_forall. intros e He. apply (ocr_loop_length _ e He).
  - intros n c m. reflexivity.
  - vm_compute. reflexivity.
  - vm_compute. reflexivity.
Qed.
End OcrFacts.

(** *** Collapsing blanks *)

Lemma split_ws_tokens s : Forall word_token (split_ws s).
Proof.
  induction s as [|c s IH]; cbn [split_ws]; [constructor|].
  destruct (isspace c) eqn:Hc; [exact IH|].
  assert (Hone : word_token [c]).
  { split; [discriminate|]. constructor; [exact Hc|constructor]. }
  destruct s as [|c' s]; [constructor; [exact Hone|constructor]|].
  destruct (isspace c'); [constructor; assumption|].
  destruct (split_ws (c' :: s)) as [|w ws]; cbn [cons_word].
  - constructor; [exact Hone|constructor].
  - inversion IH as [|? ? [Hw Hws] IH']; subst.
    constructor; [|exact IH'].
    split; [discriminate|]. constructor; assumption.
Qed.

(** A word in front of a blank, or at the end, is the first word. *)
Lemma split_ws_token_app w rest :
  word_token w -> rest = [] \/ (exists c r, rest = c :: r /\ isspace c = true) ->
  split_ws (w ++ rest) = w :: split_ws rest.
Proof.
  intros [Hne Hw] Hrest. induction Hw as [|c w Hc Hw IH]; [congruence|].
  clear Hne. cbn [app split_ws]. rewrite Hc.
  destruct w as [|c2 w].
  - cbn [app]. destruct Hrest as [->|[c' [r [-> Hc']]]]; [reflexivity|].
    rewrite Hc'. reflexivity.
  - cbn [app]. inversion Hw as [|? ? Hc2 _]; subst. rewrite Hc2.
    change (c2 :: w ++ rest) with ((c2 :: w) ++ rest).
    rewrite IH by discriminate. reflexivity.
Qed.

Lemma split_ws_join ws :
  Forall word_token ws -> split_ws (join [SP] ws) = ws.
Proof.
  induction 1 as [|w ws Hw Hws IH]; [reflexivity|].
  cbn [join]. destruct ws as [|w' ws].
  - rewrite <- (app_nil_r w) at 1.
    rewrite split_ws_token_app by auto. reflexivity.
  - rewrite split_ws_token_app; [|exact Hw|].
    + cbn [app split_ws]. change (isspace SP) with true. cbn iota.
      rewrite IH. reflexivity.
    + right. exists SP, (join [SP] (w' :: ws)). split; reflexivity.
Qed.

(** Collapsing the blanks twice is collapsing them once. *)
Lemma collapse_idempotent s :
  join [SP] (split_ws (join [SP] (split_ws s))) = join [SP] (split_ws s).
Proof. rewrite split_ws_join; [reflexivity|apply split_ws_tokens]. Qed.

(** C4, as amended.  The normalization of a meaning gives the same text
    when applied a second time, for every text whose normal form neither
    starts with a tag nor has one after a blank. *)
Theorem ocr_meaning_idempotent (x : str) :
  re_match re_lead_pos (ocr_meaning x) = None ->
  re_search re_mid_pos (ocr_meaning x) = false ->
  ocr_meaning (ocr_meaning x) = ocr_meaning x.
Proof.
  intros Hlead Hmid. unfold ocr_meaning at 1. cbv zeta.
  rewrite (re_sub_lead_no_match _ _ Hlead), (re_sub_no_match _ _ _ Hmid).
  unfold ocr_meaning. cbv zeta. apply collapse_idempotent.
Qed.

Lemma ocr_meaning_idempotent_witness :
  ocr_meaning (ocr_meaning (lit "a.  비어   있는 v. 비우다"))
  = lit "비어 있는, 비우다".
Proof.
  rewrite ocr_meaning_idempotent; vm_compute; reflexivity.
Defined.

(** C4, as stated: a second tag comes to the front when the first is
    removed, and a tag that follows a replaced one is left after the comma;
    the second application changes both texts. *)
Lemma ocr_meaning_not_idempotent :
  ocr_meaning (lit "a. a. 가") = lit "a. 가"
  /\ ocr_meaning (ocr_meaning (lit "a. a. 가")) = lit "가"
  /\ ocr_meaning (ocr_meaning (lit "a. a. 가")) <> ocr_meaning (lit "a. a. 가")
  /\ ocr_meaning (ocr_meaning (lit "가 v. n. 나"))
     <> ocr_meaning (lit "가 v. n. 나").
Proof.
  split; [vm_compute; reflexivity|].
  split; [vm_compute; reflexivity|].
  split; vm_compute; discriminate.
Qed.

(** *** Tags inside a meaning *)

Lemma pos_tag_not_space c : is_pos_tag c = true -> isspace c = false.
Proof.
  unfold is_pos_tag. rewrite !orb_true_iff, !Z.eqb_eq.
  intros [[->| ->]| ->]; reflexivity.
Qed.

Lemma space_not_pos_tag c : isspace c = true -> is_pos_tag c = false.
Proof.
  intros Hs. destruct (is_pos_tag c) eqn:Ht; [|reflexivity].
  apply pos_tag_not_space in Ht. congruence.
Qed.

Lemma match_mid_pos prev s :
  match_at re_mid_pos prev s = rep_greedy isspace after_blanks [] 1 prev s.
Proof. reflexivity. Qed.

Lemma after_blanks_space prev c s caps :
  isspace c = true -> after_blanks (MState prev (c :: s) caps) = None.
Proof.
  intros Hc. unfold after_blanks. cbn [run ms_rest].
  rewrite (space_not_pos_tag _ Hc). reflexivity.
Qed.

(** The pattern does not look at the character before the position. *)
Lemma pieces_mid_pos_prev n prev prev' s :
  pieces re_mid_pos n prev s = pieces re_mid_pos n prev' s.
Proof.
  destruct n as [|n], s as [|c s]; cbn [pieces]; try reflexivity;
    rewrite !match_mid_pos, (rep_greedy_prev _ _ _ _ prev prev');
    reflexivity.
Qed.

Lemma tagless_tail c u : tagless (c :: u) -> tagless u.
Proof.
  intros [Ht Hl]. inversion Ht; subst. split; [assumption|].
  destruct u as [|c' u]; [exact I|]. rewrite last_cons_cons in Hl.
  exact Hl.
Qed.

(** Such a text, when not empty, is a run of blanks, a character that is
    neither a blank nor a tag, and a rest. *)
Lemma tagless_span u :
  tagless u -> u <> [] ->
  exists ws c u', u = ws ++ c :: u'
                  /\ Forall (fun b => isspace b = true) ws
                  /\ isspace c = false /\ is_pos_tag c = false.
Proof.
  induction u as [|c u IH]; intros Hu Hne; [congruence|].
  destruct (isspace c) eqn:Hc.
  - destruct u as [|c' u].
    + destruct Hu as [_ Hl]. cbn in Hl. congruence.
    + destruct (IH (tagless_tail _ _ Hu)) as (ws & d & u' & -> & Hws & Hd & Ht);
        [discriminate|].
      exists (c :: ws), d, u'. repeat split; auto.
  - exists [], c, u. destruct Hu as [Ht _]. inversion Ht; subst.
    repeat split; auto.
Qed.

Lemma mid_pos_no_match prev u rest :
  tagless u -> u <> [] -> match_at re_mid_pos prev (u ++ rest) = None.
Proof.
  intros Hu Hne.
  destruct (tagless_span u Hu Hne) as (ws & c & u' & -> & Hws & Hc & Ht).
  rewrite match_mid_pos, <- app_assoc.
  rewrite rep_greedy_run; [|exact Hws|exact Hc|].
  - destruct (1 <=? length ws)%nat; [|reflexivity].
    unfold after_blanks. cbn [app run ms_rest]. rewrite Ht. reflexivity.
  - intros prev' b s' Hb. apply after_blanks_space, Hb.
Qed.

Lemma pieces_mid_pos_tagless prev u rest :
  tagless u ->
  pieces re_mid_pos 0 prev (u ++ rest)
  = map Lit u ++ pieces re_mid_pos 0 (last_char prev u) rest.
Proof.
  revert prev. induction u as [|c u IH]; intros prev Hu; [reflexivity|].
  cbn [app pieces map].
  change (c :: u ++ rest) with ((c :: u) ++ rest).
  rewrite (mid_pos_no_match prev (c :: u) rest Hu) by discriminate.
  rewrite IH by (eapply tagless_tail; exact Hu).
  rewrite last_char_cons. reflexivity.
Qed.

(** The match at a tag: the blanks before it, the tag and its dot, the
    blanks after it. *)
Lemma mid_pos_match prev ws1 t ws2 v :
  ws1 <> [] ->
  Forall (fun c => isspace c = true) ws1 ->
  is_pos_tag t = true ->
  Forall (fun c => isspace c = true) ws2 ->
  starts_without isspace v ->
  match_at re_mid_pos prev (ws1 ++ [t; DOT] ++ ws2 ++ v)
  = Some (MState (last_char (Some DOT) ws2) v []).
Proof.
  intros Hne H1 Ht H2 Hv.
  rewrite match_mid_pos, rep_greedy_run; [|exact H1| |].
  - destruct ws1 as [|c ws1]; [congruence|]. cbn [length Nat.leb].
    unfold after_blanks. cbn [app run ms_rest ms_caps]. rewrite Ht.
    change (is_dot DOT) with true. cbn iota.
    apply rep_greedy_max; assumption.
  - cbn. apply pos_tag_not_space, Ht.
  - intros prev' b s' Hb. apply after_blanks_space, Hb.
Qed.

Lemma rebuild_app repl ps qs :
  rebuild repl (ps ++ qs) = rebuild repl ps ++ rebuild repl qs.
Proof. apply flat_map_app. Qed.

Section TagFacts.
Context `{UnicodeData}.

(** C5, as amended.  In the meaning of [parse_ocr_vocab_text] a tag with
    its dot that follows blanks, after a sense [u] without the letters of
    the tags, is replaced with the blanks around it by a comma and a
    space, and the rest [v] of the meaning is treated in the same way: the
    senses stay apart.  [parse_vocab_table] removes the tags and leaves
    nothing in their place, and the patterns of [parse_vocab_simple] remove
    the leading tag only. *)
Theorem interior_tag_replaced (u ws1 ws2 v : str) (t : char) :
  tagless u ->
  ws1 <> [] -> Forall (fun c => isspace c = true) ws1 ->
  is_pos_tag t = true ->
  Forall (fun c => isspace c = true) ws2 ->
  starts_without isspace v ->
  re_sub re_mid_pos [COMMA; SP] (u ++ ws1 ++ [t; DOT] ++ ws2 ++ v)
  = u ++ [COMMA; SP] ++ re_sub re_mid_pos [COMMA; SP] v
  /\ map meaning (parse_ocr_vocab_text
                    (join [NL] [lit "51 □ empty"; lit "a. 비어 있는 v. 비우다"]))
     = [lit "비어 있는, 비우다"]
  /\ map meaning (parse_vocab_table sample_senses) = [lit "비어 있는 비우다"]
  /\ map meaning (parse_vocab_simple sample_senses)
     = [lit "비어 있는 v. 비우다"].
Proof.
  intros Hu Hne H1 Ht H2 Hv.
  split; [|split; [|split]]; [|vm_compute; reflexivity..].
  unfold re_sub. rewrite pieces_mid_pos_tagless by exact Hu.
  rewrite rebuild_app, rebuild_lits. f_equal.
  destruct ws1 as [|c ws1]; [congruence|].
  cbn [app pieces].
  change (c :: ws1 ++ t :: DOT :: ws2 ++ v)
    with ((c :: ws1) ++ [t; DOT] ++ ws2 ++ v).
  rewrite mid_pos_match by (assumption || discriminate).
  cbn [ms_rest ms_caps].
  replace ((c :: ws1) ++ [t; DOT] ++ ws2 ++ v)
    with ((c :: ws1 ++ [t; DOT] ++ ws2) ++ v)
    by (cbn [app]; rewrite <- !app_assoc; reflexivity).
  rewrite taken_app.
  replace (ws1 ++ t :: DOT :: ws2 ++ v)
    with ((ws1 ++ [t; DOT] ++ ws2) ++ v)
    by (rewrite <- !app_assoc; reflexivity).
  rewrite pieces_skip.
  rewrite (pieces_mid_pos_prev 0 _ None).
  reflexivity.
Qed.
End TagFacts.

Lemma interior_tag_replaced_witness :
  re_sub re_mid_pos [COMMA; SP] (lit "비어 있는 v. 비우다")
  = lit "비어 있는, 비우다".
Proof.
  destruct (interior_tag_replaced (lit "비어 있는") [SP] [SP] (lit "비우다") 118)
    as [Hsub _].
  - split; [repeat constructor|vm_compute; reflexivity].
  - discriminate.
  - repeat constructor.
  - reflexivity.
  - repeat constructor.
  - reflexivity.
  - etransitivity; [exact Hsub|]. vm_compute. reflexivity.
Defined.

(** C5, as stated: on the sample of its docstring [parse_vocab_table]
    removes the tag between the two senses and puts no comma. *)
Lemma table_tag_deleted :
  parse_vocab_table sample_senses
  = [mkVocabItem 51 (lit "empty") (lit "비어 있는 비우다") (Some (lit "a, v"))]
  /\ map meaning (parse_vocab_table sample_senses)
     <> [lit "비어 있는, 비우다"]
  /\ map meaning (parse_vocab_simple sample_senses)
     <> [lit "비어 있는, 비우다"].
Proof.
  split; [vm_compute; reflexivity|]. split; vm_compute; discriminate.
Qed.

(** *** The merge *)

Section SortedFacts.
Context {A : Type} (key : A -> Z).

Lemma insert_sorted_In x l y :
  In y (insert_sorted key x l) <-> y = x \/ In y l.
Proof.
  induction l as [|z l IH]; cbn.
  - intuition.
  - destruct (key x <=? key z); cbn; [intuition|].
    rewrite IH. intuition.
Qed.

Lemma sorted_In l y : In y (sorted key l) <-> In y l.
Proof.
  induction l as [|x l IH]; cbn; [reflexivity|].
  rewrite insert_sorted_In, IH. intuition.
Qed.

Lemma insert_sorted_Permutation x l : insert_sorted key x l ≡ₚ x :: l.
Proof.
  induction l as [|z l IH]; cbn; [reflexivity|].
  destruct (key x <=? key z); [reflexivity|].
  rewrite IH. apply Permutation_swap.
Qed.

Lemma sorted_Permutation l : sorted key l ≡ₚ l.
Proof.
  induction l as [|x l IH]; cbn; [reflexivity|].
  rewrite insert_sorted_Permutation, IH. reflexivity.
Qed.

Lemma insert_sorted_StronglySorted x l :
  StronglySorted (key_le key) l -> StronglySorted (key_le key) (insert_sorted key x l).
Proof.
  induction l as [|z l IH]; intros Hl; cbn.
  - constructor; constructor.
  - inversion Hl as [|? ? Hl' Hz]; subst.
    destruct (Z.leb_spec (key x) (key z)) as [Hle|Hgt].
    + constructor; [exact Hl|].
      constructor; [exact Hle|].
      eapply List.Forall_impl; [|exact Hz].
      unfold key_le. intros a Ha. lia.
    + constructor; [auto|].
      apply List.Forall_forall. intros a Ha.
      apply insert_sorted_In in Ha as [->|Ha].
      * unfold key_le. lia.
      * rewrite List.Forall_forall in Hz. auto.
Qed.

Lemma sorted_StronglySorted l : StronglySorted (key_le key) (sorted key l).
Proof.
  induction l as [|x l IH]; cbn; [constructor|].
  apply insert_sorted_StronglySorted, IH.
Qed.

(** Stability: the entries of one key keep their order. *)
Lemma insert_sorted_stable k x l :
  List.filter (fun a => key a =? k) (insert_sorted key x l)
  = List.filter (fun a => key a =? k) (x :: l).
Proof.
  induction l as [|z l IH]; [reflexivity|].
  cbn [insert_sorted].
  destruct (Z.leb_spec (key x) (key z)) as [Hle|Hgt]; [reflexivity|].
  cbn [List.filter] in *. rewrite IH.
  destruct (Z.eqb_spec (key z) k), (Z.eqb_spec (key x) k);
    try reflexivity. lia.
Qed.

Lemma sorted_stable k l :
  List.filter (fun a => key a =? k) (sorted key l)
  = List.filter (fun a => key a =? k) l.
Proof.
  induction l as [|x l IH]; [reflexivity|].
  cbn [sorted]. rewrite insert_sorted_stable. cbn [List.filter].
  rewrite IH. reflexivity.
Qed.

Lemma find_head_filter (p : A -> bool) l :
  List.find p l = head (List.filter p l).
Proof.
  induction l as [|x l IH]; [reflexivity|].
  cbn. destruct (p x); [reflexivity|exact IH].
Qed.

(** The first entry of a key is the same before and after the sort. *)
Lemma sorted_find k l :
  List.find (fun a => key a =? k) (sorted key l)
  = List.find (fun a => key a =? k) l.
Proof. rewrite !find_head_filter, sorted_stable. reflexivity. Qed.
(** The result of a stable sort is determined: two lists in ascending
    order of key with the same entries of each key, in the same order, are
    equal.  So [sorted] is the list Python's sort returns, whatever its
    algorithm. *)
Lemma stable_sort_unique l1 l2 :
  StronglySorted (key_le key) l1 -> StronglySorted (key_le key) l2 ->
  (forall k, List.filter (fun a => key a =? k) l1
             = List.filter (fun a => key a =? k) l2) ->
  l1 = l2.
Proof.
  intros H1. revert l2.
  induction H1 as [|x l1 H1 IH Hx]; intros l2 H2 Hf.
  - destruct l2 as [|y l2]; [reflexivity|].
    specialize (Hf (key y)). cbn in Hf. rewrite Z.eqb_refl in Hf.
    discriminate.
  - destruct H2 as [|y l2 H2 Hy].
    + specialize (Hf (key x)). cbn in Hf. rewrite Z.eqb_refl in Hf.
      discriminate.
    + assert (Hxy : key x = key y).
      { pose proof (Hf (key x)) as Fx. pose proof (Hf (key y)) as Fy.
        cbn in Fx, Fy. rewrite Z.eqb_refl in Fx, Fy.
        destruct (Z.eqb_spec (key y) (key x)) as [|Hne]; [congruence|].
        destruct (Z.eqb_spec (key x) (key y)) as [|_]; [congruence|].
        assert (Hin2 : In x l2).
        { eapply (proj1 (filter_In _ x l2)). rewrite <- Fx. left.
          reflexivity. }
        assert (Hin1 : In y l1).
        { eapply (proj1 (filter_In _ y l1)). rewrite Fy. left.
          reflexivity. }
        rewrite List.Forall_forall in Hx, Hy.
        specialize (Hx y Hin1). specialize (Hy x Hin2).
        unfold key_le in Hx, Hy. lia. }
      pose proof (Hf (key x)) as Fx. cbn in Fx.
      rewrite <- Hxy, Z.eqb_refl in Fx. injection Fx as -> Fx.
      f_equal. apply IH; [exact H2|]. intros k. specialize (Hf k).
      cbn in Hf. destruct (key y =? k); [injection Hf as Hf|]; exact Hf.
Qed.
End SortedFacts.

Lemma fold_dedup_step l seen unique_list :
  snd (fold_left dedup_step l (seen, unique_list))
  = unique_list ++ keep_first seen l.
Proof.
  revert seen unique_list.
  induction l as [|item l IH]; intros seen unique_list; cbn.
  - rewrite app_nil_r. reflexivity.
  - destruct (decide (number item ∈ seen)); [apply IH|].
    rewrite IH, <- app_assoc. reflexivity.
Qed.

Lemma keep_first_In seen l e :
  In e (keep_first seen l)
  <-> (number e ∉ seen)
      /\ List.find (fun x => number x =? number e) l = Some e.
Proof.
  revert seen. induction l as [|item l IH]; intros seen; cbn.
  - split; [intros []|intros [_ Hf]; discriminate].
  - destruct (decide (number item ∈ seen)) as [Hin|Hout].
    + rewrite IH.
      destruct (Z.eqb_spec (number item) (number e)) as [Heq|Hne].
      * rewrite Heq in Hin. split; intros [Hs _]; contradiction.
      * reflexivity.
    + cbn. rewrite IH.
      destruct (Z.eqb_spec (number item) (number e)) as [Heq|Hne].
      * split.
        -- intros [->|[Hs _]]; [auto|]. exfalso. apply Hs.
           apply elem_of_union_r, elem_of_singleton. congruence.
        -- intros [_ Hf]. left. congruence.
      * split.
        -- intros [->|[Hs Hf]]; [congruence|].
           split; [|exact Hf]. intros Hin. apply Hs.
           apply elem_of_union_l, Hin.
        -- intros [Hs Hf]. right. split; [|exact Hf].
           rewrite elem_of_union, elem_of_singleton. intros [Hin|Heq].
           ++ contradiction.
           ++ congruence.
Qed.

Lemma keep_first_increasing seen l :
  StronglySorted (key_le number) l ->
  StronglySorted (fun a b => number a < number b) (keep_first seen l).
Proof.
  intros Hl. revert seen.
  induction Hl as [|item l Hl IH Hitem]; intros seen; cbn.
  - constructor.
  - destruct (decide (number item ∈ seen)); [apply IH|].
    constructor; [apply IH|].
    apply List.Forall_forall. intros e He.
    apply keep_first_In in He as [Hs Hf].
    apply List.find_some in Hf as [Hin _].
    rewrite List.Forall_forall in Hitem. specialize (Hitem e Hin).
    unfold key_le in Hitem.
    assert (number e <> number item).
    { intros Heq. apply Hs, elem_of_union_r, elem_of_singleton, Heq. }
    lia.
Qed.

Lemma StronglySorted_adjacent {A} (R : A -> A -> Prop) (l : list A) i a b :
  StronglySorted R l -> l !! i = Some a -> l !! S i = Some b -> R a b.
Proof.
  intros Hl. revert i.
  induction Hl as [|x l Hl IH Hx]; intros i Ha Hb; [discriminate|].
  destruct i as [|i]; cbn in *.
  - injection Ha as ->. rewrite List.Forall_forall in Hx. apply Hx.
    destruct l; [discriminate|]. injection Hb as ->. left. reflexivity.
  - eapply IH; eassumption.
Qed.

(** C2. The merge of a sequence of lists.  The sort of their concatenation
    is a permutation of it in ascending order of number, in which the
    entries of one number keep the order of the concatenation.  The result
    holds exactly the entries that are the first of their number in the
    concatenation; its numbers increase strictly, so they are unique and
    [output[i].number <= output[i+1].number]; and merging the lists of the
    entries 5 "a" and 5 "b" leaves 5 "a". *)
Theorem merge_postcondition (lists : list (list VocabItem)) :
  let all := concat lists in
  let ordered := sorted number all in
  let output := merge lists in
  (ordered ≡ₚ all
   /\ StronglySorted (fun a b => number a <= number b) ordered
   /\ forall k, List.filter (fun e => number e =? k) ordered
                = List.filter (fun e => number e =? k) all)
  /\ (forall e, In e output
                <-> List.find (fun x => number x =? number e) all = Some e)
  /\ StronglySorted (fun a b => number a < number b) output
  /\ NoDup (map number output)
  /\ (forall i a b, output !! i = Some a -> output !! S i = Some b ->
                    number a <= number b)
  /\ merge [[VocabItem3 5 (lit "a") []]; [VocabItem3 5 (lit "b") []]]
     = [VocabItem3 5 (lit "a") []].
Proof.
  intros all ordered output.
  assert (Hout : output = keep_first ∅ ordered).
  { unfold output, merge. cbv zeta. rewrite fold_dedup_step. reflexivity. }
  assert (Hinc : StronglySorted (fun a b => number a < number b) output).
  { rewrite Hout. apply keep_first_increasing, sorted_StronglySorted. }
  split; [split; [|split]|split; [|split; [|split; [|split]]]].
  - apply sorted_Permutation.
  - apply (sorted_StronglySorted number).
  - intros k. apply sorted_stable.
  - intros e. rewrite Hout, keep_first_In.
    unfold ordered. rewrite (sorted_find number).
    split; [intros [_ Hf]; exact Hf|].
    intros Hf. split; [apply not_elem_of_empty|exact Hf].
  - exact Hinc.
  - clear Hout. induction Hinc as [|e l Hl IH He]; cbn; constructor.
    + rewrite list_elem_of_In, in_map_iff. intros [e' [Hn Hin]].
      rewrite List.Forall_forall in He. specialize (He e' Hin).
      cbn beta in He. lia.
    + exact IH.
  - intros i a b Ha Hb.
    pose proof (StronglySorted_adjacent _ _ _ _ _ Hinc Ha Hb) as Hab.
    cbn beta in Hab. lia.
  - vm_compute. reflexivity.
Qed.

(** *** Orientation *)

Section OrientationFacts.
Context {U : UnicodeData} {E : OcrEngine}.

(** C6. When the orientation detection of the engine fails, the corrector
    reads the reduced image and the reduced image turned by 180 degrees,
    counts in each text the matches of the pattern of two letters or
    more, and returns the image turned by 180 degrees when the second
    count is more than 1.5 times the first, the image itself when it is
    not. *)
Theorem orientation_heuristic (img : Image) (text_original text_rotated : str) :
  HAS_OCR = true ->
  image_to_osd img = None ->
  image_to_string (thumbnail img) = Some text_original ->
  image_to_string (rotate 180 false (thumbnail img)) = Some text_rotated ->
  let original := inject_Z (Z.of_nat (english_words text_original)) in
  let rotated := inject_Z (Z.of_nat (english_words text_rotated)) in
  fst (detect_and_fix_orientation img)
  = [CallOsd img; CallOcr (thumbnail img);
     CallOcr (rotate 180 false (thumbnail img))]
  /\ ((original * (3 # 2) < rotated)%Q ->
      snd (detect_and_fix_orientation img) = rotate 180 false img)
  /\ (~ (original * (3 # 2) < rotated)%Q ->
      snd (detect_and_fix_orientation img) = img).
Proof.
  intros Hocr Hosd Ho Hr original rotated.
  unfold detect_and_fix_orientation.
  rewrite Hocr, Hosd, Ho, Hr. cbn [negb fst snd].
  split; [reflexivity|].
  unfold exceeds_by_half. fold original rotated.
  destruct (Qle_bool rotated (original * (3 # 2))) eqn:Hle; cbn [negb].
  - apply Qle_bool_iff in Hle. split; [|reflexivity].
    intros Hlt. exfalso. apply (Qlt_not_le _ _ Hlt Hle).
  - split; [reflexivity|]. intros Hn. exfalso. apply Hn.
    apply Qnot_le_lt. intros Hle'. apply Qle_bool_iff in Hle'.
    congruence.
Qed.

(** C7, as amended.  A rotation [r] other than 0 given by the caller is
    applied as it is, with no call to the engine; 0 is the value that asks
    for the automatic correction. *)
Theorem forced_rotation (r : Z) (img : Image) :
  r <> 0 ->
  rotate_page r img = ([], rotate (- r) true img)
  /\ rotate_page 0 img = detect_and_fix_orientation img.
Proof.
  intros Hr. unfold rotate_page.
  destruct (Z.eqb_spec r 0) as [->|_]; [congruence|].
  split; reflexivity.
Qed.
End OrientationFacts.

(** An upside-down page: no word read as it is, three when turned. *)
Lemma orientation_heuristic_witness :
  detect_and_fix_orientation (U := plain_unicode) (E := angle_engine) 180
  = ([@CallOsd angle_engine 180; @CallOcr angle_engine 180;
      @CallOcr angle_engine 0], 0).
Proof.
  pose proof (orientation_heuristic (U := plain_unicode) (E := angle_engine)
                180 (lit "! ~ ;") (lit "one two three")
                eq_refl eq_refl eq_refl eq_refl) as [Hcalls [Hturn _]].
  apply injective_projections; cbn [fst snd].
  - rewrite Hcalls. reflexivity.
  - rewrite Hturn; [reflexivity|]. vm_compute. reflexivity.
Defined.

Lemma forced_rotation_witness :
  rotate_page (U := plain_unicode) (E := osd_engine) 90 180 = ([], 90).
Proof.
  destruct (forced_rotation (U := plain_unicode) (E := osd_engine) 90 180)
    as [Hr _]; [lia|].
  rewrite Hr. reflexivity.
Defined.

(** C7, as stated: with the rotation 0, the detection of the engine runs
    and the upside-down page is turned. *)
Lemma forced_rotation_zero_detects :
  rotate_page (U := plain_unicode) (E := osd_engine) 0 180
  = ([@CallOsd osd_engine 180], 0)
  /\ rotate_page (U := plain_unicode) (E := osd_engine) 0 180
     <> ([], @rotate osd_engine (- 0) true 180).
Proof. split; [reflexivity|discriminate]. Qed.

(** *** The line formats of [load_vocab_from_text] *)

Section CsvFacts.
Context `{UnicodeData}.

Lemma csv_loop_imap lines i acc :
  csv_loop i lines acc
  = acc ++ concat (imap (fun j => csv_line (i + j)) lines).
Proof.
  revert i acc. induction lines as [|line rest IH]; intros i acc.
  - cbn. rewrite app_nil_r. reflexivity.
  - cbn [csv_loop]. rewrite IH, imap_cons. cbn [concat].
    rewrite Nat.add_0_r, <- app_assoc. do 3 f_equal.
    apply imap_ext. intros j x _. cbn. f_equal. lia.
Qed.

(** C9. The second part of the loader goes through the lines one by one,
    each line giving its entries by itself, in order.  For the line of
    index [i] (from 0): with three fields of which the first is no
    integer, the number is [i + 1]; with two fields, the number is
    [i + 1]; a line that is empty or starts with [#] gives nothing.  An
    entry needs a word and a meaning that are not empty.  The function is
    total: the failure of [int] does not leave it. *)
Theorem csv_fallback_numbers (text : str) (i : nat) (raw : str) :
  split_on NL text !! i = Some raw ->
  csv_fallback text = concat (imap csv_line (split_on NL text))
  /\ (forall p0 p1 p2 more,
        strip raw <> [] -> startswith HASH (strip raw) = false ->
        split_max COMMA 2 (strip raw) = p0 :: p1 :: p2 :: more ->
        py_int p0 = None ->
        csv_line i raw
        = if nonempty (strip p1) && nonempty (strip p2)
          then [VocabItem3 (Z.of_nat i + 1) (strip p1) (strip p2)] else [])
  /\ (forall p0 p1,
        strip raw <> [] -> startswith HASH (strip raw) = false ->
        split_max COMMA 2 (strip raw) = [p0; p1] ->
        csv_line i raw
        = if nonempty (strip p0) && nonempty (strip p1)
          then [VocabItem3 (Z.of_nat i + 1) (strip p0) (strip p1)] else [])
  /\ (strip raw = [] \/ startswith HASH (strip raw) = true ->
      csv_line i raw = []).
Proof.
  intros _. split; [|split; [|split]].
  - unfold csv_fallback. rewrite csv_loop_imap. reflexivity.
  - intros p0 p1 p2 more Hne Hc Hs Hint. unfold csv_line.
    destruct (strip raw) as [|c l] eqn:E; [congruence|].
    cbn [nonempty negb orb]. rewrite Hc, Hs, Hint. reflexivity.
  - intros p0 p1 Hne Hc Hs. unfold csv_line.
    destruct (strip raw) as [|c l] eqn:E; [congruence|].
    cbn [nonempty negb orb]. rewrite Hc, Hs. reflexivity.
  - intros [He|Hc]; unfold csv_line.
    + rewrite He. reflexivity.
    + rewrite Hc, orb_true_r. reflexivity.
Qed.
End CsvFacts.

Lemma csv_fallback_numbers_witness :
  load_vocab_from_text sample_csv
  = [VocabItem3 1 (lit "apple") (lit "사과");
     VocabItem3 4 (lit "banana") (lit "바나나")]
  /\ csv_line 0 (lit "x,apple,사과") = [VocabItem3 1 (lit "apple") (lit "사과")]
  /\ csv_line 3 (lit "banana,바나나")
     = [VocabItem3 4 (lit "banana") (lit "바나나")]
  /\ csv_line 1 (lit "# fruit") = [] /\ csv_line 2 (lit "") = [].
Proof.
  destruct (csv_fallback_numbers sample_csv 0 (lit "x,apple,사과") eq_refl)
    as [Hall [H3 _]].
  destruct (csv_fallback_numbers sample_csv 3 (lit "banana,바나나") eq_refl)
    as [_ [_ [H2 _]]].
  destruct (csv_fallback_numbers sample_csv 1 (lit "# fruit") eq_refl)
    as [_ [_ [_ Hc]]].
  destruct (csv_fallback_numbers sample_csv 2 (lit "") eq_refl)
    as [_ [_ [_ He]]].
  split; [|split; [|split; [|split]]].
  - change (load_vocab_from_text sample_csv) with (csv_fallback sample_csv).
    rewrite Hall. vm_compute. reflexivity.
  - rewrite (H3 (lit "x") (lit "apple") (lit "사과") []);
      [reflexivity | vm_compute; discriminate | reflexivity..].
  - rewrite (H2 (lit "banana") (lit "바나나"));
      [reflexivity | vm_compute; discriminate | reflexivity..].
  - apply Hc. right. reflexivity.
  - apply He. left. reflexivity.
Defined.

(** ** Further properties *)

(** *** The matcher and the language of a pattern *)

(** A match takes a text of the language of its pattern from the front of
    the input, goes on with what follows, and leaves the groups alone that
    the pattern does not set. *)
Lemma run_sound r k st res :
  run r k st = Some res ->
  exists w st',
    ms_rest st = w ++ ms_rest st' /\ lang r w /\ k st' = Some res
    /\ forall i, ~ In i (captures r) ->
                 group i (ms_caps st') = group i (ms_caps st).
Proof.
  revert k st. induction r as [|p|greedy lo p|r1 IH1|r1 IH1 r2 IH2
                               |r1 IH1 r2 IH2|j r1 IH1| |ml|w0|r1 IH1];
    intros k st; cbn [run captures lang].
  - intros Hk. exists [], st. auto.
  - destruct (ms_rest st) as [|c s]; [discriminate|].
    destruct (p c) eqn:Hc; [|discriminate]. intros Hk.
    exists [c], (MState (Some c) s (ms_caps st)). cbn [ms_rest ms_caps].
    split; [reflexivity|]. split; [eauto|]. auto.
  - destruct greedy; intros Hrep;
      [apply rep_greedy_inv in Hrep|apply rep_lazy_inv in Hrep];
      destruct Hrep as (ws & rest & prev' & Hs & Hws & Hlo & Hk);
      exists ws, (MState prev' rest (ms_caps st)); cbn [ms_rest ms_caps];
      auto.
  - destruct (run r1 k st) as [st1|] eqn:H1.
    + intros [= ->]. apply IH1 in H1 as (w & st' & Hs & Hl & Hk & F).
      exists w, st'. auto.
    + intros Hk. exists [], st. auto.
  - intros H1. apply IH1 in H1 as (w1 & st1 & Hs1 & Hl1 & H2 & F1).
    apply IH2 in H2 as (w2 & st2 & Hs2 & Hl2 & Hk & F2).
    exists (w1 ++ w2), st2. rewrite Hs1, Hs2, app_assoc.
    split; [reflexivity|]. split; [eauto|]. split; [exact Hk|].
    intros i Hi. rewrite F2, F1; [reflexivity|..];
      intros Hin; apply Hi, in_app_iff; auto.
  - destruct (run r1 k st) as [st1|] eqn:H1.
    + intros [= ->]. apply IH1 in H1 as (w & st' & Hs & Hl & Hk & F).
      exists w, st'. split; [exact Hs|]. split; [auto|].
      split; [exact Hk|]. intros i Hi. apply F.
      intros Hin. apply Hi, in_app_iff. auto.
    + intros H2. apply IH2 in H2 as (w & st' & Hs & Hl & Hk & F).
      exists w, st'. split; [exact Hs|]. split; [auto|].
      split; [exact Hk|]. intros i Hi. apply F.
      intros Hin. apply Hi, in_app_iff. auto.
  - intros H1. apply IH1 in H1 as (w & st1 & Hs & Hl & Hk & F).
    eexists w, _. split; [|split; [exact Hl|split; [exact Hk|]]].
    + exact Hs.
    + intros i Hi. cbn [ms_caps group].
      destruct (Nat.eqb_spec i j) as [->|_]; [exfalso; apply Hi; left; auto|].
      apply F. intros Hin. apply Hi. right. exact Hin.
  - destruct (ms_prev st); [discriminate|]. intros Hk. exists [], st. auto.
  - destruct (at_eol ml (ms_rest st)); [|discriminate].
    intros Hk. exists [], st. auto.
  - destruct (xorb _ _); [|discriminate]. intros Hk. exists [], st. auto.
  - destruct (run r1 Some st); [|discriminate]. intros Hk.
    exists [], st. auto.
Qed.

(** The same for a pattern in front of another. *)
Lemma run_cat r1 r2 k st res :
  run (r1 >> r2) k st = Some res ->
  exists w st',
    ms_rest st = w ++ ms_rest st' /\ lang r1 w /\ run r2 k st' = Some res
    /\ forall i, ~ In i (captures r1) ->
                 group i (ms_caps st') = group i (ms_caps st).
Proof. intros H. apply (run_sound r1 (run r2 k) st res H). Qed.

(** A group in front of a pattern: the text it takes is the text it
    records. *)
Lemma run_grp_cat i r1 r2 k st res :
  run (Grp i r1 >> r2) k st = Some res ->
  exists w st',
    ms_rest st = w ++ ms_rest st' /\ lang r1 w
    /\ group i (ms_caps st') = w
    /\ run r2 k st' = Some res
    /\ forall j, j <> i -> ~ In j (captures r1) ->
                 group j (ms_caps st') = group j (ms_caps st).
Proof.
  intros H. cbn [run] in H.
  apply run_sound in H as (w & st1 & Hs & Hl & Hk & F).
  rewrite Hs, taken_app in Hk.
  eexists w, _. split; [|split; [exact Hl|split; [|split; [exact Hk|]]]].
  - exact Hs.
  - cbn [ms_caps group]. rewrite Nat.eqb_refl. reflexivity.
  - intros j Hj Hc. cbn [ms_caps group].
    destruct (Nat.eqb_spec j i); [congruence|]. apply F, Hc.
Qed.

(** A group at the end of a pattern. *)
Lemma run_grp_last i r1 st res :
  run (Grp i r1) Some st = Some res ->
  exists w,
    ms_rest st = w ++ ms_rest res /\ lang r1 w
    /\ group i (ms_caps res) = w
    /\ forall j, j <> i -> ~ In j (captures r1) ->
                 group j (ms_caps res) = group j (ms_caps st).
Proof.
  intros H. cbn [run] in H.
  apply run_sound in H as (w & st1 & Hs & Hl & [= <-] & F).
  rewrite Hs, taken_app. cbn [ms_rest ms_caps group].
  exists w. rewrite Nat.eqb_refl. repeat split; auto.
  intros j Hj Hc. destruct (Nat.eqb_spec j i); [congruence|]. apply F, Hc.
Qed.

(** The last pattern of a sequence. *)
Lemma run_last r st res :
  run r Some st = Some res ->
  exists w,
    ms_rest st = w ++ ms_rest res /\ lang r w
    /\ forall i, ~ In i (captures r) ->
                 group i (ms_caps res) = group i (ms_caps st).
Proof.
  intros H. apply run_sound in H as (w & st' & Hs & Hl & [= ->] & F).
  exists w. auto.
Qed.

(** *** Facts on [strip] *)

Lemma lstrip_In c s : In c s -> isspace c = false -> In c (lstrip s).
Proof.
  induction s as [|a s IH]; [intros []|].
  intros [->|Hin] Hc; cbn [lstrip].
  - rewrite Hc. left. reflexivity.
  - destruct (isspace a); [auto|]. right. exact Hin.
Qed.

Lemma lstrip_incl c s : In c (lstrip s) -> In c s.
Proof.
  induction s as [|a s IH]; [intros []|]. cbn [lstrip].
  destruct (isspace a); [|auto]. intros Hin. right. auto.
Qed.

Lemma strip_In c s : In c s -> isspace c = false -> In c (strip s).
Proof.
  intros Hin Hc. unfold strip, rstrip.
  apply (proj1 (in_rev _ c)), lstrip_In; [|exact Hc].
  apply (proj1 (in_rev _ c)), lstrip_In; assumption.
Qed.

Lemma strip_incl c s : In c (strip s) -> In c s.
Proof.
  unfold strip, rstrip. intros Hin.
  apply (proj2 (in_rev _ c)) in Hin. apply lstrip_incl in Hin.
  apply (proj2 (in_rev _ c)) in Hin. apply lstrip_incl, Hin.
Qed.

Lemma lstrip_id s : starts_without isspace s -> lstrip s = s.
Proof. destruct s as [|c s]; cbn; [reflexivity|]. intros ->. reflexivity. Qed.

(** A text without blanks is left as it is. *)
Lemma strip_id s : Forall (fun c => isspace c = false) s -> strip s = s.
Proof.
  intros Hs. unfold strip, rstrip.
  rewrite (lstrip_id s) by (destruct Hs; cbn; auto).
  rewrite lstrip_id, rev_involutive; [reflexivity|].
  destruct (rev s) as [|c r] eqn:Hr; cbn; [exact I|].
  rewrite List.Forall_forall in Hs. apply Hs, (proj2 (in_rev _ c)).
  rewrite Hr. left. reflexivity.
Qed.

Lemma nonempty_true {A} (l : list A) : nonempty l = true <-> l <> [].
Proof. destruct l; cbn; split; congruence. Qed.

Lemma has_char_nonempty q s : has_char q s -> s <> [].
Proof. intros (c & Hin & _) ->. destruct Hin. Qed.

(** [re.search] with the pattern of one class. *)
Lemma search_cls p s : re_search (Cls p) s = true <-> has_char p s.
Proof.
  unfold re_search, has_char. generalize (@None char) as prev.
  induction s as [|c s IH]; intros prev; cbn [pieces].
  - cbn. split; [discriminate|]. intros (c & [] & _).
  - unfold match_at. cbn [run ms_rest ms_caps]. destruct (p c) eqn:Hc.
    + cbn. split; [|reflexivity]. intros _. exists c. split; [left|]; auto.
    + cbn [has_hit existsb orb]. fold (has_hit (pieces (Cls p) 0 (Some c) s)).
      rewrite IH. split.
      * intros (a & Hin & Ha). exists a. split; [right|]; auto.
      * intros (a & [->|Hin] & Ha); [congruence|]. exists a. auto.
Qed.

(** *** Word shapes *)

Lemma letter_not_space c : is_letter c = true -> isspace c = false.
Proof.
  unfold is_letter, isspace, in_range.
  rewrite orb_true_iff, !andb_true_iff, !Z.leb_le. intros H.
  repeat (apply orb_false_intro); rewrite ?andb_false_iff, ?Z.leb_gt, ?Z.eqb_neq;
    lia.
Qed.

Lemma word_tail_not_space c : is_word_tail c = true -> isspace c = false.
Proof.
  unfold is_word_tail. rewrite orb_true_iff, Z.eqb_eq.
  intros [H| ->]; [apply letter_not_space, H|reflexivity].
Qed.

Lemma lang_word w :
  lang (Cls is_letter >> star is_word_tail) w -> word_shape w.
Proof.
  cbn [lang star].
  intros (w1 & w2 & -> & (c & -> & Hc) & Ht & _). exists c, w2. auto.
Qed.

Lemma word_shape_no_space w :
  word_shape w -> Forall (fun c => isspace c = false) w.
Proof.
  intros (c & t & -> & Hc & Ht). constructor; [apply letter_not_space, Hc|].
  eapply List.Forall_impl; [|exact Ht]. apply word_tail_not_space.
Qed.

Lemma word_shape_strip w : word_shape w -> strip w = w.
Proof. intros Hw. apply strip_id, word_shape_no_space, Hw. Qed.

Lemma word_shape_nonempty w : word_shape w -> w <> [].
Proof. intros (c & t & -> & _). discriminate. Qed.

Ltac not_captured := cbn [captures app In plus star digits]; intuition lia.

Section GroupFacts.
Context `{UnicodeData}.

(** The groups of a match of the pattern of [parse_ocr_vocab_text]: a
    number, a word, and after them the rest of the line. *)
Lemma ocr_head_groups line st :
  re_match re_ocr_head line = Some st ->
  digit_string (group 1 (ms_caps st)) /\ word_shape (group 2 (ms_caps st)).
Proof.
  unfold re_match, match_at, re_ocr_head. intros H0.
  apply run_cat in H0 as (w0 & st0 & _ & _ & H0 & _).
  apply run_grp_cat in H0 as (w1 & st1 & _ & L1 & G1 & H0 & _).
  apply run_cat in H0 as (w2 & st2 & _ & _ & H0 & F2).
  apply run_cat in H0 as (w3 & st3 & _ & _ & H0 & F3).
  apply run_cat in H0 as (w4 & st4 & _ & _ & H0 & F4).
  apply run_grp_last in H0 as (w5 & _ & L5 & G5 & F5).
  split.
  - rewrite F5, F4, F3, F2, G1 by not_captured.
    destruct L1 as [L1 Hlen]. split; [|exact L1].
    destruct w1; [cbn in Hlen; lia|discriminate].
  - rewrite G5. apply lang_word, L5.
Qed.

Lemma digits_nonempty (w : str) :
  lang digits w -> digit_string w.
Proof.
  intros [L Hlen]. split; [|exact L].
  destruct w; [cbn in Hlen; lia|discriminate].
Qed.

(** The groups of a match of the pattern of a complete line of the
    scanner. *)
Lemma full_groups line st :
  re_match re_full line = Some st ->
  digit_string (group 1 (ms_caps st)) /\ word_shape (group 2 (ms_caps st)).
Proof.
  unfold re_match, match_at, re_full. intros H0.
  apply run_cat in H0 as (w0 & st0 & _ & _ & H0 & _).
  apply run_grp_cat in H0 as (w1 & st1 & _ & L1 & G1 & H0 & _).
  apply run_cat in H0 as (w2 & st2 & _ & _ & H0 & F2).
  apply run_cat in H0 as (w3 & st3 & _ & _ & H0 & F3).
  apply run_cat in H0 as (w4 & st4 & _ & _ & H0 & F4).
  apply run_grp_cat in H0 as (w5 & st5 & _ & L5 & G5 & H0 & F5).
  apply run_cat in H0 as (w6 & st6 & _ & _ & H0 & F6).
  apply run_grp_cat in H0 as (w7 & st7 & _ & L7 & G7 & H0 & F7).
  apply run_last in H0 as (w8 & _ & _ & F8).
  split.
  - rewrite F8, F7, F6, F5, F4, F3, F2, G1 by not_captured.
    apply digits_nonempty, L1.
  - rewrite F8, F7, F6, G5 by not_captured. apply lang_word, L5.
Qed.

Lemma num_word_groups line st :
  re_match re_num_word line = Some st ->
  digit_string (group 1 (ms_caps st)) /\ word_shape (group 2 (ms_caps st)).
Proof.
  unfold re_match, match_at, re_num_word. intros H0.
  apply run_cat in H0 as (w0 & st0 & _ & _ & H0 & _).
  apply run_grp_cat in H0 as (w1 & st1 & _ & L1 & G1 & H0 & _).
  apply run_cat in H0 as (w2 & st2 & _ & _ & H0 & F2).
  apply run_cat in H0 as (w3 & st3 & _ & _ & H0 & F3).
  apply run_cat in H0 as (w4 & st4 & _ & _ & H0 & F4).
  apply run_grp_cat in H0 as (w5 & st5 & _ & L5 & G5 & H0 & F5).
  apply run_last in H0 as (w8 & _ & _ & F8).
  split.
  - rewrite F8, F5, F4, F3, F2, G1 by not_captured.
    apply digits_nonempty, L1.
  - rewrite F8, G5 by not_captured. apply lang_word, L5.
Qed.

(** The end of a line: nothing, or one newline. *)
Lemma at_eol_line s : at_eol false s = true -> s = [] \/ s = [NL].
Proof.
  destruct s as [|c [|c' s]]; cbn; auto.
  - rewrite andb_true_r, Z.eqb_eq. intros ->. auto.
  - rewrite andb_false_r. discriminate.
Qed.

Lemma strip_word_nl w : word_shape w -> strip (w ++ [NL]) = w.
Proof.
  intros Hw. pose proof (word_shape_no_space w Hw) as Hs.
  unfold strip, rstrip.
  rewrite (lstrip_id (w ++ [NL]))
    by (destruct Hw as (c & t & -> & Hc & _); cbn;
        apply letter_not_space, Hc).
  rewrite rev_app_distr. cbn [rev app lstrip].
  change (isspace NL) with true. cbn iota.
  rewrite lstrip_id, rev_involutive; [reflexivity|].
  destruct (rev w) as [|c r] eqn:Hr; cbn; [exact I|].
  rewrite List.Forall_forall in Hs. apply Hs, (proj2 (in_rev _ c)).
  rewrite Hr. left. reflexivity.
Qed.

(** A line that is a bare word gives a word. *)
Lemma bare_word_shape line st :
  re_match re_bare_word line = Some st -> word_shape (strip line).
Proof.
  unfold re_match, match_at, re_bare_word. intros H0.
  apply run_cat in H0 as (w0 & st0 & Hs0 & L0 & H0 & _).
  cbn [lang] in L0. subst w0. cbn [ms_rest app] in Hs0.
  assert (Hw : exists w st1, ms_rest st0 = w ++ ms_rest st1
                             /\ word_shape w
                             /\ run (Eol false) Some st1 = Some st).
  { change (run (Cls is_letter >> star is_word_tail >> Eol false) Some st0)
      with (run ((Cls is_letter >> star is_word_tail) >> Eol false) Some st0)
      in H0.
    apply run_cat in H0 as (w & st1 & Hs1 & L1 & H0 & _).
    exists w, st1. split; [exact Hs1|]. split; [apply lang_word, L1|exact H0]. }
  destruct Hw as (w & st1 & Hs1 & Hw & H1).
  cbn [run] in H1. destruct (at_eol false (ms_rest st1)) eqn:He; [|discriminate].
  rewrite Hs0, Hs1. apply at_eol_line in He as [-> | ->].
  - rewrite app_nil_r, word_shape_strip; assumption.
  - rewrite strip_word_nl; assumption.
Qed.

(** The word of the first two patterns of [parse_vocab_simple] starts
    with a letter, and the meaning they take has a Hangul syllable. *)
Lemma lang_simple_word w :
  lang (Cls is_letter >> star is_word_tail
        >> Opt (star isspace >> Cls is_lparen >> plus not_rparen
                >> Cls is_rparen)) w ->
  starts_with_letter w.
Proof.
  cbn [lang]. intros (w1 & w2 & -> & (c & -> & Hc) & _).
  exists c, w2. auto.
Qed.

Lemma two_line_groups prev s st :
  match_at re_two_line prev s = Some st ->
  digit_string (group 1 (ms_caps st))
  /\ starts_with_letter (group 2 (ms_caps st))
  /\ has_char is_hangul (group 3 (ms_caps st)).
Proof.
  unfold match_at, re_two_line. intros H0.
  apply run_grp_cat in H0 as (w1 & st1 & _ & L1 & G1 & H0 & _).
  apply run_cat in H0 as (w2 & st2 & _ & _ & H0 & F2).
  apply run_cat in H0 as (w3 & st3 & _ & _ & H0 & F3).
  apply run_cat in H0 as (w4 & st4 & _ & _ & H0 & F4).
  apply run_grp_cat in H0 as (w5 & st5 & _ & L5 & G5 & H0 & F5).
  apply run_cat in H0 as (w6 & st6 & _ & _ & H0 & F6).
  apply run_cat in H0 as (w7 & st7 & _ & _ & H0 & F7).
  apply run_cat in H0 as (w8 & st8 & _ & _ & H0 & F8).
  apply run_grp_cat in H0 as (w9 & st9 & _ & L9 & G9 & H0 & F9).
  apply run_last in H0 as (w10 & _ & _ & F10).
  split; [|split].
  - rewrite F10, F9, F8, F7, F6, F5, F4, F3, F2, G1 by not_captured.
    apply digits_nonempty, L1.
  - rewrite F10, F9, F8, F7, F6, G5 by not_captured.
    apply lang_simple_word, L5.
  - rewrite F10, G9 by not_captured.
    cbn [lang] in L9.
    destruct L9 as (a1 & a2 & -> & _ & (b1 & b2 & -> & _
                    & (c1 & c2 & -> & _ & (d1 & d2 & -> & (h & -> & Hh) & _)))).
    exists h. split; [|exact Hh].
    rewrite !in_app_iff. right. right. right. left. left. reflexivity.
Qed.

Lemma one_line_groups prev s st :
  match_at re_one_line prev s = Some st ->
  digit_string (group 1 (ms_caps st))
  /\ starts_with_letter (group 2 (ms_caps st))
  /\ has_char is_hangul (group 3 (ms_caps st)).
Proof.
  unfold match_at, re_one_line. intros H0.
  apply run_grp_cat in H0 as (w1 & st1 & _ & L1 & G1 & H0 & _).
  apply run_cat in H0 as (w2 & st2 & _ & _ & H0 & F2).
  apply run_cat in H0 as (w3 & st3 & _ & _ & H0 & F3).
  apply run_cat in H0 as (w4 & st4 & _ & _ & H0 & F4).
  apply run_grp_cat in H0 as (w5 & st5 & _ & L5 & G5 & H0 & F5).
  apply run_cat in H0 as (w6 & st6 & _ & _ & H0 & F6).
  apply run_grp_last in H0 as (w9 & _ & L9 & G9 & F9).
  split; [|split].
  - rewrite F9, F6, F5, F4, F3, F2, G1 by not_captured.
    apply digits_nonempty, L1.
  - rewrite F9, F6, G5 by not_captured.
    apply lang_simple_word, L5.
  - rewrite G9. cbn [lang] in L9.
    destruct L9 as (a1 & a2 & -> & _ & (b1 & b2 & -> & _
                    & (c1 & c2 & -> & _ & (d1 & d2 & -> & (h & -> & Hh) & _)))).
    exists h. split; [|exact Hh].
    rewrite !in_app_iff. right. right. right. left. left. reflexivity.
Qed.
End GroupFacts.

(** *** What a substitution keeps *)

Lemma match_at_lang r prev s st :
  match_at r prev s = Some st ->
  exists w, s = w ++ ms_rest st /\ lang r w /\ taken s (ms_rest st) = w.
Proof.
  intros H. apply run_last in H as (w & Hs & Hl & _). cbn [ms_rest] in Hs.
  exists w. split; [exact Hs|]. split; [exact Hl|].
  rewrite Hs at 1. apply taken_app.
Qed.

(** A character that no match of the pattern can hold stays in the text,
    whatever replaces the matches. *)
Lemma pieces_keep r q repl n prev s c :
  (forall w, lang r w -> Forall (fun a => q a = false) w) ->
  q c = true -> In c (drop n s) ->
  In c (rebuild repl (pieces r n prev s)).
Proof.
  intros Hr Hc. revert n prev.
  induction s as [|a s IH]; intros n prev Hin.
  - rewrite drop_nil in Hin. destruct Hin.
  - destruct n as [|n]; cbn [pieces]; [|apply IH, Hin].
    rewrite drop_0 in Hin.
    assert (Hlit : In c (rebuild repl (Lit a :: pieces r 0 (Some a) s))).
    { unfold rebuild. cbn [flat_map app]. destruct Hin as [->|Hin];
        [left; reflexivity|]. right. apply (IH 0%nat). exact Hin. }
    destruct (match_at r prev (a :: s)) as [st|] eqn:Hm; [|exact Hlit].
    apply match_at_lang in Hm as (w & Hs & Hl & ->).
    unfold rebuild. cbn [flat_map]. apply in_app_iff. right.
    destruct w as [|b w]; [exact Hlit|].
    injection Hs as <- Hs. apply IH.
    rewrite Hs, drop_app_length.
    rewrite Hs in Hin. destruct Hin as [->|Hin].
    + specialize (Hr _ Hl). inversion Hr; subst. congruence.
    + apply in_app_iff in Hin as [Hin|Hin]; [|exact Hin].
      specialize (Hr _ Hl). inversion Hr as [|? ? _ Hw]; subst.
      rewrite List.Forall_forall in Hw. specialize (Hw _ Hin). congruence.
Qed.

Lemma re_sub_keeps r q repl s :
  (forall w, lang r w -> Forall (fun a => q a = false) w) ->
  has_char q s -> has_char q (re_sub r repl s).
Proof.
  intros Hr (c & Hin & Hc). exists c. split; [|exact Hc].
  apply (pieces_keep r q repl 0 None s c Hr Hc). rewrite drop_0. exact Hin.
Qed.

Lemma hangul_not_space c : is_hangul c = true -> isspace c = false.
Proof.
  unfold is_hangul, isspace, in_range.
  rewrite andb_true_iff, !Z.leb_le. intros H.
  repeat (apply orb_false_intro); rewrite ?andb_false_iff, ?Z.leb_gt, ?Z.eqb_neq;
    lia.
Qed.

Lemma hangul_not_tag c : is_hangul c = true -> is_pos_tag c = false.
Proof.
  unfold is_hangul, is_pos_tag, in_range.
  rewrite andb_true_iff, !Z.leb_le. intros H.
  repeat (apply orb_false_intro); rewrite ?Z.eqb_neq; lia.
Qed.

Lemma hangul_not_dot c : is_hangul c = true -> is_dot c = false.
Proof.
  unfold is_hangul, is_dot, in_range, DOT.
  rewrite andb_true_iff, !Z.leb_le, Z.eqb_neq. lia.
Qed.

Lemma not_hangul_of (p : char -> bool) w :
  (forall c, is_hangul c = true -> p c = false) ->
  Forall (fun c => p c = true) w -> Forall (fun c => is_hangul c = false) w.
Proof.
  intros Hp Hw. eapply List.Forall_impl; [|exact Hw]. cbn. intros c Hc.
  destruct (is_hangul c) eqn:Hh; [|reflexivity].
  rewrite (Hp c Hh) in Hc. discriminate.
Qed.

(** No match of the two patterns of the tags holds a Hangul syllable. *)
Lemma lead_pos_no_hangul w :
  lang re_lead_pos w -> Forall (fun c => is_hangul c = false) w.
Proof.
  cbn [lang re_lead_pos star].
  intros (w0 & r0 & -> & -> & (w1 & r1 & -> & (t & -> & Ht)
          & (w2 & w3 & -> & (d & -> & Hd) & Hws & _))).
  cbn [app]. constructor.
  { destruct (is_hangul t) eqn:E; [|reflexivity].
    rewrite (hangul_not_tag t E) in Ht. discriminate. }
  constructor.
  { destruct (is_hangul d) eqn:E; [|reflexivity].
    rewrite (hangul_not_dot d E) in Hd. discriminate. }
  apply (not_hangul_of isspace); [apply hangul_not_space|exact Hws].
Qed.

Lemma mid_pos_no_hangul w :
  lang re_mid_pos w -> Forall (fun c => is_hangul c = false) w.
Proof.
  cbn [lang re_mid_pos star plus].
  intros (w0 & r0 & -> & [Hws0 _] & (w1 & r1 & -> & (t & -> & Ht)
          & (w2 & w3 & -> & (d & -> & Hd) & Hws & _))).
  apply Forall_app. split.
  { apply (not_hangul_of isspace); [apply hangul_not_space|exact Hws0]. }
  cbn [app]. constructor.
  { destruct (is_hangul t) eqn:E; [|reflexivity].
    rewrite (hangul_not_tag t E) in Ht. discriminate. }
  constructor.
  { destruct (is_hangul d) eqn:E; [|reflexivity].
    rewrite (hangul_not_dot d E) in Hd. discriminate. }
  apply (not_hangul_of isspace); [apply hangul_not_space|exact Hws].
Qed.

(** Collapsing the blanks keeps every other character. *)
Lemma cons_word_In c a ws :
  In c (concat ws) \/ c = a -> In c (concat (cons_word a ws)).
Proof.
  destruct ws as [|w ws]; cbn.
  - intros [[]| ->]. left. reflexivity.
  - intros [Hin| ->]; [right; exact Hin|left; reflexivity].
Qed.

Lemma split_ws_In c s :
  In c s -> isspace c = false -> In c (concat (split_ws s)).
Proof.
  intros Hin Hc. induction s as [|a s IH]; [destruct Hin|].
  cbn [split_ws]. destruct Hin as [->|Hin].
  - rewrite Hc. destruct s as [|b s]; [left; reflexivity|].
    destruct (isspace b); [left; reflexivity|].
    apply cons_word_In. right. reflexivity.
  - specialize (IH Hin). destruct (isspace a); [exact IH|].
    destruct s as [|b s]; [destruct Hin|].
    destruct (isspace b); [right; exact IH|].
    apply cons_word_In. left. exact IH.
Qed.

Lemma join_In c sep ws : In c (concat ws) -> In c (join sep ws).
Proof.
  induction ws as [|w ws IH]; [intros []|].
  cbn [concat join]. rewrite in_app_iff. intros [Hin|Hin].
  - destruct ws; [exact Hin|]. apply in_app_iff. left. exact Hin.
  - destruct ws as [|w' ws]; [destruct Hin|].
    apply in_app_iff. right. apply in_app_iff. right. apply IH, Hin.
Qed.

Lemma collapse_keeps q s :
  (forall c, q c = true -> isspace c = false) ->
  has_char q s -> has_char q (join [SP] (split_ws s)).
Proof.
  intros Hq (c & Hin & Hc). exists c. split; [|exact Hc].
  apply join_In, split_ws_In; auto.
Qed.

Lemma strip_keeps q s :
  (forall c, q c = true -> isspace c = false) ->
  has_char q s -> has_char q (strip s).
Proof.
  intros Hq (c & Hin & Hc). exists c. split; [|exact Hc].
  apply strip_In; auto.
Qed.

(** The meaning [parse_ocr_vocab_text] makes of a line with a Hangul
    syllable has one. *)
Lemma ocr_meaning_hangul raw :
  has_char is_hangul raw -> has_char is_hangul (ocr_meaning raw).
Proof.
  intros Hraw. unfold ocr_meaning.
  apply collapse_keeps; [apply hangul_not_space|].
  apply re_sub_keeps; [apply mid_pos_no_hangul|].
  apply re_sub_keeps; [apply lead_pos_no_hangul|exact Hraw].
Qed.

(** *** The entries of the parsers *)

Section EntryFacts.
Context `{UnicodeData}.

(** What holds of the entries of every turn holds of the entries of the
    loop of [parse_ocr_vocab_text]. *)
Lemma ocr_loop_all (P : VocabItem -> Prop) :
  (forall line next e, In e (fst (ocr_step line next)) -> P e) ->
  forall lines e, In e (ocr_loop lines) -> P e.
Proof.
  intros Hstep lines e.
  remember (length lines) as n eqn:Hn.
  revert lines Hn. induction n as [n IH] using lt_wf_ind.
  intros [|line [|next rest]] Hn; cbn [ocr_loop].
  - intros [].
  - apply Hstep.
  - pose proof (Hstep line (Some next) e) as Hs.
    destruct (ocr_step line (Some next)) as [items took].
    cbn [fst] in Hs. rewrite in_app_iff. intros [Hi|Hi]; [auto|].
    cbn [length] in Hn.
    destruct took;
      [apply (IH (length rest)) with (lines := rest)
      |apply (IH (length (next :: rest))) with (lines := next :: rest)];
      cbn [length]; auto; lia.
Qed.

Lemma ocr_emit_In e n w m :
  In e (ocr_emit n w m) ->
  e = VocabItem3 n w m /\ w <> [] /\ m <> [].
Proof.
  unfold ocr_emit.
  destruct (nonempty w) eqn:Hw; cbn [andb]; [|intros []].
  destruct (1 <? length w)%nat; cbn [andb]; [|intros []].
  destruct (nonempty m) eqn:Hm; [|intros []].
  intros [<-|[]]. split; [reflexivity|].
  split; apply nonempty_true; assumption.
Qed.

Lemma ocr_step_entry line next e :
  In e (fst (ocr_step line next)) ->
  word_shape (word e) /\ has_char is_hangul (meaning e) /\ pos e = None.
Proof.
  unfold ocr_step.
  destruct (re_match re_ocr_head (strip line)) as [st|] eqn:Hm; [|intros []].
  destruct (ocr_head_groups _ _ Hm) as [_ Hw].
  rewrite (word_shape_strip _ Hw).
  set (rest := strip (ms_rest st)).
  assert (Hmeaning : forall m1,
             (m1 = [] \/ has_char is_hangul m1) ->
             In e (ocr_emit (int_of_digits (group 1 (ms_caps st)))
                     (group 2 (ms_caps st))
                     (if nonempty m1 then m1
                      else if re_search re_hangul rest
                           then ocr_meaning rest else m1)) ->
             word_shape (word e) /\ has_char is_hangul (meaning e)
             /\ pos e = None).
  { intros m1 Hm1 Hin. apply ocr_emit_In in Hin as (-> & _ & Hne).
    cbn [VocabItem3 word meaning pos]. split; [exact Hw|].
    split; [|reflexivity].
    destruct Hm1 as [->|Hh].
    - cbn [nonempty] in *.
      destruct (re_search re_hangul rest) eqn:Hs; [|congruence].
      apply ocr_meaning_hangul, search_cls, Hs.
    - rewrite (proj2 (nonempty_true m1) (has_char_nonempty _ _ Hh)).
      exact Hh. }
  destruct next as [raw_next|]; cbn [fst].
  - destruct (re_search re_hangul (strip raw_next)) eqn:Hs; cbn [fst].
    + apply Hmeaning. right. apply ocr_meaning_hangul, search_cls, Hs.
    + apply Hmeaning. left. reflexivity.
  - apply Hmeaning. left. reflexivity.
Qed.
Lemma parse_ocr_ok text e :
  In e (parse_ocr_vocab_text text) -> scan_entry_ok e.
Proof. apply (ocr_loop_all _ ocr_step_entry). Qed.

(** The entry [save_item] appends. *)
Lemma save_item_In e vl n w m :
  In e (save_item vl n w m) ->
  In e vl
  \/ (word e = w /\ pos e = None
      /\ (meaning e = m /\ m <> [] \/ meaning e = PLACEHOLDER /\ m = [])).
Proof.
  unfold save_item. rewrite in_app_iff. intros [Hin|[<-|[]]]; [auto|].
  right. cbn [VocabItem3 word meaning pos]. split; [reflexivity|].
  split; [reflexivity|].
  destruct m; cbn [nonempty]; [right; auto|left]. split; [auto|discriminate].
Qed.

Lemma placeholder_hangul : has_char is_hangul PLACEHOLDER.
Proof. exists 46907. split; [right; left|]; reflexivity. Qed.

Lemma pending_word st w : pending st = Some w -> current_word st = Some w.
Proof.
  unfold pending. destruct (current_word st) as [w'|]; [|discriminate].
  destruct (nonempty w'); [|discriminate]. congruence.
Qed.

Lemma save_item_ok vl n w m :
  Forall scan_entry_ok vl -> word_shape w ->
  (m = [] \/ has_char is_hangul m) ->
  Forall scan_entry_ok (save_item vl n w m).
Proof.
  intros Hvl Hw Hm. apply List.Forall_forall. intros e He.
  apply save_item_In in He as [He|(Hwe & Hp & Hme)].
  - rewrite List.Forall_forall in Hvl. auto.
  - split; [rewrite Hwe; exact Hw|]. split; [|exact Hp].
    destruct Hme as [[-> Hne]|[-> _]]; [|apply placeholder_hangul].
    destruct Hm as [->|Hm]; [congruence|exact Hm].
Qed.

Lemma flush_ok st : scan_ok st -> Forall scan_entry_ok (flush st).
Proof.
  intros [Hvl Hcw]. unfold flush.
  destruct (pending st) as [w|] eqn:Hp; [|exact Hvl].
  apply save_item_ok; [exact Hvl|apply Hcw, pending_word, Hp|auto].
Qed.

Lemma scan_rest_ok st line : scan_ok st -> scan_ok (scan_rest st line).
Proof.
  intros Hst. pose proof Hst as [Hvl Hcw]. unfold scan_rest.
  destruct (re_match re_num_word line) as [mt|] eqn:Hnw.
  { destruct (num_word_groups _ _ Hnw) as [_ Hw].
    split; cbn [vocab_list current_word]; [apply flush_ok, Hst|].
    intros w [= <-]. rewrite word_shape_strip; exact Hw. }
  destruct (re_search re_hangul line) eqn:Hs.
  - destruct (pending st) as [w|] eqn:Hp.
    + split; cbn [vocab_list current_word]; [|discriminate].
      apply save_item_ok; [exact Hvl|apply Hcw, pending_word, Hp|].
      right. apply collapse_keeps; [apply hangul_not_space|].
      apply re_sub_keeps; [apply lead_pos_no_hangul|].
      apply search_cls, Hs.
    + destruct (re_match re_bare_word line) as [bt|] eqn:Hb; [|exact Hst].
      split; cbn [vocab_list current_word]; [apply flush_ok, Hst|].
      intros w [= <-]. apply (bare_word_shape _ _ Hb).
  - destruct (re_match re_bare_word line) as [bt|] eqn:Hb; [|exact Hst].
    split; cbn [vocab_list current_word]; [apply flush_ok, Hst|].
    intros w [= <-]. apply (bare_word_shape _ _ Hb).
Qed.

Lemma scan_line_ok st line : scan_ok st -> scan_ok (scan_line st line).
Proof.
  intros Hst. unfold scan_line.
  destruct (re_match re_full line) as [mt|] eqn:Hf;
    [|apply scan_rest_ok, Hst].
  destruct (re_search re_hangul _) eqn:Hs; [|apply scan_rest_ok, Hst].
  destruct (full_groups _ _ Hf) as [_ Hw].
  split; cbn [vocab_list current_word]; [|discriminate].
  apply save_item_ok; [apply Hst|rewrite word_shape_strip; exact Hw|].
  right. apply search_cls, Hs.
Qed.

Lemma scan_entries text : Forall scan_entry_ok (scan [] text).
Proof.
  unfold scan. apply flush_ok.
  assert (Hfold : forall lines st, scan_ok st ->
                                   scan_ok (fold_left scan_line lines st)).
  { induction lines as [|l lines IH]; intros st Hst; [exact Hst|].
    cbn [fold_left]. apply IH, scan_line_ok, Hst. }
  apply Hfold. split; cbn [vocab_list current_word]; [constructor|discriminate].
Qed.

(** The entries of the first two patterns of [parse_vocab_simple]. *)
Lemma simple_entry_In e g1 g2 g3 :
  starts_with_letter g2 -> has_char is_hangul g3 ->
  In e (simple_entry (g1, g2, g3)) ->
  starts_with_letter (word e) /\ has_char is_hangul (meaning e)
  /\ pos e = None.
Proof.
  intros (c & t & -> & Hc) Hg3. unfold simple_entry.
  destruct (nonempty _ && nonempty _); [|intros []].
  intros [<-|[]]. cbn [VocabItem3 word meaning pos].
  split; [|split; [|reflexivity]].
  - unfold strip, rstrip.
    rewrite (lstrip_id (c :: t)) by (cbn; apply letter_not_space, Hc).
    cbn [rev].
    assert (Hl : forall l, exists l', lstrip (l ++ [c]) = l' ++ [c]).
    { induction l as [|a l [l' IH]]; cbn [app lstrip].
      - rewrite (letter_not_space c Hc). exists []. reflexivity.
      - destruct (isspace a); [exists l'; exact IH|].
        exists (a :: l). reflexivity. }
    destruct (Hl (rev t)) as [l' ->]. rewrite rev_app_distr. cbn.
    exists c, (rev l'). auto.
  - apply re_sub_keeps; [apply lead_pos_no_hangul|].
    apply strip_keeps; [apply hangul_not_space|exact Hg3].
Qed.

Lemma findall3_entries r text e :
  (forall prev s st, match_at r prev s = Some st ->
                     starts_with_letter (group 2 (ms_caps st))
                     /\ has_char is_hangul (group 3 (ms_caps st))) ->
  In e (flat_map simple_entry (re_findall3 r text)) ->
  starts_with_letter (word e) /\ has_char is_hangul (meaning e)
  /\ pos e = None.
Proof.
  intros Hr. rewrite in_flat_map. intros [[[g1 g2] g3] [Hin He]].
  unfold re_findall3 in Hin. rewrite in_flat_map in Hin.
  destruct Hin as [[c|w caps] [Hp Hin]]; [destruct Hin|].
  destruct Hin as [[= <- <- <-]|[]].
  apply pieces_hits in Hp as (prev' & s' & st & Hm & ->).
  destruct (Hr _ _ _ Hm) as [H2 H3].
  apply (simple_entry_In e _ _ _ H2 H3 He).
Qed.

(** The three ways [parse_vocab_simple] ends. *)
Lemma parse_vocab_simple_run_cases text :
  let e2 := flat_map simple_entry (re_findall3 re_two_line text) in
  let e1 := flat_map simple_entry (re_findall3 re_one_line text) in
  (e2 <> [] /\ parse_vocab_simple_run text = ([TwoLine], sorted number e2))
  \/ (e2 = [] /\ e1 <> []
      /\ parse_vocab_simple_run text = ([TwoLine; OneLine], sorted number e1))
  \/ (e2 = [] /\ e1 = []
      /\ parse_vocab_simple_run text
         = ([TwoLine; OneLine; Scanner], scan [] text)).
Proof.
  intros e2 e1. unfold parse_vocab_simple_run. cbv zeta.
  fold e2. fold e1. rewrite !app_nil_l.
  assert (K : forall p, nonempty p = false ->
                        flat_map simple_entry p = []).
  { intros [|m ms] Hp; [reflexivity|discriminate]. }
  assert (H2 : (if nonempty (re_findall3 re_two_line text) then e2 else [])
               = e2).
  { destruct (nonempty _) eqn:E; [reflexivity|]. symmetry. apply K, E. }
  rewrite H2.
  destruct e2 as [|x2 l2] eqn:E2.
  - rewrite andb_false_r, app_nil_l.
    assert (H1 : (if nonempty (re_findall3 re_one_line text) then e1 else [])
                 = e1).
    { destruct (nonempty (re_findall3 re_one_line text)) eqn:E;
        [reflexivity|]. symmetry. apply K, E. }
    rewrite H1.
    destruct e1 as [|x1 l1] eqn:E1.
    + rewrite andb_false_r. right. right. auto.
    + destruct (nonempty (re_findall3 re_one_line text)) eqn:E.
      * cbn [nonempty andb]. right. left.
        split; [reflexivity|]. split; [discriminate|reflexivity].
      * apply K in E. unfold e1 in E1. congruence.
  - destruct (nonempty (re_findall3 re_two_line text)) eqn:E.
    + cbn [nonempty andb]. left. split; [discriminate|reflexivity].
    + apply K in E. unfold e2 in E2. congruence.
Qed.

Lemma parse_vocab_simple_ok text e :
  In e (parse_vocab_simple text) ->
  starts_with_letter (word e) /\ has_char is_hangul (meaning e)
  /\ pos e = None.
Proof.
  unfold parse_vocab_simple.
  destruct (parse_vocab_simple_run_cases text)
    as [[_ ->]|[(_ & _ & ->)|(_ & _ & ->)]]; cbn [snd].
  - rewrite sorted_In. apply findall3_entries.
    intros prev s st Hm. apply two_line_groups in Hm. tauto.
  - rewrite sorted_In. apply findall3_entries.
    intros prev s st Hm. apply one_line_groups in Hm. tauto.
  - intros He. pose proof (scan_entries text) as Hs.
    rewrite List.Forall_forall in Hs.
    destruct (Hs e He) as ((c & t & Hw & Hc & _) & Hm & Hp).
    split; [exists c, t; auto|]. auto.
Qed.

Lemma table_entry_filled m e : In e (table_entry m) -> filled e.
Proof.
  destruct m as [[g1 g2] g3]. unfold table_entry. cbv beta iota zeta.
  destruct (nonempty (strip g2)) eqn:Hw; cbn [andb];
    [|intros Hin; destruct Hin].
  match goal with
  | |- In _ (if ?b then _ else _) -> _ => destruct b eqn:Hm
  end; [|intros Hin; destruct Hin].
  intros [<-|[]]. split; cbn [word meaning]; apply nonempty_true; assumption.
Qed.

Lemma csv_emit_In e n w m :
  In e (csv_emit n w m) -> e = VocabItem3 n w m /\ w <> [] /\ m <> [].
Proof.
  unfold csv_emit.
  destruct (nonempty w) eqn:Hw; cbn [andb]; [|intros []].
  destruct (nonempty m) eqn:Hm; [|intros []].
  intros [<-|[]]. split; [reflexivity|].
  split; apply nonempty_true; assumption.
Qed.

Lemma csv_line_In e i raw :
  In e (csv_line i raw) ->
  exists n w m, e = VocabItem3 n w m /\ w <> [] /\ m <> [].
Proof.
  unfold csv_line.
  destruct (negb (nonempty (strip raw)) || startswith HASH (strip raw));
    [intros []|].
  destruct (split_max COMMA 2 (strip raw)) as [|p0 [|p1 [|p2 ps]]];
    try (intros []); intros He; apply csv_emit_In in He; eauto.
Qed.

Lemma csv_fallback_In e text :
  In e (csv_fallback text) ->
  exists i raw, split_on NL text !! i = Some raw /\ In e (csv_line i raw).
Proof.
  unfold csv_fallback. rewrite csv_loop_imap, app_nil_l.
  rewrite in_concat. intros (l & Hl & He).
  apply list_elem_of_In, list_elem_of_lookup in Hl as [i Hi].
  rewrite list_lookup_imap in Hi.
  destruct (split_on NL text !! i) as [raw|] eqn:Hraw; [|discriminate].
  injection Hi as <-. exists i, raw. auto.
Qed.

(** X1. Every entry of [parse_ocr_vocab_text] has a word made of a
    letter followed by letters and hyphens, a meaning with a Hangul
    syllable at least, and no part of speech. *)
Theorem parse_ocr_entries (text : str) :
  Forall (fun e => word_shape (word e)
                   /\ has_char is_hangul (meaning e)
                   /\ pos e = None)
    (parse_ocr_vocab_text text).
Proof. apply List.Forall_forall. intros e. apply parse_ocr_ok. Qed.

(** X2. Every entry of [parse_vocab_simple] has a word that starts with a
    letter, a meaning with a Hangul syllable at least (the placeholder has
    some), and no part of speech; the words of the line scanner are made
    of letters and hyphens only. *)
Theorem parse_vocab_simple_entries (text : str) :
  Forall (fun e => starts_with_letter (word e)
                   /\ has_char is_hangul (meaning e)
                   /\ pos e = None)
    (parse_vocab_simple text)
  /\ Forall (fun e => word_shape (word e)) (scan [] text).
Proof.
  split.
  - apply List.Forall_forall. intros e. apply parse_vocab_simple_ok.
  - eapply List.Forall_impl; [|apply scan_entries]. intros e He. apply He.
Qed.

(** X3. No parser and no loader gives an entry with an empty word or an
    empty meaning: not [parse_ocr_vocab_text], [parse_vocab_table],
    [parse_vocab_simple] nor [load_vocab_from_text]. *)
Theorem entries_filled (text : str) :
  Forall filled (parse_ocr_vocab_text text)
  /\ Forall filled (parse_vocab_table text)
  /\ Forall filled (parse_vocab_simple text)
  /\ Forall filled (load_vocab_from_text text).
Proof.
  assert (Hsimple : forall e, In e (parse_vocab_simple text) -> filled e).
  { intros e He. apply parse_vocab_simple_ok in He as ((c & t & Hw & _) & Hm & _).
    split; [rewrite Hw; discriminate|apply (has_char_nonempty _ _ Hm)]. }
  split; [|split; [|split]]; apply List.Forall_forall; intros e He.
  - apply parse_ocr_ok in He as (Hw & Hm & _).
    split; [apply word_shape_nonempty, Hw|apply (has_char_nonempty _ _ Hm)].
  - unfold parse_vocab_table in He. apply in_flat_map in He as (m & _ & He).
    apply (table_entry_filled m e He).
  - apply Hsimple, He.
  - unfold load_vocab_from_text in He. cbv zeta in He.
    destruct (nonempty (parse_vocab_simple text)); [apply Hsimple, He|].
    apply csv_fallback_In in He as (i & raw & _ & He).
    apply csv_line_In in He as (n & w & m & -> & Hw & Hm).
    split; assumption.
Qed.

(** X4. When one of the two patterns of [parse_vocab_simple] finds
    records, the result is in ascending order of number; the entries of
    the line scanner stay in the order of the lines. *)
Theorem parse_vocab_simple_sorted (text : str) :
  fst (parse_vocab_simple_run text) <> [TwoLine; OneLine; Scanner] ->
  StronglySorted (fun a b => number a <= number b) (parse_vocab_simple text).
Proof.
  unfold parse_vocab_simple.
  destruct (parse_vocab_simple_run_cases text)
    as [[_ ->]|[(_ & _ & ->)|(_ & _ & ->)]]; cbn [fst snd]; intros Hs.
  - apply (sorted_StronglySorted number).
  - apply (sorted_StronglySorted number).
  - congruence.
Qed.
End EntryFacts.

Lemma parse_vocab_simple_sorted_witness :
  StronglySorted (fun a b => number a <= number b)
    (parse_vocab_simple
       (join [NL] [lit "9 dog n. 개"; lit "2 cat n. 고양이"]))
  /\ map number (parse_vocab_simple
                   (join [NL] [lit "9 dog n. 개"; lit "2 cat n. 고양이"]))
     = [2; 9]
  /\ map number (parse_vocab_simple
                   (join [NL] [lit "9 dog 개"; lit "2 cat 고양이"]))
     = [9; 2].
Proof.
  split; [|split; vm_compute; reflexivity].
  apply parse_vocab_simple_sorted. vm_compute. discriminate.
Defined.

(** *** The words the scanner keeps *)

Lemma lstrip_prefix s : exists ws, s = ws ++ lstrip s.
Proof.
  induction s as [|c s [ws IH]]; [exists []; reflexivity|].
  cbn [lstrip]. destruct (isspace c); [|exists []; reflexivity].
  exists (c :: ws). cbn [app]. f_equal. exact IH.
Qed.

Lemma lstrip_starts s : starts_without isspace (lstrip s).
Proof.
  induction s as [|c s IH]; [exact I|]. cbn [lstrip].
  destruct (isspace c) eqn:Hc; [exact IH|exact Hc].
Qed.

(** [strip] does nothing to a text it has made. *)
Lemma strip_idempotent s : strip (strip s) = strip s.
Proof.
  unfold strip, rstrip.
  set (a := lstrip s). set (b := lstrip (rev a)).
  assert (Ha : starts_without isspace a) by apply lstrip_starts.
  assert (Hb : starts_without isspace b) by apply lstrip_starts.
  destruct (lstrip_prefix (rev a)) as [ws Hws]. fold b in Hws.
  assert (Hrb : starts_without isspace (rev b)).
  { assert (Ea : a = rev b ++ rev ws).
    { rewrite <- rev_app_distr, <- Hws, rev_involutive. reflexivity. }
    destruct (rev b) as [|c r]; [exact I|]. rewrite Ea in Ha. exact Ha. }
  rewrite (lstrip_id (rev b) Hrb), rev_involutive, (lstrip_id b Hb).
  reflexivity.
Qed.

Lemma scan_lines_strip text line :
  In line (scan_lines text) -> strip line = line /\ line <> [].
Proof.
  unfold scan_lines. rewrite in_flat_map. intros (raw & _ & Hin).
  destruct (nonempty (strip raw)) eqn:Hn; [|destruct Hin].
  destruct Hin as [<-|[]]. split; [apply strip_idempotent|].
  apply nonempty_true, Hn.
Qed.

Section KeptWords.
Context `{UnicodeData}.

Lemma letter_not_decimal c : is_letter c = true -> is_decimal c = false.
Proof.
  unfold is_letter, is_decimal, decimal_value, in_range.
  rewrite orb_true_iff, !andb_true_iff, !Z.leb_le. intros Hc.
  destruct ((48 <=? c) && (c <=? 57)) eqn:Hd.
  - apply andb_true_iff in Hd. rewrite !Z.leb_le in Hd. lia.
  - destruct (Z.ltb_spec c 1632); [reflexivity|lia].
Qed.

Lemma word_tail_not_hangul c : is_word_tail c = true -> is_hangul c = false.
Proof.
  unfold is_word_tail, is_letter, is_hangul, in_range.
  rewrite !orb_true_iff, !andb_true_iff, !Z.leb_le, Z.eqb_eq. intros Hc.
  apply andb_false_iff. rewrite !Z.leb_gt. lia.
Qed.

Lemma word_shape_no_hangul w : word_shape w -> ~ has_char is_hangul w.
Proof.
  intros (c & t & -> & Hc & Ht) (a & Hin & Ha).
  assert (Hall : Forall (fun x => is_word_tail x = true) (c :: t)).
  { constructor; [|exact Ht]. unfold is_word_tail. rewrite Hc. reflexivity. }
  rewrite List.Forall_forall in Hall. specialize (Hall a Hin).
  rewrite (word_tail_not_hangul a Hall) in Ha. discriminate.
Qed.

(** A line that the pattern of a bare word matches starts with a word and
    ends there, or with one newline. *)
Lemma bare_word_line line st :
  re_match re_bare_word line = Some st ->
  exists w, word_shape w /\ (line = w \/ line = w ++ [NL]).
Proof.
  unfold re_match, match_at, re_bare_word. intros H0.
  apply run_cat in H0 as (w0 & st0 & Hs0 & L0 & H0 & _).
  cbn [lang] in L0. subst w0. cbn [ms_rest app] in Hs0.
  change (run (Cls is_letter >> star is_word_tail >> Eol false) Some st0)
    with (run ((Cls is_letter >> star is_word_tail) >> Eol false) Some st0)
    in H0.
  apply run_cat in H0 as (w & st1 & Hs1 & L1 & H0 & _).
  cbn [run] in H0.
  destruct (at_eol false (ms_rest st1)) eqn:He; [|discriminate].
  exists w. split; [apply lang_word, L1|].
  rewrite Hs0, Hs1. apply at_eol_line in He as [-> | ->];
    [left; apply app_nil_r|right; reflexivity].
Qed.

Lemma bare_not_num_word line st :
  re_match re_bare_word line = Some st -> re_match re_num_word line = None.
Proof.
  intros Hb. apply bare_word_line in Hb as (w & (c & t & -> & Hc & _) & Hl).
  assert (Hline : exists s, line = c :: s)
    by (destruct Hl as [->| ->]; eauto).
  destruct Hline as [s ->].
  unfold re_match, match_at, re_num_word, digits, plus.
  cbn [run ms_prev ms_rest ms_caps rep_greedy].
  rewrite (letter_not_decimal c Hc). reflexivity.
Qed.

Lemma bare_no_hangul line st :
  re_match re_bare_word line = Some st -> re_search re_hangul line = false.
Proof.
  intros Hb. apply bare_word_line in Hb as (w & Hw & Hl).
  destruct (re_search re_hangul line) eqn:Hs; [|reflexivity].
  apply search_cls in Hs. exfalso.
  apply (word_shape_no_hangul w Hw).
  destruct Hs as (a & Hin & Ha). exists a. split; [|exact Ha].
  destruct Hl as [->| ->]; [exact Hin|].
  apply in_app_iff in Hin as [Hin|[<-|[]]]; [exact Hin|discriminate].
Qed.

Lemma scan_line_no_record st line :
  is_record line = false -> scan_line st line = scan_rest st line.
Proof.
  unfold is_record, scan_line.
  destruct (re_match re_full line) as [mt|]; [|reflexivity].
  cbv zeta. intros ->. reflexivity.
Qed.

Lemma save_item_word vl n w m :
  exists e, In e (save_item vl n w m) /\ word e = w.
Proof.
  unfold save_item. eexists. split; [apply in_app_iff; right; left|];
    reflexivity.
Qed.

Lemma save_item_mono vl n w m e : In e vl -> In e (save_item vl n w m).
Proof. unfold save_item. intros He. apply in_app_iff. auto. Qed.

Lemma flush_mono st e : In e (vocab_list st) -> In e (flush st).
Proof.
  unfold flush. destruct (pending st); [apply save_item_mono|auto].
Qed.

Lemma flush_pending st w :
  pending st = Some w -> exists e, In e (flush st) /\ word e = w.
Proof. unfold flush. intros ->. apply save_item_word. Qed.

(** One turn on a line that is no complete record keeps the entries, and
    keeps the word held or makes an entry of it. *)
Lemma scan_rest_mono st line e :
  In e (vocab_list st) -> In e (vocab_list (scan_rest st line)).
Proof.
  intros He. unfold scan_rest.
  destruct (re_match re_num_word line);
    [cbn [vocab_list]; apply flush_mono, He|].
  destruct (if re_search re_hangul line then pending st else None);
    [cbn [vocab_list]; apply save_item_mono, He|].
  destruct (re_match re_bare_word line);
    [cbn [vocab_list]; apply flush_mono, He|exact He].
Qed.

Lemma scan_rest_pending st line w :
  pending st = Some w ->
  (exists e, In e (vocab_list (scan_rest st line)) /\ word e = w)
  \/ pending (scan_rest st line) = Some w.
Proof.
  intros Hp. unfold scan_rest.
  destruct (re_match re_num_word line);
    [left; cbn [vocab_list]; apply flush_pending, Hp|].
  rewrite Hp.
  destruct (re_search re_hangul line);
    [left; cbn [vocab_list]; apply save_item_word|].
  destruct (re_match re_bare_word line);
    [left; cbn [vocab_list]; apply flush_pending, Hp|right; exact Hp].
Qed.

Lemma scan_rest_bare st line bt :
  re_match re_bare_word line = Some bt -> strip line = line ->
  pending (scan_rest st line) = Some line.
Proof.
  intros Hb Hstrip. unfold scan_rest.
  rewrite (bare_not_num_word _ _ Hb), (bare_no_hangul _ _ Hb), Hb.
  unfold pending. cbn [current_word]. rewrite Hstrip.
  pose proof (bare_word_shape _ _ Hb) as Hw. rewrite Hstrip in Hw.
  destruct Hw as (c & t & -> & _). reflexivity.
Qed.

Lemma scan_fold_keeps lines :
  (forall l, In l lines -> is_record l = false /\ strip l = l) ->
  forall st,
    let st' := fold_left scan_line lines st in
    (forall e, In e (vocab_list st) -> In e (flush st'))
    /\ (forall w, pending st = Some w ->
                  exists e, In e (flush st') /\ word e = w)
    /\ (forall l, In l lines -> re_match re_bare_word l <> None ->
                  exists e, In e (flush st') /\ word e = l).
Proof.
  induction lines as [|l lines IH]; intros Hlines st; cbn [fold_left].
  - split; [apply flush_mono|]. split; [apply flush_pending|].
    intros l [].
  - destruct (Hlines l (or_introl eq_refl)) as [Hrec Hstrip].
    rewrite (scan_line_no_record st l Hrec).
    destruct (IH (fun l' Hl' => Hlines l' (or_intror Hl')) (scan_rest st l))
      as (Hmono & Hpend & Hbare).
    split; [|split].
    + intros e He. apply Hmono, scan_rest_mono, He.
    + intros w Hw.
      destruct (scan_rest_pending st l w Hw) as [(e & He & Hwe)|Hp].
      * exists e. split; [apply Hmono, He|exact Hwe].
      * apply Hpend, Hp.
    + intros l' [<-|Hin] Hb; [|apply Hbare; assumption].
      destruct (re_match re_bare_word l) as [bt|] eqn:Hbt; [|congruence].
      apply Hpend, (scan_rest_bare st l bt Hbt Hstrip).
Qed.

(** X5. When no line of the text is a complete record (a number, a word
    and a meaning with a Hangul syllable on one line), the line scanner
    loses no bare word: every line that is a bare word is the word of an
    entry of its result. *)
Theorem scanner_keeps_bare_words (text : str) :
  (forall line, In line (scan_lines text) -> is_record line = false) ->
  forall line,
    In line (scan_lines text) -> re_match re_bare_word line <> None ->
    exists e, In e (scan [] text) /\ word e = line.
Proof.
  intros Hrec line Hin Hb. unfold scan.
  apply (scan_fold_keeps (scan_lines text)); [|exact Hin|exact Hb].
  intros l Hl. split; [apply Hrec, Hl|apply (scan_lines_strip text l Hl)].
Qed.
End KeptWords.

Lemma scanner_keeps_bare_words_witness :
  exists e,
    In e (scan [] (join [NL] [lit "apple"; lit "12 banana"; lit "바나나"]))
    /\ word e = lit "apple".
Proof.
  apply scanner_keeps_bare_words.
  - intros line Hin. vm_compute in Hin.
    destruct Hin as [<-|[<-|[<-|[]]]]; vm_compute; reflexivity.
  - vm_compute. auto.
  - vm_compute. discriminate.
Defined.

(** *** The two loaders of a file of lines *)

Section LoaderFacts.
Context `{UnicodeData}.

Lemma csv_emit_pairs n n' w m :
  map word_meaning (csv_emit n w m) = map word_meaning (csv_emit n' w m).
Proof. unfold csv_emit. destruct (nonempty w && nonempty m); reflexivity. Qed.

(** The words and meanings a line gives do not depend on the numbers. *)
Lemma text_csv_step_pairs vl i raw :
  map word_meaning (text_csv_step vl raw)
  = map word_meaning vl ++ map word_meaning (csv_line i raw).
Proof.
  unfold text_csv_step, csv_line. cbv zeta.
  destruct (negb (nonempty (strip raw)) || startswith HASH (strip raw));
    [rewrite app_nil_r; reflexivity|].
  destruct (split_max COMMA 2 (strip raw)) as [|p0 [|p1 [|p2 ps]]];
    rewrite ?app_nil_r; try reflexivity;
    rewrite map_app; f_equal; apply csv_emit_pairs.
Qed.

Lemma text_csv_fold_pairs lines i vl acc :
  map word_meaning vl = map word_meaning acc ->
  map word_meaning (fold_left text_csv_step lines vl)
  = map word_meaning (csv_loop i lines acc).
Proof.
  revert i vl acc. induction lines as [|raw lines IH]; intros i vl acc Hvl.
  - exact Hvl.
  - cbn [fold_left csv_loop]. apply IH.
    rewrite (text_csv_step_pairs vl i raw), map_app, Hvl. reflexivity.
Qed.

(** X6. The loader of the web front end, [parse_text_to_vocab], and
    [load_vocab_from_text] read the same words and meanings, in the same
    order, from every text: they differ in the numbers only. *)
Theorem loaders_agree (text : str) :
  map word_meaning (parse_text_to_vocab text)
  = map word_meaning (load_vocab_from_text text).
Proof.
  unfold parse_text_to_vocab, load_vocab_from_text. cbv zeta.
  destruct (nonempty (parse_vocab_simple text)); [reflexivity|].
  apply text_csv_fold_pairs. reflexivity.
Qed.

(** An unnumbered line appends one entry at most, numbered by its place. *)
Lemma text_csv_step_unnumbered vl raw :
  unnumbered raw ->
  text_csv_step vl raw = vl
  \/ exists w m,
      text_csv_step vl raw
      = vl ++ [VocabItem3 (Z.of_nat (length vl) + 1) w m].
Proof.
  unfold unnumbered, text_csv_step. cbv zeta. intros Hlen.
  destruct (negb (nonempty (strip raw)) || startswith HASH (strip raw));
    [auto|].
  destruct (split_max COMMA 2 (strip raw)) as [|p0 [|p1 [|p2 ps]]]; auto.
  - unfold csv_emit.
    destruct (nonempty (strip p0) && nonempty (strip p1));
      [right; eauto|left; apply app_nil_r].
  - cbn [length] in Hlen. lia.
Qed.

Lemma text_csv_fold_numbers lines vl :
  Forall unnumbered lines ->
  map number vl = map Z.of_nat (seq 1 (length vl)) ->
  let out := fold_left text_csv_step lines vl in
  map number out = map Z.of_nat (seq 1 (length out)).
Proof.
  intros Hlines. revert vl.
  induction Hlines as [|raw lines Hraw _ IH]; intros vl Hvl; [exact Hvl|].
  cbn [fold_left]. apply IH.
  destruct (text_csv_step_unnumbered vl raw Hraw) as [->|(w & m & ->)];
    [exact Hvl|].
  rewrite length_app, map_app, Nat.add_comm. cbn [length Nat.add].
  rewrite seq_S, map_app, Hvl. cbn [map number VocabItem3 Nat.add].
  do 2 f_equal. lia.
Qed.

(** X7. When [parse_text_to_vocab] reads a text by its second loop and no
    line has a number field, the entries are numbered 1, 2, 3, ... in
    order, without gaps, whatever lines were skipped. *)
Theorem parse_text_to_vocab_numbers (text : str) :
  parse_vocab_simple text = [] ->
  Forall unnumbered (split_on NL text) ->
  map number (parse_text_to_vocab text)
  = map Z.of_nat (seq 1 (length (parse_text_to_vocab text))).
Proof.
  intros Hsimple Hlines. unfold parse_text_to_vocab. cbv zeta.
  rewrite Hsimple. cbn [nonempty].
  apply (text_csv_fold_numbers _ [] Hlines). reflexivity.
Qed.

(** An unnumbered line of index [i] gives one entry at most, of number
    [i + 1]. *)
Lemma csv_line_unnumbered i raw :
  unnumbered raw ->
  csv_line i raw = []
  \/ exists w m, csv_line i raw = [VocabItem3 (Z.of_nat i + 1) w m].
Proof.
  unfold unnumbered, csv_line. cbv zeta. intros Hlen.
  destruct (negb (nonempty (strip raw)) || startswith HASH (strip raw));
    [auto|].
  destruct (split_max COMMA 2 (strip raw)) as [|p0 [|p1 [|p2 ps]]]; auto.
  - unfold csv_emit.
    destruct (nonempty (strip p0) && nonempty (strip p1)); eauto.
  - cbn [length] in Hlen. lia.
Qed.

Lemma csv_loop_increasing lines i :
  Forall unnumbered lines ->
  let out := concat (imap (fun j => csv_line (i + j)) lines) in
  StronglySorted (fun a b => number a < number b) out
  /\ Forall (fun e => Z.of_nat i < number e) out.
Proof.
  intros Hlines. revert i.
  induction Hlines as [|raw lines Hraw _ IH]; intros i.
  - cbn. split; constructor.
  - rewrite imap_cons. cbn [concat]. rewrite Nat.add_0_r.
    destruct (IH (S i)) as [Hs Hf].
    assert (Hext : imap ((fun j => csv_line (i + j)) ∘ S) lines
                   = imap (fun j => csv_line (S i + j)) lines).
    { apply imap_ext. intros j x _. cbn. f_equal. lia. }
    rewrite Hext.
    destruct (csv_line_unnumbered i raw Hraw) as [->|(w & m & ->)];
      cbn [app].
    + split; [exact Hs|].
      eapply List.Forall_impl; [|exact Hf]. cbn. intros e He. lia.
    + split.
      * constructor; [exact Hs|].
        eapply List.Forall_impl; [|exact Hf]. cbn. intros e He. lia.
      * constructor; [cbn; lia|].
        eapply List.Forall_impl; [|exact Hf]. cbn. intros e He. lia.
Qed.

End LoaderFacts.

(** A file with a comment between two lines of two fields. *)
Lemma parse_text_to_vocab_numbers_witness :
  map number (parse_text_to_vocab
                (join [NL] [lit "apple,사과"; lit "# fruit"; lit "pear,배"]))
  = [1; 2].
Proof.
  rewrite parse_text_to_vocab_numbers; [reflexivity|reflexivity|].
  vm_compute. repeat constructor.
Defined.


(** *** The pages of a scanned document *)

Section OcrTableFacts.
Context {U : UnicodeData} {E : OcrEngine} {T : PageTools E}.

Lemma ocr_halves_In img height hs acc out e :
  ocr_halves img height hs acc = Some out ->
  In e out -> In e acc \/ from_half e.
Proof.
  revert acc. induction hs as [|[left_ right_] hs IH]; intros acc Hout He.
  - injection Hout as <-. auto.
  - cbn [ocr_halves] in Hout. cbv zeta in Hout.
    destruct (image_to_string_kor (crop (left_, 0, right_, height) img))
      as [text|] eqn:Htext; [|discriminate].
    destruct (IH _ Hout He) as [Hacc|Hhalf]; [|auto].
    apply in_app_or in Hacc as [Hacc|Hitem]; [auto|].
    right. exists (crop (left_, 0, right_, height) img), text. auto.
Qed.

Lemma ocr_pages_In rot pages acc out e :
  ocr_pages rot pages acc = Some out ->
  In e out -> In e acc \/ from_half e.
Proof.
  revert acc. induction pages as [|img pages IH]; intros acc Hout He.
  - injection Hout as <-. auto.
  - cbn [ocr_pages] in Hout. cbv zeta in Hout.
    destruct (size (binarize (snd (rotate_page rot img))))
      as [width height].
    destruct (ocr_halves _ height (halves width) acc) as [vl|] eqn:Hh;
      [|discriminate].
    destruct (IH _ Hout He) as [Hvl|Hhalf]; [|auto].
    exact (ocr_halves_In _ _ _ _ _ _ Hh Hvl).
Qed.

Lemma merge_keep_first lists :
  merge lists = keep_first ∅ (sorted number (concat lists)).
Proof. unfold merge. cbv zeta. rewrite fold_dedup_step. reflexivity. Qed.

Lemma merge_In lists e : In e (merge lists) -> In e (concat lists).
Proof.
  rewrite merge_keep_first. intros He.
  apply keep_first_In in He as [_ Hfind].
  apply find_some in Hfind as [Hin _].
  exact (proj1 (sorted_In number _ _) Hin).
Qed.

End OcrTableFacts.


(** *** The merge, once more *)

Lemma sorted_id {A} (key : A -> Z) l :
  StronglySorted (key_le key) l -> sorted key l = l.
Proof.
  induction 1 as [|x l Hs IH Hx]; [reflexivity|].
  cbn [sorted]. rewrite IH.
  destruct l as [|y l']; [reflexivity|]. cbn [insert_sorted].
  apply Forall_inv in Hx. unfold key_le in Hx.
  destruct (Z.leb_spec (key x) (key y)); [reflexivity|lia].
Qed.

Lemma keep_first_id seen l :
  StronglySorted (fun a b => number a < number b) l ->
  Forall (fun e => number e ∉ seen) l ->
  keep_first seen l = l.
Proof.
  intros Hs. revert seen.
  induction Hs as [|x l Hs IH Hx]; intros seen Hseen; [reflexivity|].
  cbn [keep_first].
  destruct (decide (number x ∈ seen)) as [Hin|_];
    [exfalso; exact (Forall_inv Hseen Hin)|].
  f_equal. apply IH.
  apply List.Forall_forall. intros e He.
  rewrite List.Forall_forall in Hx. specialize (Hx e He).
  apply Forall_inv_tail in Hseen. rewrite List.Forall_forall in Hseen.
  specialize (Hseen e He). cbn in Hx, Hseen.
  rewrite elem_of_union, elem_of_singleton. intros [Hin|Heq]; [auto|lia].
Qed.

Lemma increasing_key_le l :
  StronglySorted (fun a b => number a < number b) l ->
  StronglySorted (key_le number) l.
Proof.
  induction 1 as [|x l Hs IH Hx]; constructor; [exact IH|].
  eapply List.Forall_impl; [|exact Hx]. unfold key_le. cbn. intros; lia.
Qed.

Lemma merge_increasing lists :
  StronglySorted (fun a b => number a < number b) (merge lists).
Proof.
  unfold merge. cbv zeta. rewrite fold_dedup_step, app_nil_l.
  apply keep_first_increasing, sorted_StronglySorted.
Qed.

Lemma merge_fixed l :
  StronglySorted (fun a b => number a < number b) l -> merge [l] = l.
Proof.
  intros Hs. unfold merge. cbv zeta.
  rewrite fold_dedup_step, app_nil_l. cbn [concat]. rewrite app_nil_r.
  rewrite (sorted_id number l (increasing_key_le l Hs)).
  apply keep_first_id; [exact Hs|].
  apply List.Forall_forall. intros e _. set_solver.
Qed.

(** X10. The lists the merge of [extract_vocab_with_ocr_table] leaves as
    they are, are exactly the lists whose numbers increase strictly; so
    merging a merged list once more changes nothing, and entries that are
    already in order and without a repeated number are neither moved nor
    dropped. *)
Theorem merge_idempotent (lists : list (list VocabItem)) (l : list VocabItem) :
  (merge [l] = l <-> StronglySorted (fun a b => number a < number b) l)
  /\ merge [merge lists] = merge lists.
Proof.
  split; [split|].
  - intros <-. apply merge_increasing.
  - apply merge_fixed.
  - apply merge_fixed, merge_increasing.
Qed.

(** *** The names of the temporary files *)

Section FileNames.
Context `{UnicodeData}.

Lemma decimal_value_digit d :
  0 <= d <= 9 -> decimal_value (48 + d) = Some d.
Proof.
  intros Hd. unfold decimal_value, in_range.
  destruct (Z.leb_spec 48 (48 + d)); [|lia].
  destruct (Z.leb_spec (48 + d) 57); [|lia].
  cbn [andb]. f_equal. lia.
Qed.

Lemma int_of_digits_snoc s c :
  int_of_digits (s ++ [c])
  = int_of_digits s * 10 + default 0 (decimal_value c).
Proof. unfold int_of_digits. rewrite fold_left_app. reflexivity. Qed.

Lemma decimal_digits fuel n :
  (n < fuel)%nat ->
  digit_string (decimal fuel n)
  /\ int_of_digits (decimal fuel n) = Z.of_nat n.
Proof.
  revert n. induction fuel as [|fuel IH]; intros n Hn; [lia|].
  cbn [decimal].
  assert (Hmod : (n mod 10 < 10)%nat) by (apply Nat.mod_upper_bound; lia).
  assert (Hlast : decimal_value (48 + Z.of_nat (n mod 10))
                  = Some (Z.of_nat (n mod 10)))
    by (apply decimal_value_digit; lia).
  assert (Hdec : is_decimal (48 + Z.of_nat (n mod 10)) = true)
    by (unfold is_decimal; rewrite Hlast; reflexivity).
  destruct (Nat.ltb_spec n 10) as [Hsmall|Hbig].
  - cbn [app]. split.
    + split; [discriminate|]. constructor; [exact Hdec|constructor].
    + unfold int_of_digits. cbn [fold_left]. rewrite Hlast.
      unfold default. cbn [from_option id].
      rewrite Nat.mod_small by exact Hsmall. lia.
  - assert (Hdiv : (n / 10 < fuel)%nat).
    { pose proof (Nat.div_lt n 10). lia. }
    destruct (IH _ Hdiv) as [[Hne Hall] Hval]. split.
    + split; [destruct (decimal fuel (n / 10)); [congruence|discriminate]|].
      apply Forall_app. split; [exact Hall|].
      constructor; [exact Hdec|constructor].
    + rewrite int_of_digits_snoc, Hval, Hlast.
      unfold default. cbn [from_option id].
      pose proof (Nat.div_mod_eq n 10). lia.
Qed.

Lemma int_of_digits_zeros k s :
  int_of_digits (repeat 48 k ++ s) = int_of_digits s.
Proof.
  unfold int_of_digits. rewrite fold_left_app. f_equal.
  induction k as [|k IH]; [reflexivity|].
  cbn [repeat fold_left]. exact IH.
Qed.

Lemma format_04d_digits i :
  digit_string (format_04d i)
  /\ int_of_digits (format_04d i) = Z.of_nat i.
Proof.
  unfold format_04d. cbv zeta.
  destruct (decimal_digits (S i) i) as [[Hne Hall] Hval]; [lia|].
  split; [split|].
  - destruct (decimal (S i) i); [congruence|].
    destruct (repeat 48 _); discriminate.
  - apply Forall_app. split; [|exact Hall].
    apply List.Forall_forall. intros c Hc. apply repeat_spec in Hc as ->.
    reflexivity.
  - rewrite int_of_digits_zeros. exact Hval.
Qed.

Lemma format_04d_inj i j : format_04d i = format_04d j -> i = j.
Proof.
  intros Heq.
  pose proof (proj2 (format_04d_digits i)) as Hi.
  pose proof (proj2 (format_04d_digits j)) as Hj.
  rewrite Heq in Hi. lia.
Qed.

Lemma format_04d_length i : (4 <= length (format_04d i))%nat.
Proof.
  unfold format_04d. cbv zeta. generalize (decimal (S i) i). intros s.
  rewrite length_app, repeat_length. unfold char. lia.
Qed.
End FileNames.

Lemma eng_name_inj i j : eng_name i = eng_name j -> i = j.
Proof.
  unfold eng_name. intros Heq. apply app_inv_tail in Heq.
  exact (format_04d_inj (H := plain_unicode) _ _ Heq).
Qed.

Lemma kor_name_inj i j : kor_name i = kor_name j -> i = j.
Proof.
  unfold kor_name. intros Heq. apply app_inv_tail in Heq.
  exact (format_04d_inj (H := plain_unicode) _ _ Heq).
Qed.

Lemma eng_name_not_kor i j : eng_name i <> kor_name j.
Proof.
  unfold eng_name, kor_name. intros Heq.
  apply app_inj_2 in Heq as [_ Heq]; [|reflexivity].
  vm_compute in Heq. discriminate.
Qed.

(** *** The audio of a list *)

Section AudioFacts.
Context {A : AudioTools}.
Variables (temp_dir : str) (config : TTSConfig).
Variables (silence_between_words silence_between_repeat : str).

Local Abbreviation step :=
  (item_step temp_dir config silence_between_words silence_between_repeat).
Local Abbreviation loop :=
  (vocab_loop temp_dir config silence_between_words silence_between_repeat).

Lemma pairs_length (a b : str) n :
  length (concat (repeat [a; b] n)) = (2 * n)%nat.
Proof. induction n as [|n IH]; cbn [repeat concat app length]; lia. Qed.

Lemma item_step_length st i item :
  length (snd (step st i item))
  = (length (snd st) + segments_per_item config)%nat.
Proof.
  destruct st as [fs acc]. unfold item_step, segments_per_item.
  cbn [snd]. rewrite !length_app, !pairs_length. cbn [length]. lia.
Qed.

Lemma vocab_loop_length items i st :
  length (snd (loop i items st))
  = (length (snd st) + length items * segments_per_item config)%nat.
Proof.
  revert i st. induction items as [|item items IH]; intros i st.
  - cbn [vocab_loop length]. lia.
  - cbn [vocab_loop length]. rewrite IH, item_step_length. lia.
Qed.

Lemma pairs_In (a b p : str) n :
  In p (concat (repeat [a; b] n)) -> p = a \/ p = b.
Proof.
  induction n as [|n IH]; cbn [repeat concat app In]; [tauto|].
  intros [<-|[<-|Hin]]; auto.
Qed.

Lemma item_step_In st i item p :
  In p (snd (step st i item)) ->
  In p (snd st)
  \/ p = path_join temp_dir (eng_name i)
  \/ p = path_join temp_dir (kor_name i)
  \/ p = silence_between_repeat
  \/ p = silence_between_words.
Proof.
  destruct st as [fs acc]. unfold item_step. cbn [snd].
  rewrite !in_app_iff. cbn [In].
  intros [[[Hacc|Heng]|Hkor]|[<-|[]]]; auto.
  - apply pairs_In in Heng as [->| ->]; auto.
  - apply pairs_In in Hkor as [->| ->]; auto.
Qed.

Lemma vocab_loop_In items i st p :
  In p (snd (loop i items st)) ->
  In p (snd st)
  \/ (exists j, p = path_join temp_dir (eng_name j))
  \/ (exists j, p = path_join temp_dir (kor_name j))
  \/ p = silence_between_repeat
  \/ p = silence_between_words.
Proof.
  revert i st. induction items as [|item items IH]; intros i st Hp.
  - auto.
  - cbn [vocab_loop] in Hp. apply IH in Hp.
    destruct Hp as [Hp|Hp]; [|auto].
    apply item_step_In in Hp. intuition eauto.
Qed.

(** What the calls write, and where. *)
Lemma speech_other fs text voice p q :
  p <> q -> fst (generate_speech_edge fs text voice p) !! q = fs !! q.
Proof.
  intros Hpq. unfold generate_speech_edge.
  destruct (communicate text voice) as [[f|] ok]; cbn [fst written];
    [|reflexivity].
  unfold files in *. apply lookup_insert_ne. exact Hpq.
Qed.

Lemma speech_same fs text voice p f :
  fst (communicate text voice) = Some f ->
  fst (generate_speech_edge fs text voice p) !! p = Some f.
Proof.
  unfold generate_speech_edge.
  destruct (communicate text voice) as [f' ok]. cbn [fst]. intros ->.
  cbn [written]. unfold files in *. apply lookup_insert_eq.
Qed.

Lemma item_step_other st i item q :
  q <> path_join temp_dir (eng_name i) ->
  q <> path_join temp_dir (kor_name i) ->
  fst (step st i item) !! q = fst st !! q.
Proof.
  intros Heng Hkor. destruct st as [fs acc]. unfold item_step. cbn [fst].
  rewrite !speech_other by congruence. reflexivity.
Qed.

Lemma vocab_loop_other items i st q :
  (forall j, (i <= j)%nat ->
             q <> path_join temp_dir (eng_name j)
             /\ q <> path_join temp_dir (kor_name j)) ->
  fst (loop i items st) !! q = fst st !! q.
Proof.
  revert i st. induction items as [|item items IH]; intros i st Hq;
    [reflexivity|].
  cbn [vocab_loop]. rewrite IH by (intros j Hj; apply Hq; lia).
  destruct (Hq i (le_n i)). apply item_step_other; assumption.
Qed.

Hypothesis path_join_inj :
  forall a b, path_join temp_dir a = path_join temp_dir b -> a = b.

Lemma item_step_eng st i item f :
  fst (communicate (word item) (english_voice config)) = Some f ->
  fst (step st i item) !! path_join temp_dir (eng_name i) = Some f.
Proof.
  intros Hf. destruct st as [fs acc]. unfold item_step. cbn [fst].
  rewrite speech_other.
  - apply speech_same. exact Hf.
  - intros Heq. apply path_join_inj in Heq.
    exact (eng_name_not_kor i i (eq_sym Heq)).
Qed.

Lemma item_step_kor st i item f :
  fst (communicate (meaning_text config item) (korean_voice config))
  = Some f ->
  fst (step st i item) !! path_join temp_dir (kor_name i) = Some f.
Proof.
  intros Hf. destruct st as [fs acc]. unfold item_step. cbn [fst].
  apply speech_same. exact Hf.
Qed.

Lemma later_names i j :
  (S i <= j)%nat ->
  path_join temp_dir (eng_name i) <> path_join temp_dir (eng_name j)
  /\ path_join temp_dir (eng_name i) <> path_join temp_dir (kor_name j)
  /\ path_join temp_dir (kor_name i) <> path_join temp_dir (eng_name j)
  /\ path_join temp_dir (kor_name i) <> path_join temp_dir (kor_name j).
Proof.
  intros Hj. repeat split; intros Heq; apply path_join_inj in Heq.
  - apply eng_name_inj in Heq. lia.
  - exact (eng_name_not_kor _ _ Heq).
  - exact (eng_name_not_kor _ _ (eq_sym Heq)).
  - apply kor_name_inj in Heq. lia.
Qed.

Lemma vocab_loop_files items k st i item :
  items !! i = Some item ->
  let fs := fst (loop k items st) in
  (forall f, fst (communicate (word item) (english_voice config)) = Some f ->
             fs !! path_join temp_dir (eng_name (k + i)) = Some f)
  /\ (forall f, fst (communicate (meaning_text config item)
                       (korean_voice config)) = Some f ->
                fs !! path_join temp_dir (kor_name (k + i)) = Some f).
Proof.
  revert k st i. induction items as [|x items IH]; intros k st i Hi;
    [discriminate|].
  cbn [vocab_loop]. destruct i as [|i].
  - injection Hi as ->. rewrite Nat.add_0_r. cbv zeta. split; intros f Hf.
    + rewrite vocab_loop_other.
      * apply item_step_eng. exact Hf.
      * intros j Hj. destruct (later_names k j Hj) as (? & ? & _). auto.
    + rewrite vocab_loop_other.
      * apply item_step_kor. exact Hf.
      * intros j Hj. destruct (later_names k j Hj) as (_ & _ & ? & ?). auto.
  - cbn [lookup list_lookup] in Hi.
    replace (k + S i)%nat with (S k + i)%nat by lia.
    apply IH. exact Hi.
Qed.
End AudioFacts.

Section AudioResults.
Context {A : AudioTools}.

Lemma synthesize_length fs temp_dir vocab_list config :
  length (snd (synthesize fs temp_dir vocab_list config))
  = (length vocab_list * segments_per_item config)%nat.
Proof.
  unfold synthesize. cbv zeta. rewrite vocab_loop_length. reflexivity.
Qed.

Lemma synthesize_nonempty fs temp_dir vocab_list config :
  nonempty (snd (synthesize fs temp_dir vocab_list config))
  = nonempty vocab_list.
Proof.
  pose proof (synthesize_length fs temp_dir vocab_list config) as Hlen.
  unfold segments_per_item in Hlen.
  destruct (snd (synthesize fs temp_dir vocab_list config));
    destruct vocab_list; cbn [length nonempty] in *; try reflexivity; lia.
Qed.

(** X11. The list of segments [generate_vocab_audio_async] passes to the
    concatenation has, for each entry of the vocabulary, twice
    [english_repeat] plus twice [meaning_repeat] plus one paths, a
    negative count being no repetition; each path is a file of an entry or
    one of the two silences, in the temporary directory. *)
Theorem audio_segments_count fs temp_dir vocab_list config :
  let audio_segments := snd (synthesize fs temp_dir vocab_list config) in
  length audio_segments
  = (length vocab_list
     * (2 * Z.to_nat (english_repeat config)
        + 2 * Z.to_nat (meaning_repeat config) + 1))%nat
  /\ Forall (fun p => exists name, p = path_join temp_dir name)
       audio_segments.
Proof.
  cbv zeta. split; [apply synthesize_length|].
  apply List.Forall_forall. intros p Hp. unfold synthesize in Hp.
  cbv zeta in Hp. apply vocab_loop_In in Hp.
  destruct Hp as [[]|[[j ->]|[[j ->]|[->| ->]]]]; eauto.
Qed.

Lemma combine_files_total fs :
  (forall f, from_mp3 f <> None) ->
  forall file_list combined,
    exists a, combine_files fs file_list combined = Some a.
Proof.
  intros Hmp3. induction file_list as [|p l IH]; intros combined; [eauto|].
  cbn [combine_files]. destruct (fs !! p) as [f|]; [|apply IH].
  specialize (Hmp3 f). destruct (from_mp3 f); [apply IH|congruence].
Qed.

Lemma concatenate_true fs file_list output_path :
  snd (concatenate_audio_files fs file_list output_path) = true ->
  HAS_PYDUB = true /\ file_list <> [].
Proof.
  unfold concatenate_audio_files.
  destruct file_list as [|p l]; cbn [nonempty negb snd]; [discriminate|].
  destruct HAS_PYDUB; cbn [negb snd]; [|discriminate]. intros _.
  split; [reflexivity|discriminate].
Qed.

Lemma concatenate_result fs file_list output_path :
  (forall f, from_mp3 f <> None) -> (forall a, snd (export a) = true) ->
  snd (concatenate_audio_files fs file_list output_path)
  = HAS_PYDUB && nonempty file_list.
Proof.
  intros Hmp3 Hexport. unfold concatenate_audio_files.
  destruct (nonempty file_list); cbn [negb snd];
    [|rewrite andb_false_r; reflexivity].
  destruct HAS_PYDUB; cbn [negb snd andb]; [|reflexivity].
  destruct (combine_files_total fs Hmp3 file_list audio_empty) as [a ->].
  specialize (Hexport a). destruct (export a) as [f ok]. exact Hexport.
Qed.

(** X12. [generate_vocab_audio_async] returns [True] only when both
    libraries are there and the vocabulary is not empty: for an empty
    list it returns [False].  When decoding and writing audio do not fail,
    these conditions are enough: whether the speech service gave the words
    or failed on each of them does not change the result. *)
Theorem audio_result fs temp_dir vocab_list output_path config :
  (snd (generate_vocab_audio_async fs temp_dir vocab_list output_path config)
   = true ->
   HAS_EDGE_TTS = true /\ HAS_PYDUB = true /\ vocab_list <> [])
  /\ ((forall f, from_mp3 f <> None) -> (forall a, snd (export a) = true) ->
      snd (generate_vocab_audio_async fs temp_dir vocab_list output_path
             config)
      = HAS_EDGE_TTS && HAS_PYDUB && nonempty vocab_list).
Proof.
  unfold generate_vocab_audio_async. cbv zeta.
  pose proof (synthesize_nonempty fs temp_dir vocab_list
                (default default_config config)) as Hne.
  destruct (synthesize fs temp_dir vocab_list
              (default default_config config)) as [fs' segs].
  cbn [snd] in Hne. split.
  - destruct HAS_EDGE_TTS; cbn [negb snd]; [|discriminate].
    intros Hres. apply concatenate_true in Hres as [Hp Hs].
    split; [reflexivity|]. split; [exact Hp|].
    intros ->. destruct segs; [congruence|discriminate].
  - intros Hmp3 Hexport.
    destruct HAS_EDGE_TTS; cbn [negb snd andb]; [|reflexivity].
    rewrite concatenate_result by assumption. rewrite Hne. reflexivity.
Qed.

Lemma meaning_text_no_pos b config item :
  pos item = None ->
  meaning_text (with_include_pos b config) item = meaning_text config item.
Proof. unfold meaning_text. intros ->. reflexivity. Qed.

Lemma vocab_loop_no_pos b temp_dir config sw sr items :
  Forall (fun e => pos e = None) items ->
  forall i st,
    vocab_loop temp_dir (with_include_pos b config) sw sr i items st
    = vocab_loop temp_dir config sw sr i items st.
Proof.
  induction 1 as [|item items Hitem _ IH]; intros i st; [reflexivity|].
  cbn [vocab_loop]. rewrite IH. f_equal.
  destruct st as [fs acc]. unfold item_step.
  rewrite (meaning_text_no_pos b config item Hitem). reflexivity.
Qed.

Lemma generate_no_pos b fs temp_dir vocab_list output_path config :
  Forall (fun e => pos e = None) vocab_list ->
  generate_vocab_audio_async fs temp_dir vocab_list output_path
    (Some (with_include_pos b config))
  = generate_vocab_audio_async fs temp_dir vocab_list output_path
      (Some config).
Proof.
  intros Hpos. unfold generate_vocab_audio_async, synthesize. cbv zeta.
  unfold default. cbn [from_option id].
  rewrite (vocab_loop_no_pos b _ _ _ _ _ Hpos). reflexivity.
Qed.

Lemma load_vocab_no_pos `{UnicodeData} text e :
  In e (load_vocab_from_text text) -> pos e = None.
Proof.
  unfold load_vocab_from_text. cbv zeta.
  destruct (nonempty (parse_vocab_simple text)); intros He.
  - apply parse_vocab_simple_ok in He. apply He.
  - apply csv_fallback_In in He as (i & raw & _ & He).
    apply csv_line_In in He as (n & w & m & -> & _). reflexivity.
Qed.

(** X13. The option [include_pos] has no effect on the audio of a
    vocabulary read by [parse_ocr_vocab_text], [parse_vocab_simple] or
    [load_vocab_from_text]: these give no part of speech, so the files
    written and the result are the same with the option and without. *)
Theorem include_pos_without_effect `{UnicodeData} (text : str) (b : bool)
    fs temp_dir output_path config :
  let run vocab_list c :=
    generate_vocab_audio_async fs temp_dir vocab_list output_path (Some c) in
  run (parse_ocr_vocab_text text) (with_include_pos b config)
  = run (parse_ocr_vocab_text text) config
  /\ run (parse_vocab_simple text) (with_include_pos b config)
     = run (parse_vocab_simple text) config
  /\ run (load_vocab_from_text text) (with_include_pos b config)
     = run (load_vocab_from_text text) config.
Proof.
  cbv zeta. split; [|split]; apply generate_no_pos;
    apply List.Forall_forall; intros e He.
  - apply parse_ocr_ok in He. apply He.
  - apply parse_vocab_simple_ok in He. apply He.
  - exact (load_vocab_no_pos _ _ He).
Qed.

(** X14. When [os.path.join] gives different paths for different names in
    the temporary directory, no file of an entry is written over: at the
    concatenation, the file of the word of the entry of index [i] holds
    what the speech service gave for that word with the English voice, and
    the file of its meaning what it gave for the meaning with the Korean
    voice, whenever the service gave something. *)
Theorem audio_files_kept fs temp_dir vocab_list config i item :
  (forall a b, path_join temp_dir a = path_join temp_dir b -> a = b) ->
  vocab_list !! i = Some item ->
  let fs' := fst (synthesize fs temp_dir vocab_list config) in
  (forall f, fst (communicate (word item) (english_voice config)) = Some f ->
             fs' !! path_join temp_dir (eng_name i) = Some f)
  /\ (forall f, fst (communicate (meaning_text config item)
                       (korean_voice config)) = Some f ->
                fs' !! path_join temp_dir (kor_name i) = Some f).
Proof.
  intros Hjoin Hi. unfold synthesize. cbv zeta.
  exact (vocab_loop_files temp_dir config _ _ Hjoin vocab_list 0 _ i item Hi).
Qed.
End AudioResults.

(** The speech service is down: the result is [True] all the same. *)
Lemma audio_result_witness :
  snd (generate_vocab_audio_async (A := silent_tools) ∅ (lit "/tmp/v")
         [VocabItem3 1 (lit "apple") (lit "사과")] (lit "out.mp3") None)
  = true.
Proof.
  rewrite (proj2 (audio_result (A := silent_tools) ∅ (lit "/tmp/v")
                    [VocabItem3 1 (lit "apple") (lit "사과")]
                    (lit "out.mp3") None)).
  - reflexivity.
  - discriminate.
  - reflexivity.
Defined.

Lemma audio_files_kept_witness :
  fst (synthesize (A := text_tools) ∅ (lit "/tmp/v")
         [VocabItem3 1 (lit "apple") (lit "사과");
          VocabItem3 2 (lit "pear") (lit "배")] default_config)
  !! (lit "/tmp/v/0001_eng.mp3")
  = Some [lit "pear"].
Proof.
  refine (proj1 (audio_files_kept (A := text_tools) ∅ (lit "/tmp/v")
                   [VocabItem3 1 (lit "apple") (lit "사과");
                    VocabItem3 2 (lit "pear") (lit "배")] default_config
                   1%nat (VocabItem3 2 (lit "pear") (lit "배")) _ _)
            [lit "pear"] _).
  - intros a b Heq. do 2 apply app_inv_head in Heq. exact Heq.
  - reflexivity.
  - reflexivity.
Defined.

(** *** The entries of the table parser *)

Lemma rstrip_id s : starts_without isspace (rev s) -> rstrip s = s.
Proof. intros Hs. unfold rstrip. rewrite lstrip_id, rev_involutive; auto. Qed.

Lemma token_starts w : word_token w -> starts_without isspace w.
Proof. intros [_ Hw]. destruct Hw; cbn; auto. Qed.

Lemma token_ends w : word_token w -> starts_without isspace (rev w).
Proof.
  intros [_ Hw]. destruct (rev w) as [|c r] eqn:Hr; cbn; [exact I|].
  rewrite List.Forall_forall in Hw. apply Hw, (proj2 (in_rev _ c)).
  rewrite Hr. left. reflexivity.
Qed.

Lemma starts_without_app p (a b : str) :
  a <> [] -> starts_without p a -> starts_without p (a ++ b).
Proof. destruct a; [congruence|]. cbn. auto. Qed.

Lemma join_tokens_nonempty w ws :
  Forall word_token (w :: ws) -> join [SP] (w :: ws) <> [].
Proof.
  intros Hws. apply Forall_inv in Hws as [Hne _]. cbn [join].
  destruct ws; [exact Hne|]. destruct w; [congruence|discriminate].
Qed.

Lemma join_starts ws :
  Forall word_token ws -> starts_without isspace (join [SP] ws).
Proof.
  intros Hws. destruct Hws as [|w ws Hw Hws]; [exact I|]. cbn [join].
  destruct ws; [apply token_starts, Hw|].
  apply starts_without_app; [apply Hw|apply token_starts, Hw].
Qed.

Lemma join_ends ws :
  Forall word_token ws -> starts_without isspace (rev (join [SP] ws)).
Proof.
  induction 1 as [|w ws Hw Hws IH]; [exact I|]. cbn [join].
  destruct ws as [|w' ws]; [apply token_ends, Hw|].
  rewrite rev_app_distr. apply starts_without_app; [|].
  - intros Hnil. apply (f_equal (@length char)) in Hnil.
    rewrite length_rev, length_app in Hnil. cbn in Hnil. lia.
  - rewrite rev_app_distr. apply starts_without_app; [|exact IH].
    intros Hnil. apply (f_equal (@rev char)) in Hnil.
    rewrite rev_involutive in Hnil.
    exact (join_tokens_nonempty _ _ Hws Hnil).
Qed.

Lemma strip_collapsed ws :
  Forall word_token ws -> strip (join [SP] ws) = join [SP] ws.
Proof.
  intros Hws. unfold strip.
  rewrite lstrip_id by (apply join_starts, Hws).
  apply rstrip_id, join_ends, Hws.
Qed.

Section TableFacts.
Context `{UnicodeData}.

(** The groups of a match of the pattern of the table: a number and a
    word of letters and hyphens. *)
Lemma table_groups prev s st :
  match_at re_table prev s = Some st ->
  digit_string (group 1 (ms_caps st))
  /\ lang (plus is_word_tail) (group 2 (ms_caps st)).
Proof.
  unfold match_at, re_table. intros H0.
  apply run_grp_cat in H0 as (w1 & st1 & _ & L1 & G1 & H0 & _).
  apply run_cat in H0 as (w2 & st2 & _ & _ & H0 & F2).
  apply run_cat in H0 as (w3 & st3 & _ & _ & H0 & F3).
  apply run_cat in H0 as (w4 & st4 & _ & _ & H0 & F4).
  apply run_grp_cat in H0 as (w5 & st5 & _ & L5 & G5 & H0 & F5).
  apply run_cat in H0 as (w6 & st6 & _ & _ & H0 & F6).
  apply run_grp_cat in H0 as (w7 & st7 & _ & L7 & G7 & H0 & F7).
  apply run_last in H0 as (w8 & _ & _ & F8).
  split.
  - rewrite F8, F7, F6, F5, F4, F3, F2, G1 by not_captured.
    apply digits_nonempty, L1.
  - rewrite F8, F7, F6, G5 by not_captured. exact L5.
Qed.

(** The group of a match of the pattern that finds the tags. *)
Lemma pos_find_group prev s st :
  match_at re_table_pos_find prev s = Some st ->
  tag_shape (group 1 (ms_caps st)).
Proof.
  unfold match_at, re_table_pos_find. intros H0.
  apply run_cat in H0 as (w0 & st0 & _ & _ & H0 & _).
  apply run_grp_cat in H0 as (w1 & st1 & _ & L1 & G1 & H0 & _).
  apply run_last in H0 as (w2 & _ & _ & F2).
  rewrite F2, G1 by not_captured.
  cbn [lang] in L1.
  destruct L1 as (a & b & -> & (c & -> & Hc) & [->|(d & -> & Hd)]);
    exists c; split; auto.
  right. unfold is_d in Hd. apply Z.eqb_eq in Hd as ->. reflexivity.
Qed.

Lemma findall1_tags raw :
  Forall tag_shape (re_findall1 re_table_pos_find raw).
Proof.
  apply List.Forall_forall. intros t Ht. unfold re_findall1 in Ht.
  apply in_flat_map in Ht as (p & Hp & Ht).
  destruct p as [c|w caps]; [destruct Ht|]. destruct Ht as [<-|[]].
  apply pieces_hits in Hp as (prev' & s' & st & Hm & ->).
  exact (pos_find_group _ _ _ Hm).
Qed.

Lemma table_entry_shape m e :
  lang (plus is_word_tail) (snd (fst m)) ->
  In e (table_entry m) ->
  (word e <> [] /\ Forall (fun c => is_word_tail c = true) (word e))
  /\ (meaning e <> [] /\ collapsed (meaning e))
  /\ match pos e with
     | Some p =>
       exists tags, tags <> [] /\ Forall tag_shape tags
                    /\ p = join [COMMA; SP] tags
     | None => True
     end.
Proof.
  destruct m as [[g1 g2] g3]. cbn [fst snd]. intros [Hall Hlen].
  unfold table_entry. cbv beta iota zeta.
  assert (Hstrip : strip g2 = g2).
  { apply strip_id. eapply List.Forall_impl; [|exact Hall].
    apply word_tail_not_space. }
  rewrite Hstrip.
  pose proof (split_ws_tokens (re_sub re_table_pos [] (strip g3))) as Htok.
  rewrite (strip_collapsed _ Htok).
  match goal with
  | |- In _ (if ?b then _ else _) -> _ => destruct b eqn:Hb
  end; [|intros Hin; destruct Hin].
  intros [<-|[]]. apply andb_true_iff in Hb as [Hw Hm].
  cbn [word meaning pos]. split; [|split].
  - split; [apply nonempty_true, Hw|exact Hall].
  - split; [apply nonempty_true, Hm|]. eexists. split; [exact Htok|].
    reflexivity.
  - destruct (nonempty (re_findall1 re_table_pos_find (strip g3))) eqn:Hp;
      [|exact I].
    eexists. split; [apply nonempty_true, Hp|].
    split; [apply findall1_tags|reflexivity].
Qed.

(** X15. Every entry of [parse_vocab_table] has a word that is not empty
    and made of letters and hyphens only; a meaning that is not empty and
    whose blanks are collapsed (words without whitespace, one space
    between two of them, none at the ends); and, when it has a part of
    speech, one that lists tags, one at least, each a, v, n, ad, vd or nd,
    with a comma and a space between them: never an empty text. *)
Theorem parse_vocab_table_entries (text : str) :
  Forall (fun e =>
            (word e <> [] /\ Forall (fun c => is_word_tail c = true) (word e))
            /\ (meaning e <> [] /\ collapsed (meaning e))
            /\ match pos e with
               | Some p =>
                 exists tags, tags <> [] /\ Forall tag_shape tags
                              /\ p = join [COMMA; SP] tags
               | None => True
               end)
    (parse_vocab_table text).
Proof.
  apply List.Forall_forall. intros e He. unfold parse_vocab_table in He.
  apply in_flat_map in He as (m & Hm & He).
  apply (table_entry_shape m e); [|exact He].
  unfold re_findall3 in Hm. apply in_flat_map in Hm as (p & Hp & Hm).
  destruct p as [c|w caps]; [destruct Hm|]. destruct Hm as [<-|[]].
  apply pieces_hits in Hp as (prev' & s' & st & Hmatch & ->).
  cbn [fst snd]. exact (proj2 (table_groups _ _ _ Hmatch)).
Qed.
End TableFacts.

(** *** The text between the fences *)

Section Fences.
Variable sep : str.
Hypothesis sep_nonempty : sep <> [].

Lemma starts_with_nil : starts_with sep [] = false.
Proof. destruct sep; [congruence|reflexivity]. Qed.

Lemma starts_with_app s : starts_with sep (sep ++ s) = true.
Proof.
  clear sep_nonempty. induction sep as [|a l IH]; [reflexivity|].
  cbn [app starts_with]. rewrite Z.eqb_refl. exact IH.
Qed.

Lemma starts_with_split s :
  starts_with sep s = true -> s = sep ++ drop (length sep) s.
Proof.
  clear sep_nonempty. revert s. induction sep as [|a l IH]; intros s;
    [reflexivity|].
  destruct s as [|c s]; cbn [starts_with]; [discriminate|].
  rewrite andb_true_iff, Z.eqb_eq. intros [-> Hs].
  cbn [length drop app]. f_equal. apply IH, Hs.
Qed.

(** A text that starts with the separator starts with it whatever
    follows. *)
Lemma starts_with_longer p rest :
  starts_with sep p = true -> starts_with sep (p ++ rest) = true.
Proof.
  intros Hp. rewrite (starts_with_split p Hp), <- app_assoc.
  apply starts_with_app.
Qed.

Lemma split_sep_nonempty n s : split_sep sep n s <> [].
Proof.
  revert n. induction s as [|c s IH]; intros n; cbn [split_sep];
    [discriminate|].
  destruct n as [|n]; [|apply IH].
  destruct (starts_with sep (c :: s)); [discriminate|].
  specialize (IH 0%nat). destruct (split_sep sep 0 s); [congruence|].
  discriminate.
Qed.

(** Passing the characters of an occurrence is starting again after it. *)
Lemma split_sep_skip n s :
  split_sep sep n s = split_sep sep 0 (drop n s).
Proof.
  revert s. induction n as [|n IH]; intros s; [rewrite drop_0; reflexivity|].
  destruct s as [|c s]; [reflexivity|]. cbn [split_sep drop]. apply IH.
Qed.

Lemma split_sep_match s :
  split_sep sep 0 (sep ++ s) = [] :: split_sep sep 0 s.
Proof.
  pose proof (starts_with_app s) as Hst.
  destruct (sep ++ s) as [|c t] eqn:Heq.
  - apply app_eq_nil in Heq as [Hnil _]. congruence.
  - cbn [split_sep]. rewrite Hst. f_equal. rewrite split_sep_skip. f_equal.
    clear Hst. destruct sep as [|a l]; [congruence|].
    injection Heq as _ <-. cbn [length].
    rewrite Nat.sub_succ, Nat.sub_0_r. apply drop_app_length.
Qed.

(** The first part: what comes before the first occurrence, without one
    inside. *)
Lemma split_sep_first s :
  exists p ws,
    split_sep sep 0 s = p :: ws
    /\ (exists rest, s = p ++ rest)
    /\ contains sep p = false.
Proof.
  induction s as [|c s (p & ws & Hsplit & [rest Hrest] & Hp)].
  - exists [], []. split; [reflexivity|]. split; [exists []; reflexivity|].
    apply starts_with_nil.
  - cbn [split_sep]. destruct (starts_with sep (c :: s)) eqn:Hs.
    + exists [], (split_sep sep (length sep - 1) s).
      split; [reflexivity|]. split; [exists (c :: s); reflexivity|].
      apply starts_with_nil.
    + rewrite Hsplit. cbn [cons_word]. exists (c :: p), ws.
      split; [reflexivity|]. split; [exists rest; rewrite Hrest at 1;
                                      reflexivity|].
      cbn [contains]. rewrite Hp, orb_false_r.
      destruct (starts_with sep (c :: p)) eqn:Hcp; [|reflexivity].
      apply (starts_with_longer _ rest) in Hcp.
      cbn [app] in Hcp. rewrite <- Hrest in Hcp. congruence.
Qed.

(** With an occurrence there are two parts at least, and the second
    follows the first occurrence. *)
Lemma split_sep_second s :
  contains sep s = true ->
  exists p q ws rest,
    split_sep sep 0 s = p :: q :: ws
    /\ s = p ++ sep ++ q ++ rest.
Proof.
  induction s as [|c s IH]; cbn [contains];
    [rewrite starts_with_nil; discriminate|].
  destruct (starts_with sep (c :: s)) eqn:Hs.
  - intros _. rewrite (starts_with_split _ Hs).
    destruct (split_sep_first (drop (length sep) (c :: s)))
      as (q & ws & Hq & [rest Hrest] & _).
    exists [], q, ws, rest. rewrite split_sep_match, Hq.
    split; [reflexivity|]. cbn [app]. rewrite <- Hrest. reflexivity.
  - cbn [orb]. intros Hc.
    destruct (IH Hc) as (p & q & ws & rest & Hsplit & Heq).
    exists (c :: p), q, ws, rest. cbn [split_sep]. rewrite Hs, Hsplit.
    split; [reflexivity|]. cbn [app]. rewrite <- Heq. reflexivity.
Qed.
End Fences.

Lemma fence_block (sep response_text : str) :
  sep <> [] ->
  contains sep response_text = true ->
  exists part x before after,
    split_sep sep 0 response_text !! 1%nat = Some part
    /\ split_sep FENCE 0 part !! 0%nat = Some x
    /\ contains FENCE x = false
    /\ response_text = before ++ sep ++ x ++ after.
Proof.
  intros Hsep Hc.
  destruct (split_sep_second sep Hsep _ Hc)
    as (p & q & ws & rest & Hsplit & Heq).
  destruct (split_sep_first FENCE ltac:(discriminate) q)
    as (x & ws' & Hx & [rest' Hq] & Hfree).
  exists q, x, p, (rest' ++ rest). rewrite Hsplit, Hx.
  split; [reflexivity|]. split; [reflexivity|]. split; [exact Hfree|].
  rewrite Heq, Hq at 1. rewrite <- !app_assoc. reflexivity.
Qed.


